(** * DB48X object runtime: opcode table, bignum arithmetic and renderer

    A shallow embedding of the table of kinds [ids.tbl] (found in
    [src/unnamed/part_000]), of [src/src/bignum.cc] and of [renderer::put]
    (the text of [renderer.cc], found in [src/src/loops.h]), with the
    properties of the specification that concern them.

    Conventions of the embedding.
    - A C++ [byte] is a [Z] in [0, 256); [uint16_t], [uint] and [ularge]
      values are [Z] with the wrap-around written out ([uint16], [uint32],
      [ularge]); [int] differences are wrapped by [int32].
    - A magnitude is the list of its payload bytes, least significant first.
    - The runtime [rt] is threaded explicitly; only its error slot is
      observed.  The heap is taken to be large enough: [rt.allocate] and
      [rt.make] succeed, so the out-of-memory returns of the sources are not
      part of the model.
    - A garbage-collected pointer ([bignum_g], [integer_p]) is an [option]:
      [None] is [nullptr]. *)

From Stdlib Require Import String Ascii ZArith List Lia Bool.
Import ListNotations.

Local Open Scope Z_scope.

(* ========================================================================= *)
(** * The opcode table, [ids.tbl]                                            *)
(* ========================================================================= *)

Module Ids.

Local Open Scope string_scope.

(** One line of the table: the declaring macro and the identifier.
    [NAMED], [OP] and [MENU] default to [CMD] or [ID], so that every line
    declares one enumerator, in the order of the file; [ALIAS] lines declare
    none and are left out. *)
Inductive entry : Type :=
| ID (name : string)
| CMD (name : string)
| NAMED (name : string)
| OP (name : string)
| MENU (name : string).

Definition entry_name (e : entry) : string :=
  match e with
  | ID n | CMD n | NAMED n | OP n | MENU n => n
  end.

Section Table.

(** The preprocessor switch of the table. *)
Variable CONFIG_FIXED_BASED_OBJECTS : bool.

Definition ids_tbl : list entry :=
  [
     ID "object"; ID "directory"; ID "text"; ID "list"; ID "program";
     ID "block"; ID "array"; ID "menu"; ID "locals"; ID "local"; ID "symbol";
     ID "equation"; ID "rectangular"; ID "polar"
  ]
  ++
  (if CONFIG_FIXED_BASED_OBJECTS then
    [
     ID "hex_integer"; ID "dec_integer"; ID "oct_integer"; ID "bin_integer"
    ] else [])
  ++
  [
     ID "based_integer"
  ]
  ++
  (if CONFIG_FIXED_BASED_OBJECTS then
    [
     ID "hex_bignum"; ID "dec_bignum"; ID "oct_bignum"; ID "bin_bignum"
    ] else [])
  ++
  [
     ID "based_bignum"; ID "bignum"; ID "neg_bignum"; ID "integer";
     ID "neg_integer"; ID "fraction"; ID "neg_fraction"; ID "big_fraction";
     ID "neg_big_fraction"; ID "decimal32"; ID "decimal64"; ID "decimal128";
     ID "comment"; ID "grob"; CMD "Drop"; CMD "Drop2"; CMD "DropN";
     NAMED "Dup"; NAMED "Dup2"; NAMED "DupN"; CMD "Swap"; CMD "Over";
     CMD "Pick"; CMD "Rot"; CMD "Roll"; NAMED "RollD"; NAMED "Eval";
     NAMED "Sto"; NAMED "Rcl"; CMD "True"; CMD "False"; NAMED "ToText";
     NAMED "pi"; NAMED "ImaginaryUnit"; OP "add"; OP "sub"; OP "mul";
     OP "div"; CMD "mod"; CMD "rem"; NAMED "neg"; NAMED "inv"; NAMED "sq";
     NAMED "cubed"; NAMED "sqrt"; NAMED "abs"; OP "And"; OP "Or"; OP "Xor";
     OP "NAnd"; OP "NOr"; OP "Implies"; OP "Equiv"; OP "Excludes"; OP "Not";
     CMD "same"; NAMED "TestSame"; NAMED "TestLT"; NAMED "TestEQ";
     NAMED "TestGT"; NAMED "TestLE"; NAMED "TestNE"; NAMED "TestGE";
     NAMED "asin"; NAMED "acos"; NAMED "atan"; CMD "sin"; CMD "cos";
     CMD "tan"; NAMED "asinh"; NAMED "acosh"; NAMED "atanh"; CMD "sinh";
     CMD "cosh"; CMD "tanh"; CMD "log1p"; CMD "expm1"; CMD "log";
     CMD "log10"; CMD "log2"; CMD "exp"; CMD "exp10"; CMD "exp2"; CMD "erf";
     CMD "erfc"; NAMED "tgamma"; CMD "lgamma"; NAMED "fact"; NAMED "cbrt";
     OP "pow"; OP "hypot"; OP "atan2"; CMD "xroot"; CMD "sign"; CMD "re";
     CMD "im"; CMD "arg"; CMD "conj"; NAMED "det"; NAMED "ToDecimal";
     NAMED "ToFraction"; CMD "IfThen"; CMD "IfThenElse"; CMD "DoUntil";
     CMD "WhileRepeat"; CMD "StartNext"; CMD "StartStep"; CMD "ForNext";
     CMD "ForStep"; CMD "Depth"; NAMED "ToList"; CMD "Get"; CMD "Rewrite";
     CMD "Expand"; CMD "Collect"; CMD "Simplify"; NAMED "RealToComplex";
     NAMED "ComplexToReal"; NAMED "ToRectangular"; NAMED "ToPolar";
     CMD "Purge"; CMD "PurgeAll"; NAMED "Mem"; CMD "FreeMemory";
     CMD "SystemMemory"; CMD "GarbageCollect"; NAMED "home";
     CMD "CurrentDirectory"; NAMED "path"; NAMED "crdir"; NAMED "updir";
     NAMED "pgdir"; NAMED "IFT"; NAMED "IFTE"; CMD "IfErrThen";
     CMD "IfErrThenElse"; NAMED "errm"; NAMED "errn"; NAMED "err0";
     NAMED "doerr"; NAMED "Disp"; NAMED "DispXY"; NAMED "Line";
     NAMED "Ellipse"; NAMED "Circle"; NAMED "Rect"; NAMED "RRect";
     NAMED "ClLCD"; NAMED "Draw"; NAMED "Drax"; NAMED "Function";
     NAMED "Polar"; NAMED "Parametric"; CMD "Clip"; CMD "CurrentClip";
     NAMED "GXor"; NAMED "GOr"; NAMED "GAnd"; NAMED "Pict"; NAMED "ToTag";
     NAMED "FromTag"; NAMED "dtag"; CMD "Cycle"; CMD "RealToBinary";
     CMD "BinaryToReal"; CMD "Ticks"; CMD "Wait"; CMD "Bytes"; CMD "Type";
     CMD "TypeName"; CMD "Version"; CMD "Root"; NAMED "Integrate";
     CMD "Modes"; CMD "ResetModes"; NAMED "Std"; NAMED "Fix"; NAMED "Sci";
     NAMED "Eng"; NAMED "Sig"; NAMED "Deg"; NAMED "Rad"; NAMED "Grad";
     CMD "PiRadians"; CMD "LowerCase"; CMD "UpperCase"; CMD "Capitalized";
     CMD "LongForm"; CMD "DecimalDot"; CMD "DecimalComma";
     CMD "NoTrailingDecimal"; CMD "TrailingDecimal"; CMD "Precision";
     CMD "StandardExponent"; CMD "FancyExponent"; CMD "ClassicExponent";
     CMD "Base"; NAMED "Bin"; NAMED "Oct"; NAMED "Dec"; NAMED "Hex";
     NAMED "stws"; NAMED "rcws"; CMD "ResultFontSize"; CMD "StackFontSize";
     CMD "EditorFontSize"; CMD "EditorMultilineFontSize";
     CMD "MantissaSpacing"; CMD "FractionSpacing"; CMD "BasedSpacing";
     CMD "NumberSpaces"; CMD "NumberDotOrComma"; CMD "NumberTicks";
     CMD "NumberUnderscore"; CMD "BasedSpaces"; CMD "BasedDotOrComma";
     CMD "BasedTicks"; CMD "BasedUnderscore"; CMD "AutoSimplify";
     CMD "NoAutoSimplify"; CMD "NumericResults"; CMD "SymbolicResults";
     CMD "MaxBigNumBits"; CMD "MaxRewrites"; NAMED "ToFractionIterations";
     NAMED "ToFractionDigits"; CMD "SingleRowMenus"; CMD "FlatMenus";
     CMD "ThreeRowsMenus"; CMD "RoundedMenus"; CMD "SquareMenus";
     CMD "LineWidth"; CMD "Foreground"; CMD "Background";
     CMD "GraphicsStackDisplay"; CMD "TextStackDisplay"; MENU "MainMenu";
     MENU "MathMenu"; MENU "RealMenu"; MENU "PartsMenu";
     MENU "FractionsMenu"; MENU "PowersMenu"; MENU "ComplexMenu";
     MENU "VectorMenu"; MENU "MatrixMenu"; MENU "AnglesMenu";
     MENU "HyperbolicMenu"; MENU "ExpLogMenu"; MENU "CircularMenu";
     MENU "BasesMenu"; MENU "ProbabilitiesMenu"; MENU "NumbersMenu";
     MENU "DebugMenu"; MENU "StatisticsMenu"; MENU "SignalProcessingMenu";
     MENU "ConstantsMenu"; MENU "EquationsMenu"; MENU "UnitsMenu";
     MENU "UnitsConversionsMenu"; MENU "SymbolicMenu";
     MENU "IntegrationMenu"; MENU "DifferentiationMenu"; MENU "SolverMenu";
     MENU "PolynomialsMenu"; MENU "NumericalSolverMenu";
     MENU "DifferentialSolverMenu"; MENU "SymbolicSolverMenu";
     MENU "PolynomialSolverMenu"; MENU "LinearSolverMenu";
     MENU "MultiSolverMenu"; MENU "FinanceSolverMenu"; MENU "ProgramMenu";
     MENU "TestsMenu"; MENU "CompareMenu"; MENU "LoopsMenu"; MENU "ListMenu";
     MENU "StackMenu"; MENU "ClearThingsMenu"; MENU "ObjectMenu";
     MENU "FlagsMenu"; MENU "CharsMenu"; MENU "ModesMenu";
     MENU "DisplayModesMenu"; MENU "SeparatorModesMenu";
     MENU "UserInterfaceModesMenu"; MENU "MathModesMenu";
     MENU "PrintingMenu"; MENU "IOMenu"; MENU "FilesMenu"; MENU "TimeMenu";
     MENU "PlotMenu"; MENU "GraphicsMenu"; MENU "MemMenu"; MENU "LibsMenu";
     MENU "TextMenu"; MENU "EditMenu"; CMD "VariablesMenu"; CMD "ToolsMenu";
     CMD "Catalog"; CMD "LastMenu"; NAMED "Off"; CMD "SaveState";
     CMD "SystemSetup"; CMD "Help"; CMD "Undo"; NAMED "LastArg"; CMD "LastX";
     CMD "EditorSelect"; CMD "EditorWordLeft"; CMD "EditorWordRight";
     CMD "EditorBegin"; CMD "EditorEnd"; CMD "EditorCut"; CMD "EditorCopy";
     CMD "EditorPaste"; CMD "EditorSearch"; CMD "EditorReplace";
     CMD "EditorClear"; CMD "EditorFlip"; CMD "Unimplemented";
     CMD "MenuNextPage"; CMD "MenuPreviousPage"; CMD "MenuFirstPage";
     CMD "VariablesMenuExecute"; CMD "VariablesMenuRecall";
     CMD "VariablesMenuStore"; CMD "SelfInsert"; ID "font"; ID "dense_font";
     ID "sparse_font"; ID "dmcp_font"; ID "tag"
  ].

(** The enumerators, in declaration order: the tag of a kind is its
    position. *)
Definition names : list string := map entry_name ids_tbl.

Fixpoint position (n : string) (l : list string) : option nat :=
  match l with
  | [] => None
  | m :: l' => if String.eqb n m then Some 0%nat
               else option_map S (position n l')
  end.

Definition tag (n : string) : option nat := position n names.

(** The [FLAGS(name, first, last, ...)] lines: each declares a category
    predicate from one or two (first, last) pairs. *)
Definition flags_tbl : list (string * list (string * string)) :=
  [ ("is_type",      [("directory", "decimal128")]) ]
  ++ (if CONFIG_FIXED_BASED_OBJECTS then
      [ ("is_integer", [("hex_integer", "neg_integer")]);
        ("is_based",   [("hex_integer", "based_integer");
                        ("hex_bignum", "based_bignum")]);
        ("is_bignum",  [("hex_bignum", "neg_bignum")]) ]
      else
      [ ("is_integer", [("based_integer", "neg_integer")]);
        ("is_based",   [("based_integer", "based_integer");
                        ("based_bignum", "based_bignum")]);
        ("is_bignum",  [("based_bignum", "neg_bignum")]) ])
  ++
  [ ("is_fraction",  [("fraction", "neg_big_fraction")]);
    ("is_decimal",   [("decimal32", "decimal128")]);
    ("is_real",      [("bignum", "decimal128")]);
    ("is_complex",   [("rectangular", "polar")]);
    ("is_command",   [("Drop", "Unimplemented")]);
    ("is_symbolic",  [("local", "equation"); ("pi", "ImaginaryUnit")]);
    ("is_algebraic", [("add", "ToFraction")]);
    ("is_immediate", [("MainMenu", "SelfInsert")]) ].

(** Modelled from the spec: the header that expands [FLAGS] is not part of
    the sources.  Section 4.2 has the category predicates defined "as
    inclusive tag comparisons" and section 3 has the ranges "defined by
    first/last tag pairs": a tag satisfies a predicate when it lies between
    the tags of one of the declared pairs, bounds included. *)
Definition in_pair (ty : nat) (p : string * string) : bool :=
  match tag (fst p), tag (snd p) with
  | Some first, Some last => (first <=? ty)%nat && (ty <=? last)%nat
  | _, _ => false
  end.

Definition in_ranges (ranges : list (string * string)) (ty : nat) : bool :=
  existsb (in_pair ty) ranges.

Definition ranges_of (flag : string) : list (string * string) :=
  match find (fun d => String.eqb flag (fst d)) flags_tbl with
  | Some d => snd d
  | None => []
  end.

Definition is_type      := in_ranges (ranges_of "is_type").
Definition is_integer   := in_ranges (ranges_of "is_integer").
Definition is_based     := in_ranges (ranges_of "is_based").
Definition is_bignum    := in_ranges (ranges_of "is_bignum").
Definition is_fraction  := in_ranges (ranges_of "is_fraction").
Definition is_decimal   := in_ranges (ranges_of "is_decimal").
Definition is_real      := in_ranges (ranges_of "is_real").
Definition is_complex   := in_ranges (ranges_of "is_complex").
Definition is_command   := in_ranges (ranges_of "is_command").
Definition is_symbolic  := in_ranges (ranges_of "is_symbolic").
Definition is_algebraic := in_ranges (ranges_of "is_algebraic").
Definition is_immediate := in_ranges (ranges_of "is_immediate").

(** ** The kinds of a category, by their declaration

    Whether a kind belongs to a category is read here off the line that
    declares it, the macro and the identifier, and never off its place in
    the table.  The header of the table has [ID] for "an ID that is not
    parseable as a command, e.g. types" and [CMD], [NAMED] and [OP] for the
    commands.  The kinds of numbers are named after their family, the
    families being those of section 3 of the specification: [integer] and
    [bignum] for the integers, small and big, [fraction], and [decimal] with
    a width, with [neg_] or [big_] before the name, and with [hex_], [dec_],
    [oct_], [bin_] or [based_] before it for the based numbers;
    [rectangular] and [polar] are the complex numbers. *)
Definition declared_type (e : entry) : bool :=
  match e with ID _ => true | _ => false end.

Definition declared_command (e : entry) : bool :=
  match e with CMD _ | NAMED _ | OP _ => true | _ => false end.

Definition declared_menu (e : entry) : bool :=
  match e with MENU _ => true | _ => false end.

Definition ends_with (suffix n : string) : bool :=
  (String.length suffix <=? String.length n)%nat
  && String.eqb suffix
       (substring (String.length n - String.length suffix)
                  (String.length suffix) n).

Definition based_name (n : string) : bool :=
  prefix "hex_" n || prefix "dec_" n || prefix "oct_" n || prefix "bin_" n
  || prefix "based_" n.

Definition integer_name (n : string) : bool :=
  ends_with "integer" n || ends_with "bignum" n.

Definition bignum_name (n : string) : bool := ends_with "bignum" n.

Definition fraction_name (n : string) : bool := ends_with "fraction" n.

Definition decimal_name (n : string) : bool := prefix "decimal" n.

Definition complex_name (n : string) : bool :=
  String.eqb n "rectangular" || String.eqb n "polar".

Definition real_name (n : string) : bool :=
  (integer_name n && negb (based_name n)) || fraction_name n
  || decimal_name n.

(** A type, declared with [ID], of which the name passes [test]. *)
Definition named (test : string -> bool) (e : entry) : bool :=
  declared_type e && test (entry_name e).

(** The categories of numbers, each with the kinds that belong to it. *)
Definition families : list (string * (entry -> bool)) :=
  [ ("is_integer",  named integer_name);
    ("is_based",    named (fun n => based_name n && integer_name n));
    ("is_bignum",   named bignum_name);
    ("is_fraction", named fraction_name);
    ("is_decimal",  named decimal_name);
    ("is_real",     named real_name);
    ("is_complex",  named complex_name) ].

(** The kinds that [FLAGS(is_symbolic, ...)] is declared for, and the
    commands of the last section of commands of the table, "Commands that we
    don't want to see appear in the catalog". *)
Definition symbolic_names : list string :=
  ["local"; "symbol"; "equation"; "pi"; "ImaginaryUnit"].

Definition hidden_commands : list string :=
  ["MenuNextPage"; "MenuPreviousPage"; "MenuFirstPage";
   "VariablesMenuExecute"; "VariablesMenuRecall"; "VariablesMenuStore";
   "SelfInsert"].

Definition mem (n : string) (l : list string) : bool :=
  existsb (String.eqb n) l.

(** A declared pair is well formed when both ends are enumerators and the
    first is declared no later than the last. *)
Definition pair_ok (p : string * string) : bool :=
  match tag (fst p), tag (snd p) with
  | Some first, Some last => (first <=? last)%nat
  | _, _ => false
  end.

(** [p] holds of every line of the table, with the tag that the line
    declares. *)
Definition every_kind (p : nat -> entry -> bool) : bool :=
  forallb (fun e => match tag (entry_name e) with
                    | Some ty => p ty e
                    | None => false
                    end) ids_tbl.

Fixpoint nodup_names (l : list string) : bool :=
  match l with
  | [] => true
  | n :: l' => negb (mem n l') && nodup_names l'
  end.

(** The tags satisfying a predicate form one interval. *)
Definition contiguous (p : nat -> bool) : Prop :=
  forall a b c : nat,
    (a <= b <= c)%nat -> p a = true -> p c = true -> p b = true.

End Table.

End Ids.

(* ========================================================================= *)
(** * Machine integers and byte buffers                                      *)
(* ========================================================================= *)

(** Conversions to the unsigned C++ types. *)
Definition byte (z : Z) : Z := z mod 2 ^ 8.
Definition uint16 (z : Z) : Z := z mod 2 ^ 16.
Definition uint32 (z : Z) : Z := z mod 2 ^ 32.
Definition ularge (z : Z) : Z := z mod 2 ^ 64.

(** Conversion to [int]. *)
Definition int32 (z : Z) : Z := (z + 2 ^ 31) mod 2 ^ 32 - 2 ^ 31.

Definition sizeof_ularge : nat := 8.

(** [buffer[i] = v].  The sources only store inside the buffers they
    allocate (the loop guards and the invariants proved below keep the index
    below the length); outside, the model leaves the buffer as it is. *)
Fixpoint set (i : nat) (v : Z) (buffer : list Z) : list Z :=
  match buffer, i with
  | [], _ => []
  | _ :: t, O => v :: t
  | h :: t, S i' => h :: set i' v t
  end.

(** The number a little-endian magnitude stands for. *)
Fixpoint le_value (p : list Z) : Z :=
  match p with
  | [] => 0
  | b :: p' => b + 2 ^ 8 * le_value p'
  end.

(** The weight of the byte of index [n]. *)
Definition radix (n : nat) : Z := 2 ^ (8 * Z.of_nat n).

(** The little-endian bytes of a non-negative number, without leading
    zeros. *)
Fixpoint le_bytes_fuel (fuel : nat) (v : Z) : list Z :=
  match fuel with
  | O => []
  | S fuel' => if v <=? 0 then []
               else byte v :: le_bytes_fuel fuel' (Z.shiftr v 8)
  end.

Definition le_bytes (v : Z) : list Z :=
  le_bytes_fuel (S (Z.to_nat (Z.log2 v))) v.

Definition is_byte (b : Z) : Prop := 0 <= b < 2 ^ 8.

(** Every element is a byte. *)
Definition bytes_ok (p : list Z) : Prop := Forall is_byte p.

(** No leading zero byte: the most significant byte, when there is one, is
    not zero. *)
Definition normalized (p : list Z) : Prop := last p 1 <> 0.

(** [while (sz > 0 && buffer[sz-1] == 0) sz--;] *)
Fixpoint strip (sz : nat) (buffer : list Z) : nat :=
  match sz with
  | O => O
  | S sz' => if nth sz' buffer 0 =? 0 then strip sz' buffer else sz
  end.

(* ========================================================================= *)
(** * Errors, settings and the runtime                                       *)
(* ========================================================================= *)

Module Errors.

(** [errors.tbl], in order. *)
Inductive error : Type :=
| unimplemented | interrupted | missing_argument | invalid_object
| out_of_memory | syntax | infix_expected | prefix_expected
| argument_expected | zero_divide | undefined_operation | type | value
| index | dimension | mantissa | exponent | exponent_range | domain
| based_number | based_digit | based_range | invalid_base | unterminated
| no_directory | directory_path | name_exists | invalid_name
| undefined_name | recursion | return_without_caller | invalid_local
| malformed_directory | missing_variable | number_too_big
| too_many_rewrites | invalid_ppar | invalid_plot_type | invalid_function
| constant_value | bad_guess | no_solution.

End Errors.

(** The runtime [rt], reduced to its error slot. *)
Record runtime : Type := mk_runtime { Error : option Errors.error }.

(** Code that may raise an error on the runtime. *)
Definition M (A : Type) : Type := runtime -> A * runtime.

Definition ret {A : Type} (a : A) : M A := fun rt => (a, rt).

Definition bind {A B : Type} (m : M A) (k : A -> M B) : M B :=
  fun rt => let (a, rt') := m rt in k a rt'.

Notation "x <- m ;; k" := (bind m (fun x => k))
  (at level 61, m at next level, right associativity).

Definition error (e : Errors.error) : M unit :=
  fun _ => (tt, {| Error := Some e |}).

Definition zero_divide_error : M unit := error Errors.zero_divide.
Definition number_too_big_error : M unit := error Errors.number_too_big.

(** The fields of [Settings] that the arithmetic and the rendering of
    numbers read. *)
Record settings : Type := mk_settings {
  wordsize : nat;            (* bits of a based number *)
  maxbignum : nat;           (* bits of the largest bignum *)
  spacing_mantissa : Z;      (* digits between two separators, a [uint] *)
  space : Z;                 (* code point of the separator *)
  spacing_based : Z;
  space_based : Z
}.

(* ========================================================================= *)
(** * Bignums, [bignum.cc]                                                   *)
(* ========================================================================= *)

(** The kinds of objects that the bignum code handles. *)
Inductive id : Type :=
| ID_hex_bignum | ID_dec_bignum | ID_oct_bignum | ID_bin_bignum
| ID_based_bignum | ID_bignum | ID_neg_bignum
| ID_integer | ID_neg_integer.

Definition id_eqb (a b : id) : bool :=
  match a, b with
  | ID_hex_bignum, ID_hex_bignum | ID_dec_bignum, ID_dec_bignum
  | ID_oct_bignum, ID_oct_bignum | ID_bin_bignum, ID_bin_bignum
  | ID_based_bignum, ID_based_bignum | ID_bignum, ID_bignum
  | ID_neg_bignum, ID_neg_bignum | ID_integer, ID_integer
  | ID_neg_integer, ID_neg_integer => true
  | _, _ => false
  end.

(** The enumerator of [ids.tbl] behind a kind. *)
Definition id_name (t : id) : string :=
  match t with
  | ID_hex_bignum => "hex_bignum" | ID_dec_bignum => "dec_bignum"
  | ID_oct_bignum => "oct_bignum" | ID_bin_bignum => "bin_bignum"
  | ID_based_bignum => "based_bignum" | ID_bignum => "bignum"
  | ID_neg_bignum => "neg_bignum" | ID_integer => "integer"
  | ID_neg_integer => "neg_integer"
  end%string.

(** A bignum object: the tag and the payload bytes, least significant
    first.  [xg->value(&xs)] is [value xg], with [xs = length (value xg)]. *)
Record bignum : Type := mk_bignum { type : id; value : list Z }.

(** A small integer object: the tag and the magnitude, a [ularge]. *)
Record integer : Type := mk_integer { itype : id; ivalue : Z }.

(** [rt.make<bignum>(ty, buf, sz)]: the first [sz] bytes of [buf]. *)
Definition make_bignum (ty : id) (buf : list Z) (sz : nat) : option bignum :=
  Some {| type := ty; value := firstn sz buf |}.

(** [rt.make<integer>(ty, value)] *)
Definition make_integer (ty : id) (v : Z) : option integer :=
  Some {| itype := ty; ivalue := v |}.

(** Modelled from the spec: [bignum.h] is not part of the sources.  Section 3
    has a bignum hold "little-endian magnitude bytes": [bignum::make(v)]
    builds the non-negative bignum of magnitude [v]. *)
Definition bignum_make (v : Z) : option bignum :=
  Some {| type := ID_bignum; value := le_bytes v |}.

(** Modelled from the spec: [bignum.h] is not part of the sources.  A bignum
    is zero when its magnitude is; on a normalized bignum that is an empty
    payload. *)
Definition is_zero (b : bignum) : bool := forallb (Z.eqb 0) (value b).

(** Modelled from the spec: [bignum.h] is not part of the sources.  Section
    4.5 gives the based numbers the configured word size; the other kinds
    have none, which the code reads as 0. *)
Definition is_based (t : id) : bool :=
  match t with
  | ID_hex_bignum | ID_dec_bignum | ID_oct_bignum | ID_bin_bignum
  | ID_based_bignum => true
  | _ => false
  end.

Definition wordsize_of (Settings : settings) (t : id) : nat :=
  if is_based t then wordsize Settings else 0%nat.

(** The number a bignum stands for: the sign lives in the tag. *)
Definition magnitude (b : bignum) : Z := le_value (value b).

Definition negative (t : id) : bool :=
  match t with ID_neg_bignum | ID_neg_integer => true | _ => false end.

Definition signed_value (b : bignum) : Z :=
  if negative (type b) then - magnitude b else magnitude b.

Definition integer_value (i : integer) : Z :=
  if negative (itype i) then - ivalue i else ivalue i.

(** The kinds of [FLAGS(is_bignum, ...)]. *)
Definition is_bignum (t : id) : bool :=
  match t with
  | ID_integer | ID_neg_integer => false
  | _ => true
  end.

(** The sizes that the code converts to [int], the size of the payload and
    one more, fit an [int]. *)
Definition int_sized (b : bignum) : Prop :=
  Z.of_nat (List.length (value b)) < 2 ^ 31 - 1.

(** A well-formed bignum: a bignum tag, bytes, no leading zero byte, and a
    size that fits an [int]. *)
Definition wf_bignum (b : bignum) : Prop :=
  is_bignum (type b) = true /\ bytes_ok (value b) /\ normalized (value b)
  /\ int_sized b.

(** The same, as a test. *)
Definition bytes_okb (p : list Z) : bool :=
  forallb (fun b => (0 <=? b) && (b <? 2 ^ 8)) p.

Definition wf_bignumb (b : bignum) : bool :=
  is_bignum (type b) && bytes_okb (value b)
  && negb (last (value b) 1 =? 0)
  && (Z.of_nat (List.length (value b)) <? 2 ^ 31 - 1).

(** A negative bignum is not zero: zero has the tag [ID_bignum]. *)
Definition no_negative_zero (b : bignum) : Prop :=
  type b = ID_neg_bignum -> value b <> [].

(** The bits that a number takes. *)
Definition bit_width (v : Z) : Z := if v =? 0 then 0 else Z.log2 v + 1.

(** ** [bignum::as_integer] *)

(** [for (uint i = 0; i < size; i++) value |= ularge(p[i]) << (i * 8);]
    with [n] the iterations left. *)
Fixpoint as_integer_loop (n i : nat) (p : list Z) (v : Z) : Z :=
  match n with
  | O => v
  | S n' =>
      let v := Z.lor v (ularge (Z.shiftl (ularge (nth i p 0))
                                         (Z.of_nat i * 8))) in
      as_integer_loop n' (S i) p v
  end.

Definition as_integer (b : bignum) : option integer :=
  let p := value b in
  let size := length p in
  if (sizeof_ularge <? size)%nat then None
  else
    let v := as_integer_loop size 0 p 0 in
    let ty := if id_eqb (type b) ID_neg_bignum
              then ID_neg_integer else ID_integer in
    make_integer ty v.

(** ** [bignum::compare] *)

(** [for (int i = xs - 1; !result && i >= 0; i--) result = x[i] - y[i];]
    with [n = i + 1]. *)
Fixpoint compare_loop (n : nat) (x y : list Z) : Z :=
  match n with
  | O => 0
  | S i =>
      let result := nth i x 0 - nth i y 0 in
      if result =? 0 then compare_loop i x y else result
  end.

Definition compare (xg yg : bignum) (magnitude : bool) : Z :=
  let xt := type xg in
  let yt := type yg in
  if negb magnitude && id_eqb xt ID_neg_bignum && negb (id_eqb yt ID_neg_bignum)
  then -1
  else if negb magnitude && id_eqb yt ID_neg_bignum
          && negb (id_eqb xt ID_neg_bignum)
  then 1
  else
    let x := value xg in
    let y := value yg in
    let xs := length x in
    let ys := length y in
    let result := int32 (Z.of_nat xs - Z.of_nat ys) in
    let result := if result =? 0 then compare_loop xs x y else result in
    if negb magnitude && id_eqb xt ID_neg_bignum then - result else result.

Section Arithmetic.

(** The global [Settings]. *)
Variable Settings : settings.

(** [bignum::product_type(yt, xt)], declared in [bignum.h], which is not part
    of the sources: the kind of a product or of a quotient. *)
Variable product_type : id -> id -> id.

(** What [x[rs]] reads when [rs] is the size of [x]: the byte that follows
    the payload of [x] in the heap.  [quorem] reads it once the remainder has
    outgrown [x], and then discards the comparison it made with it. *)
Variable stray : Z.

(** ** [bignum::multiply] *)

(** [for (yi = 0; yi < ys && xi + yi < needed; yi++)], [n] bounding the
    iterations left. *)
Fixpoint multiply_add (n : nat) (y : list Z) (bit : Z) (needed xi yi : nat)
                      (c : Z) (buffer : list Z) : nat * Z * list Z :=
  match n with
  | O => (yi, c, buffer)
  | S n' =>
      if (yi <? length y)%nat && (xi + yi <? needed)%nat then
        let c := uint32 (c + (nth (xi + yi) buffer 0
                              + Z.shiftl (nth yi y 0) bit)) in
        let buffer := set (xi + yi) (byte c) buffer in
        let c := Z.shiftr c 8 in
        multiply_add n' y bit needed xi (S yi) c buffer
      else (yi, c, buffer)
  end.

(** [while (c && xi + yi < needed)] *)
Fixpoint multiply_carry (n : nat) (needed xi yi : nat)
                        (c : Z) (buffer : list Z) : list Z :=
  match n with
  | O => buffer
  | S n' =>
      if negb (c =? 0) && (xi + yi <? needed)%nat then
        let c := uint32 (c + nth (xi + yi) buffer 0) in
        let buffer := set (xi + yi) (byte c) buffer in
        let c := Z.shiftr c 8 in
        multiply_carry n' needed xi (S yi) c buffer
      else buffer
  end.

(** [for (int bit = 0; xd && bit < 8; bit++)] *)
Fixpoint multiply_bits (n : nat) (y : list Z) (needed xi : nat)
                       (bit xd : Z) (buffer : list Z) : list Z :=
  match n with
  | O => buffer
  | S n' =>
      if negb (xd =? 0) && (bit <? 8) then
        if negb (Z.land xd (Z.shiftl 1 bit) =? 0) then
          let '(yi, c, buffer) :=
            multiply_add (length y) y bit needed xi 0 0 buffer in
          let buffer := multiply_carry needed needed xi yi c buffer in
          let xd := byte (Z.land xd (Z.lnot (Z.shiftl 1 bit))) in
          multiply_bits n' y needed xi (bit + 1) xd buffer
        else multiply_bits n' y needed xi (bit + 1) xd buffer
      else buffer
  end.

(** [for (size_t xi = 0; xi < xs; xi++)], [n] the iterations left. *)
Fixpoint multiply_bytes (n : nat) (x y : list Z) (needed xi : nat)
                        (buffer : list Z) : list Z :=
  match n with
  | O => buffer
  | S n' =>
      let xd := nth xi x 0 in
      multiply_bytes n' x y needed (S xi)
                     (multiply_bits 8 y needed xi 0 xd buffer)
  end.

Definition multiply (yg xg : bignum) (ty : id) : M (option bignum) :=
  let x := value xg in
  let y := value yg in
  let xs := length x in
  let ys := length y in
  let xt := type xg in
  let wbits := wordsize_of Settings xt in
  let wbytes := ((wbits + 7) / 8)%nat in
  let needed := (xs + ys)%nat in
  if (maxbignum Settings <? needed * 8)%nat then
    _ <- number_too_big_error ;;
    ret None
  else
    let needed :=
      if negb (wbits =? 0)%nat && (wbytes <? needed)%nat
      then wbytes else needed in
    let buffer := repeat 0 needed in
    let buffer := multiply_bytes xs x y needed 0 buffer in
    let sz := strip needed buffer in
    ret (make_bignum ty buffer sz).

(** [operator*] *)
Definition operator_mul (y x : option bignum) : M (option bignum) :=
  match x, y with
  | Some xg, Some yg =>
      let xt := type xg in
      let yt := type yg in
      let prodtype := product_type yt xt in
      multiply yg xg prodtype
  | _, _ => ret None
  end.

(** ** [bignum::quorem] *)

(** The scratchpad buffer of [quorem], in its two parts: [quotient] is its
    first [ys] bytes and [remainder] the [xs + 1] bytes that follow; [rs] and
    [qs] count the bytes in use. *)
Record quorem_state : Type := mk_quorem_state {
  quotient : list Z;
  remainder : list Z;
  rs : nat;
  qs : nat
}.

(** Shift the remainder left by one bit and compare it with [x] on the way:
    [for (uint ri = 0; ri < rs; ri++)], [n] the iterations left. *)
Fixpoint quorem_shift (n : nat) (x : list Z) (ri : nat) (c delta : Z)
                      (remainder : list Z) : Z * Z * list Z :=
  match n with
  | O => (c, delta, remainder)
  | S n' =>
      let c := uint16 (c + Z.shiftl (nth ri remainder 0) 1) in
      let remainder := set ri (byte c) remainder in
      let d := nth ri remainder 0 - nth ri x stray in
      let delta := if d =? 0 then delta else d in
      let c := Z.shiftr c 8 in
      quorem_shift n' x (S ri) c delta remainder
  end.

(** Subtract [x] from the remainder:
    [for (uint ri = 0; ri < rs; ri++)], [n] the iterations left. *)
Fixpoint quorem_sub (n : nat) (x : list Z) (ri : nat) (c : Z)
                    (remainder : list Z) : list Z :=
  match n with
  | O => remainder
  | S n' =>
      let c := uint16 (nth ri remainder 0
                       - (if (ri <? length x)%nat then nth ri x stray else 0)
                       - c) in
      let remainder := set ri (byte c) remainder in
      let c := if 255 <? c then 1 else 0 in
      quorem_sub n' x (S ri) c remainder
  end.

(** The body of the loop on the bits of the numerator. *)
Definition quorem_bit (y x : list Z) (yi : nat) (bit : Z)
                      (st : quorem_state) : quorem_state :=
  let xs := length x in
  let c := uint16 (Z.land (Z.shiftr (nth yi y 0) bit) 1) in
  let delta := 0 in
  let '(c, delta, remainder) :=
    quorem_shift (rs st) x 0 c delta (remainder st) in
  let '(delta, remainder, rs) :=
    if c =? 0 then (delta, remainder, rs st)
    else
      let d := c - nth (rs st) x stray in
      let delta := if d =? 0 then delta else d in
      (delta, set (rs st) (byte c) remainder, S (rs st)) in
  let delta :=
    if (rs =? xs)%nat then delta
    else int32 (int32 (Z.of_nat rs) - int32 (Z.of_nat xs)) in
  if 0 <=? delta then
    let quotient :=
      set yi (byte (Z.lor (nth yi (quotient st) 0) (Z.shiftl 1 bit)))
          (quotient st) in
    let qs := if (qs st <? yi + 1)%nat then (yi + 1)%nat else qs st in
    let remainder := quorem_sub rs x 0 0 remainder in
    let rs := strip rs remainder in
    {| quotient := quotient; remainder := remainder; rs := rs; qs := qs |}
  else
    {| quotient := quotient st; remainder := remainder; rs := rs;
       qs := qs st |}.

(** [for (int bit = 7; bit >= 0; bit--)], with [n = bit + 1]. *)
Fixpoint quorem_bits (n : nat) (y x : list Z) (yi : nat)
                     (st : quorem_state) : quorem_state :=
  match n with
  | O => st
  | S bit => quorem_bits bit y x yi (quorem_bit y x yi (Z.of_nat bit) st)
  end.

(** The body of the loop on the bytes of the numerator: its eight bits. *)
Definition quorem_byte (y x : list Z) (yi : nat)
                       (st : quorem_state) : quorem_state :=
  quorem_bits 8 y x yi st.

(** [for (int yi = ys - 1; yi >= 0; yi--)], with [n = yi + 1]. *)
Fixpoint quorem_bytes (y x : list Z) (st : quorem_state)
                      (n : nat) : quorem_state :=
  match n with
  | O => st
  | S yi => quorem_bytes y x (quorem_byte y x yi st) yi
  end.

(** [quorem(yg, xg, ty, q, r)]: [q] and [r] tell whether the two result
    pointers are given; the result is the returned flag and what [*q] and
    [*r] hold on return, [None] where nothing was stored. *)
Definition quorem (yg xg : bignum) (ty : id) (q r : bool)
  : M (bool * option bignum * option bignum) :=
  if is_zero xg then
    _ <- zero_divide_error ;;
    ret (false, None, None)
  else
    let x := value xg in
    let y := value yg in
    let xs := length x in
    let ys := length y in
    let xt := type xg in
    let wbits := wordsize_of Settings xt in
    let wbytes := ((wbits + 7) / 8)%nat in
    let st := quorem_bytes y x
                {| quotient := repeat 0 ys;
                   remainder := repeat 0 (xs + 1);
                   rs := 0; qs := 0 |} ys in
    let '(ok, qg) :=
      if q then
        let qs := if negb (wbits =? 0)%nat && (wbytes <? qs st)%nat
                  then wbytes else qs st in
        let res := make_bignum ty (quotient st) qs in
        (match res with Some _ => true | None => false end, res)
      else (true, None) in
    let '(ok, rg) :=
      if r && ok then
        let rs := if negb (wbits =? 0)%nat && (wbytes <? rs st)%nat
                  then wbytes else rs st in
        let res := make_bignum ty (remainder st) rs in
        (match res with Some _ => true | None => false end, res)
      else (ok, None) in
    ret (ok, qg, rg).

(** [operator/] *)
Definition operator_div (y x : option bignum) : M (option bignum) :=
  match x, y with
  | Some xg, Some yg =>
      let yt := type yg in
      let xt := type xg in
      let prodtype := product_type yt xt in
      res <- quorem yg xg prodtype true false ;;
      ret (snd (fst res))
  | _, _ => ret None
  end.

(** [operator%] *)
Definition operator_rem (y x : option bignum) : M (option bignum) :=
  match x, y with
  | Some xg, Some yg =>
      let yt := type yg in
      res <- quorem yg xg yt false true ;;
      ret (snd res)
  | _, _ => ret None
  end.

(** ** [bignum::pow] *)

(** [for (uint bit = 0; xv && bit < 8; bit++)] *)
Fixpoint pow_bits (n : nat) (xs xi : nat) (bit xv : Z)
                  (r y : option bignum)
  : M (option bignum * option bignum) :=
  match n with
  | O => ret (r, y)
  | S n' =>
      if negb (xv =? 0) && (bit <? 8) then
        r <- (if negb (Z.land xv 1 =? 0) then operator_mul r y else ret r) ;;
        let xv := Z.shiftr xv 1 in
        y <- (if negb (xv =? 0) || (xi <? xs - 1)%nat
              then operator_mul y y else ret y) ;;
        pow_bits n' xs xi (bit + 1) xv r y
      else ret (r, y)
  end.

(** [for (size_t xi = 0; xi < xs; xi++)], [n] the iterations left. *)
Fixpoint pow_bytes (n : nat) (x : list Z) (xi : nat) (r y : option bignum)
  : M (option bignum * option bignum) :=
  match n with
  | O => ret (r, y)
  | S n' =>
      ry <- pow_bits 8 (length x) xi 0 (nth xi x 0) r y ;;
      pow_bytes n' x (S xi) (fst ry) (snd ry)
  end.

Definition pow (yr xr : option bignum) : M (option bignum) :=
  match xr, yr with
  | Some xg, Some _ =>
      let r := bignum_make 1 in
      let x := value xg in
      let xs := length x in
      ry <- pow_bytes xs x 0 r yr ;;
      ret (fst ry)
  | _, _ => ret None
  end.

End Arithmetic.

(* ========================================================================= *)
(** * The renderer, [renderer.cc]                                            *)
(* ========================================================================= *)

Module Renderer.

(** The state of a [renderer].  [target] is the memory that starts at the
    address of the fixed buffer: its first [length] cells are the buffer, the
    cells after them belong to whatever follows the buffer.  [saving] is the
    content of the file being written.  With neither, the text is built in
    the scratchpad, [scratch]. *)
Record renderer : Type := mk_renderer {
  target : option (list Z);
  saving : option (list Z);
  scratch : list Z;
  length : nat;
  written : nat;
  tabs : nat;
  equation : bool;
  editing : bool;
  stack : bool;
  flat : bool;
  sign : bool;
  space : bool;
  cr : bool;
  nl : bool;
  txt : bool
}.

Definition with_sign (b : bool) (r : renderer) : renderer :=
  mk_renderer (target r) (saving r) (scratch r) (length r) (written r)
              (tabs r) (equation r) (editing r) (stack r) (flat r)
              b (space r) (cr r) (nl r) (txt r).

Definition with_space (b : bool) (r : renderer) : renderer :=
  mk_renderer (target r) (saving r) (scratch r) (length r) (written r)
              (tabs r) (equation r) (editing r) (stack r) (flat r)
              (sign r) b (cr r) (nl r) (txt r).

Definition with_cr (b : bool) (r : renderer) : renderer :=
  mk_renderer (target r) (saving r) (scratch r) (length r) (written r)
              (tabs r) (equation r) (editing r) (stack r) (flat r)
              (sign r) (space r) b (nl r) (txt r).

Definition with_nl (b : bool) (r : renderer) : renderer :=
  mk_renderer (target r) (saving r) (scratch r) (length r) (written r)
              (tabs r) (equation r) (editing r) (stack r) (flat r)
              (sign r) (space r) (cr r) b (txt r).

Definition with_txt (b : bool) (r : renderer) : renderer :=
  mk_renderer (target r) (saving r) (scratch r) (length r) (written r)
              (tabs r) (equation r) (editing r) (stack r) (flat r)
              (sign r) (space r) (cr r) (nl r) b.

Definition with_target (memory : option (list Z)) (r : renderer) : renderer :=
  mk_renderer memory (saving r) (scratch r) (length r) (written r)
              (tabs r) (equation r) (editing r) (stack r) (flat r)
              (sign r) (space r) (cr r) (nl r) (txt r).

Definition with_scratch (bytes : list Z) (r : renderer) : renderer :=
  mk_renderer (target r) (saving r) bytes (length r) (written r)
              (tabs r) (equation r) (editing r) (stack r) (flat r)
              (sign r) (space r) (cr r) (nl r) (txt r).

(** The store of one character, the three ways of [put]:
    [saving->put(c); written++], [target[written++] = c], or one more byte of
    scratchpad. *)
Definition store (c : Z) (r : renderer) : renderer :=
  match saving r, target r with
  | Some file, _ =>
      mk_renderer (target r) (Some (file ++ [c])) (scratch r) (length r)
                  (S (written r)) (tabs r) (equation r) (editing r)
                  (stack r) (flat r) (sign r) (space r) (cr r) (nl r) (txt r)
  | None, Some memory =>
      mk_renderer (Some (set (written r) c memory)) None (scratch r)
                  (length r) (S (written r)) (tabs r) (equation r)
                  (editing r) (stack r) (flat r) (sign r) (space r) (cr r)
                  (nl r) (txt r)
  | None, None =>
      mk_renderer None None (scratch r ++ [c]) (length r) (S (written r))
                  (tabs r) (equation r) (editing r) (stack r) (flat r)
                  (sign r) (space r) (cr r) (nl r) (txt r)
  end.

(** [isspace], in the C locale. *)
Definition isspace (c : Z) : bool :=
  (c =? 32) || ((9 <=? c) && (c <=? 13)).

Definition char_plus : Z := 43.
Definition char_minus : Z := 45.
Definition char_space : Z := 32.
Definition char_newline : Z := 10.
Definition char_tab : Z := 9.
Definition char_quote : Z := 34.

(** [for (uint i = 0; i < tabs; i++) if (!put('\t')) return false;] with
    [n] the iterations left, [put] standing for the function itself. *)
Fixpoint put_tabs (put : Z -> renderer -> bool * renderer) (n : nat)
                  (r : renderer) : bool * renderer :=
  match n with
  | O => (true, r)
  | S n' =>
      let '(ok, r) := put char_tab r in
      if ok then put_tabs put n' r else (false, r)
  end.

(** The body of [renderer::put(char c)].  The function calls itself for the
    pending sign, the pending newline and the tabs that follow a newline:
    [put] stands for these calls. *)
Definition put_body (put : Z -> renderer -> bool * renderer)
                    (c : Z) (r : renderer) : bool * renderer :=
  let r :=
    if sign r then
      let r := with_sign false r in
      if negb (c =? char_minus) && negb (c =? char_plus)
      then snd (put char_plus r) else r
    else r in
  if (length r <=? written r)%nat then (false, r)
  else
    (* Render flat for stack display: collect all spaces in one *)
    let flat_step :=
      if flat r then
        if isspace c then
          if space r || cr r then (true, c, r)
          else (false, char_space, with_space true r)
        else (false, c, with_space false r)
      else (false, c, r) in
    let '(done, c, r) := flat_step in
    if done then (true, r)
    else if (c =? char_space) && (cr r || nl r)
    then (true, with_cr false r)
    else
      let '(ok, r) :=
        if negb (isspace c) && nl r
        then put char_newline (with_nl false r)
        else (true, r) in
      if negb ok then (false, r)
      else
        let r := store c r in
        let '(ok, r) :=
          if c =? char_newline then
            let r := with_nl false r in
            let '(ok, r) :=
              if negb (txt r) then put_tabs put (tabs r) r
              else (true, r) in
            if ok then (true, with_cr true r) else (false, r)
          else if negb (isspace c) then (true, with_cr false r)
          else (true, r) in
        if negb ok then (false, r)
        else
          let r := if c =? char_quote
                   then with_txt (negb (txt r)) r else r in
          (true, r).

(** [renderer::put(char c)], [fuel] bounding the depth of the calls of the
    function to itself. *)
Fixpoint put_fuel (fuel : nat) (c : Z) (r : renderer) : bool * renderer :=
  match fuel with
  | O => (false, r)
  | S fuel' => put_body (put_fuel fuel') c r
  end.

(** The calls nest four deep at most: a character, its pending sign, the
    pending newline and a tab. *)
Definition put (c : Z) (r : renderer) : bool * renderer := put_fuel 4 c r.

End Renderer.

(* ========================================================================= *)
(** * Rendering bignums, [render_num] in [bignum.cc]                         *)
(* ========================================================================= *)

(** Modelled from the spec: [utf8.h] is not part of the sources.  Section 3
    has text as "raw UTF-8" and section 4.4 has the sink accept "bytes and
    Unicode code points": a code point is written as its UTF-8 bytes. *)
Definition utf8_encode (cp : Z) : list Z :=
  if cp <? 128 then [cp]
  else if cp <? 2048 then
    [Z.lor (Z.shiftr cp 6) 192; Z.lor (Z.land cp 63) 128]
  else if cp <? 65536 then
    [Z.lor (Z.shiftr cp 12) 224;
     Z.lor (Z.land (Z.shiftr cp 6) 63) 128;
     Z.lor (Z.land cp 63) 128]
  else
    [Z.lor (Z.shiftr cp 18) 240;
     Z.lor (Z.land (Z.shiftr cp 12) 63) 128;
     Z.lor (Z.land (Z.shiftr cp 6) 63) 128;
     Z.lor (Z.land cp 63) 128].

(** A byte that continues a UTF-8 sequence. *)
Definition utf8_continuation (b : Z) : bool := (128 <=? b) && (b <? 192).

(** The code-point units of a UTF-8 text: a leading byte with the
    continuation bytes that follow it. *)
Fixpoint utf8_units (p : list Z) : list (list Z) :=
  match p with
  | [] => []
  | b :: p' =>
      match utf8_units p' with
      | (c :: u) :: us =>
          if utf8_continuation c then (b :: c :: u) :: us
          else [b] :: (c :: u) :: us
      | us => [b] :: us
      end
  end.

(** Modelled from the spec: [utf8.h] is not part of the sources.  Section
    4.4 has the substring "reversed in place", with "reversal by code-point
    unit when separators are multibyte": with [multibyte] the units are
    reversed and each keeps its byte order, without it the bytes are
    reversed. *)
Definition utf8_reverse (p : list Z) (multibyte : bool) : list Z :=
  if multibyte then concat (rev (utf8_units p)) else rev p.

Module Render.

(** [renderer::text] *)
Definition text (r : Renderer.renderer) : option (list Z) :=
  match Renderer.target r, Renderer.saving r with
  | Some memory, _ => Some memory
  | None, Some _ => None
  | None, None => Some (Renderer.scratch r)
  end.

(** Modelled from the spec: [renderer.h] is not part of the sources.  The
    size of a renderer is the count of what it wrote, and it saves to a file
    when it has one. *)
Definition size (r : Renderer.renderer) : nat := Renderer.written r.

Definition file_save (r : Renderer.renderer) : bool :=
  match Renderer.saving r with Some _ => true | None => false end.

(** Modelled from the spec: [renderer.h] is not part of the sources.
    [put(unicode)] writes the UTF-8 bytes of the code point, and
    [put(text, len)] the [len] first bytes of [text], one [put(char)]
    each. *)
Fixpoint put_bytes (p : list Z) (r : Renderer.renderer)
  : bool * Renderer.renderer :=
  match p with
  | [] => (true, r)
  | c :: p' =>
      let '(ok, r) := Renderer.put c r in
      if ok then put_bytes p' r else (false, r)
  end.

Definition put_unicode (cp : Z) (r : Renderer.renderer)
  : bool * Renderer.renderer :=
  put_bytes (utf8_encode cp) r.

(** [utf8_reverse(dest + findex, dest + r.size(), multibyte)] on the text of
    the renderer. *)
Definition reverse_in (findex last : nat) (multibyte : bool)
                      (dest : list Z) : list Z :=
  firstn findex dest
  ++ utf8_reverse (firstn (last - findex) (skipn findex dest)) multibyte
  ++ skipn last dest.

Definition reverse_text (findex : nat) (multibyte : bool)
                        (r : Renderer.renderer) : Renderer.renderer :=
  match Renderer.target r, Renderer.saving r with
  | Some memory, _ =>
      Renderer.with_target
        (Some (reverse_in findex (size r) multibyte memory)) r
  | None, Some _ => r
  | None, None =>
      Renderer.with_scratch
        (reverse_in findex (size r) multibyte (Renderer.scratch r)) r
  end.

(** [L'₀'] to [L'₉'] *)
Definition fancy_base_digits : list Z :=
  [8320; 8321; 8322; 8323; 8324; 8325; 8326; 8327; 8328; 8329].

Section RenderNum.

Variable Settings : settings.
Variable stray : Z.

(** [renderer::flush] and the constructor of a renderer on the scratchpad,
    [renderer(equation, editing, stack)], both declared in [renderer.h],
    which is not part of the sources. *)
Variable flush : Renderer.renderer -> Renderer.renderer.
Variable scratch_renderer : bool -> bool -> bool -> Renderer.renderer.

(** The loop that divides by the base until the quotient is zero,
    [do { ... } while (!n->is_zero())], [fuel] bounding its iterations. *)
Fixpoint render_digits (fuel : nat) (base : Z) (b : bignum)
                       (spacing spc sep : Z) (n : bignum)
                       (r : Renderer.renderer)
  : M Renderer.renderer :=
  match fuel with
  | O => ret r
  | S fuel' =>
      res <- quorem Settings stray n b ID_bignum true true ;;
      match res with
      | (true, Some _, Some remainder) =>
          let digit := uint32 (le_value (value remainder)) in
          (* a digit above the base is reported and the division repeated *)
          res <- (if base <? digit
                  then quorem Settings stray n b ID_bignum true true
                  else ret res) ;;
          match res with
          | (_, Some quotient, Some _) =>
              let c := byte (if digit <? 10 then digit + 48
                             else digit + (65 - 10)) in
              let r := snd (Renderer.put c r) in
              let n := quotient in
              let '(sep, r) :=
                if negb (is_zero n) then
                  let sep := uint32 (sep + 1) in
                  if sep =? spacing then (0, snd (put_unicode spc r))
                  else (sep, r)
                else (sep, r) in
              if negb (is_zero n)
              then render_digits fuel' base b spacing spc sep n r
              else ret r
          | _ => ret r
          end
      | _ => ret r
      end
  end.

(** [render_num] on a renderer that does not save to a file. *)
Definition render_num_text (r : Renderer.renderer) (num : bignum) (base : Z)
                           (fmt : list Z) (raw : bool)
  : M (nat * Renderer.renderer) :=
  let based := match fmt with c :: _ => c =? 35 | [] => false end in
  let fancy_base := based && Renderer.stack r in
  let spacing :=
    if based then spacing_based Settings else spacing_mantissa Settings in
  let spc := if based then space_based Settings else space Settings in
  let fancy_base := if raw then false else fancy_base in
  let spacing := if raw then 0 else spacing in
  let spc := if raw then 0 else spc in
  (* Copy the '#' or '-' sign *)
  let '(r, fmt) :=
    match fmt with
    | c :: fmt' => (snd (Renderer.put c r), fmt')
    | [] => (flush r, [])
    end in
  let findex := size r in
  let b := {| type := ID_bignum; value := le_bytes base |} in
  let n := num in
  r <- render_digits (8 * List.length (value n) + 1) base b
                     spacing spc 0 n r ;;
  (* Revert the digits *)
  let multibyte := negb (spacing =? 0) && (255 <? spc) in
  let r := reverse_text findex multibyte r in
  (* Add suffix if there is one *)
  let r :=
    if fancy_base then
      let r := if negb (base / 10 =? 0)
               then snd (put_unicode
                           (nth (Z.to_nat (base / 10)) fancy_base_digits 0) r)
               else r in
      snd (put_unicode (nth (Z.to_nat (base mod 10)) fancy_base_digits 0) r)
    else
      match fmt with
      | c :: _ => snd (Renderer.put c r)
      | [] => r
      end in
  ret (size r, r).

(** [render_num]: to a file, the number is first rendered in the scratchpad,
    without spacing, and then written. *)
Definition render_num (r : Renderer.renderer) (num : bignum) (base : Z)
                      (fmt : list Z) (raw : bool)
  : M (nat * Renderer.renderer) :=
  if file_save r then
    let tmp := scratch_renderer (Renderer.equation r) (Renderer.editing r)
                                (Renderer.stack r) in
    res <- render_num_text tmp num base fmt true ;;
    let result := fst res in
    let tmp := snd res in
    let r :=
      match text tmp with
      | Some bytes => snd (put_bytes (firstn result bytes) r)
      | None => r
      end in
    ret (result, r)
  else render_num_text r num base fmt raw.

(** [RENDER_BODY(bignum)] *)
Definition render_bignum (r : Renderer.renderer) (o : bignum)
  : M (nat * Renderer.renderer) :=
  render_num r o 10 [] false.

End RenderNum.

End Render.

(* ========================================================================= *)
(** * Invariants of the arithmetic loops                                     *)
(* ========================================================================= *)

(** The width [multiply] computes in: the bytes of the two operands, cut to
    the bytes of the word size when there is one. *)
Definition multiply_width (Settings : settings) (xg yg : bignum) : nat :=
  let wbits := wordsize_of Settings (type xg) in
  let wbytes := ((wbits + 7) / 8)%nat in
  let needed := (List.length (value xg) + List.length (value yg))%nat in
  if negb (wbits =? 0)%nat && (wbytes <? needed)%nat then wbytes else needed.

(** What the word size leaves of a result of [quorem]: with a word size of
    [W] bits, the bytes of the result beyond the [(W + 7) / 8] first ones are
    dropped. *)
Definition quorem_cut (Settings : settings) (xg : bignum) (v : Z) : Z :=
  let wbits := wordsize_of Settings (type xg) in
  if (wbits =? 0)%nat then v else v mod radix ((wbits + 7) / 8).

(** The invariant of the remainder of [quorem], with [x] the divisor: the
    buffer has one byte more than [x], and its [rs] first bytes are a
    normalized number below [x]. *)
Definition remainder_ok (x R : list Z) (rs : nat) : Prop :=
  List.length R = S (List.length x) /\ bytes_ok R
  /\ (rs <= List.length x)%nat
  /\ normalized (firstn rs R)
  /\ le_value (firstn rs R) < le_value x.

(** The invariant of the size of the quotient: the bytes from [qs] on are
    zero, and the byte before is not. *)
Definition quotient_ok (Q : list Z) (qs : nat) : Prop :=
  (qs <= List.length Q)%nat
  /\ (forall j : nat, (qs <= j)%nat -> nth j Q 0 = 0)
  /\ (qs <> 0%nat -> nth (qs - 1) Q 0 <> 0).

(** The state of the loop on the bits of byte [yi] of the numerator [y],
    when [n] bits are left: [Q0] is the quotient and [r0] the remainder on
    entering the byte; what was divided so far is [r0] followed by the bits
    of the byte above the [n] left. *)
Definition bits_ok (y x : list Z) (yi : nat) (Q0 : list Z) (r0 : Z)
                   (n : nat) (st : quorem_state) : Prop :=
  remainder_ok x (remainder st) (rs st)
  /\ quotient_ok (quotient st) (qs st)
  /\ exists h : Z,
      0 <= h /\ h * 2 ^ Z.of_nat n < 256
      /\ quotient st = set yi (h * 2 ^ Z.of_nat n) Q0
      /\ r0 * 2 ^ (8 - Z.of_nat n) + nth yi y 0 / 2 ^ Z.of_nat n
         = h * le_value x + le_value (firstn (rs st) (remainder st)).

(** The state of the loop on the bytes of the numerator, when [n] bytes are
    left: the bytes above them, divided by [x], give the bytes of the
    quotient above and the remainder. *)
Definition bytes_done (y x : list Z) (n : nat) (st : quorem_state) : Prop :=
  remainder_ok x (remainder st) (rs st)
  /\ quotient_ok (quotient st) (qs st)
  /\ List.length (quotient st) = List.length y
  /\ bytes_ok (quotient st)
  /\ (forall j : nat, (j < n)%nat -> nth j (quotient st) 0 = 0)
  /\ le_value (skipn n y)
     = le_value (skipn n (quotient st)) * le_value x
       + le_value (firstn (rs st) (remainder st)).

(** Facts on the bits of a byte, to be checked on the 256 bytes.  What
    [xd & (1 << bit)] and [xd &= ~(1 << bit)] do to a byte of which the bits
    below [bit] are clear. *)
Definition clear_bit_check (bit xd : Z) : bool :=
  if negb (xd mod 2 ^ bit =? 0) then true
  else if negb (Z.land xd (Z.shiftl 1 bit) =? 0) then
    (byte (Z.land xd (Z.lnot (Z.shiftl 1 bit))) =? xd - 2 ^ bit)
    && ((xd - 2 ^ bit) mod 2 ^ (bit + 1) =? 0)
    && (2 ^ bit <=? xd)
  else xd mod 2 ^ (bit + 1) =? 0.

(** What [(y[yi] >> bit) & 1] is. *)
Definition numerator_bit_check (bit yb : Z) : bool :=
  let c := uint16 (Z.land (Z.shiftr yb bit) 1) in
  (c =? (yb / 2 ^ bit) mod 2) && (0 <=? c) && (c <=? 1).

(** What [quotient[yi] |= (1 << bit)] does to a byte of which the bits up to
    [bit] are clear. *)
Definition set_bit_check (bit qb : Z) : bool :=
  if negb (qb mod 2 ^ (bit + 1) =? 0) then true
  else (byte (Z.lor qb (Z.shiftl 1 bit)) =? qb + 2 ^ bit)
       && (qb + 2 ^ bit <? 256).

(* ========================================================================= *)
(** * Data of the examples                                                   *)
(* ========================================================================= *)

(** Settings with a word size of 64 bits, bignums of 1024 bits at most and a
    thin space every three digits. *)
Definition example_settings : settings :=
  {| wordsize := 64; maxbignum := 1024;
     spacing_mantissa := 3; space := 8201;
     spacing_based := 4; space_based := 8201 |}.

(** The same with a word size of [w] bits. *)
Definition settings_with_wordsize (w : nat) : settings :=
  {| wordsize := w; maxbignum := 1024;
     spacing_mantissa := 3; space := 8201;
     spacing_based := 4; space_based := 8201 |}.

(** The same with the separator [spc]. *)
Definition settings_with_space (spc : Z) : settings :=
  {| wordsize := 64; maxbignum := 1024;
     spacing_mantissa := 3; space := spc;
     spacing_based := 4; space_based := spc |}.

(** A runtime without error. *)
Definition no_error : runtime := {| Error := None |}.

(** A product type that gives signed operands the product of their signs
    and keeps the kind of [x] otherwise. *)
Definition example_product_type (yt xt : id) : id :=
  match xt with
  | ID_bignum => if negative yt then ID_neg_bignum else ID_bignum
  | ID_neg_bignum => if negative yt then ID_bignum else ID_neg_bignum
  | _ => xt
  end.

(** The bignum of kind [ty] and magnitude [v]. *)
Definition big (ty : id) (v : Z) : bignum :=
  {| type := ty; value := le_bytes v |}.

(** A renderer on a buffer of one byte, at the start of four bytes of
    memory, with nothing written and a newline pending. *)
Definition one_byte_buffer : Renderer.renderer :=
  Renderer.mk_renderer (Some [0; 0; 0; 0]) None [] 1 0 0
                       false false false false false false false true false.

(** An empty renderer on the scratchpad, with room for 100 bytes. *)
Definition scratchpad : Renderer.renderer :=
  Renderer.mk_renderer None None [] 100 0 0
                       false false false false false false false false false.

(** A renderer that has no sign and no newline pending and has written
    within its [length]. *)
Definition put_ready (r : Renderer.renderer) : Prop :=
  Renderer.sign r = false /\ Renderer.nl r = false
  /\ (Renderer.written r <= Renderer.length r)%nat.

(** What [put] keeps from a renderer [r] to the renderer [r'] it leaves:
    the [length], no sign and no newline pending, [written] no smaller and
    within [length], and the memory after the buffer. *)
Definition put_keeps (r r' : Renderer.renderer) : Prop :=
  Renderer.length r' = Renderer.length r
  /\ Renderer.sign r' = false /\ Renderer.nl r' = false
  /\ (Renderer.written r <= Renderer.written r' <= Renderer.length r)%nat
  /\ option_map (skipn (Renderer.length r)) (Renderer.target r')
     = option_map (skipn (Renderer.length r)) (Renderer.target r).

(* ========================================================================= *)
(** * More of [bignum.cc]                                                    *)
(* ========================================================================= *)

(** ** The constructor of a bignum from a small integer *)

(** The loop of [bignum::bignum(id type, integer_g value)], which reads the
    LEB128 payload [q] of the integer, seven bits a byte, and writes the
    bytes of the bignum: [c] holds the bits that are not written yet and
    [bits] counts them.  The result is what [*p++ = byte(c)] wrote, in order,
    and the last [c].  The loop ends after the first byte without the bit
    [0x80]; a payload without such a byte is read to its end. *)
Fixpoint bignum_bytes_loop (q : list Z) (c bits : Z) (out : list Z)
  : list Z * Z :=
  match q with
  | [] => (out, c)
  | b :: q' =>
      let more := negb (Z.land b 128 =? 0) in
      let c := uint32 (Z.lor c (uint32 (Z.shiftl (Z.land b 127) bits))) in
      let bits := bits + 7 in
      let '(out, c, bits) :=
        if 8 <=? bits
        then (out ++ [byte c], Z.shiftr c 8, bits - 8)
        else (out, c, bits) in
      if more then bignum_bytes_loop q' c bits out else (out, c)
  end.

(** The bytes that the constructor writes: those of the loop, and
    [if (c) *p++ = byte(c);]. *)
Definition bignum_bytes (q : list Z) : list Z :=
  let '(out, c) := bignum_bytes_loop q 0 0 [] in
  if c =? 0 then out else out ++ [byte c].

(** The number that a LEB128 payload stands for: seven bits a byte, least
    significant first, up to the first byte without the bit [0x80]. *)
Fixpoint leb128_value (q : list Z) : Z :=
  match q with
  | [] => 0
  | b :: q' =>
      Z.land b 127
      + (if Z.land b 128 =? 0 then 0 else 2 ^ 7 * leb128_value q')
  end.

(** A LEB128 payload: bytes, all with the bit [0x80] but the last. *)
Fixpoint leb128_ok (q : list Z) : bool :=
  match q with
  | [] => false
  | [b] => (0 <=? b) && (b <? 128)
  | b :: q' => (128 <=? b) && (b <? 256) && leb128_ok q'
  end.

(** A payload without padding: the last byte is not zero, unless it is the
    only one, which is the payload of the integer zero. *)
Definition leb128_minimal (q : list Z) : bool :=
  match q with
  | [_] => true
  | _ => negb (last q 0 =? 0)
  end.

(** ** Operations with carry *)

Definition add_op (x y c : Z) : Z :=
  uint16 (x + y + (if c =? 0 then 0 else 1)).
Definition sub_op (x y c : Z) : Z :=
  uint16 (x - y - (if c =? 0 then 0 else 1)).
Definition neg_op (x c : Z) : Z :=
  uint16 (- x - (if c =? 0 then 0 else 1)).

(** [bignum::opposite_type] *)
Definition opposite_type (type : id) : id :=
  match type with
  | ID_bignum => ID_neg_bignum
  | ID_neg_bignum => ID_bignum
  | _ => type
  end.

Section Additive.

(** [bignum::unary<extend>(op, x)] and [bignum::binary<extend>(op, y, x,
    ty)], templates of [bignum.h], which is not part of the sources. *)
Variable unary : bool -> (Z -> Z -> Z) -> bignum -> M (option bignum).
Variable binary :
  bool -> (Z -> Z -> Z -> Z) -> bignum -> bignum -> id -> M (option bignum).

(** [operator-(bignum_r xg)] *)
Definition operator_neg (xg : bignum) : M (option bignum) :=
  let xt := type xg in
  let x := value xg in
  let xs := List.length x in
  (* Deal with simple case where we can simply copy the payload *)
  if id_eqb xt ID_bignum then ret (make_bignum ID_neg_bignum x xs)
  else if id_eqb xt ID_neg_bignum then ret (make_bignum ID_bignum x xs)
  else unary true neg_op xg.

(** [bignum::add_sub] *)
Definition add_sub (yg xg : option bignum) (issub : bool)
  : M (option bignum) :=
  match xg, yg with
  | Some xg, Some yg =>
      let yt := type yg in
      let xt := type xg in
      (* Check if we have opposite signs *)
      let samesgn :=
        Bool.eqb (id_eqb xt ID_neg_bignum) (id_eqb yt ID_neg_bignum) in
      if Bool.eqb samesgn issub then
        let cmp := compare yg xg true in
        if 0 <=? cmp then
          let ty := if cmp =? 0 then ID_bignum
                    else if issub then xt else opposite_type xt in
          binary false sub_op yg xg ty
        else
          let ty := if issub then opposite_type xt else xt in
          binary false sub_op xg yg ty
      else
        let ty := if issub then opposite_type xt else xt in
        binary false add_op yg xg ty
  | _, _ => ret None
  end.

(** [operator+] and the binary [operator-] *)
Definition operator_add (y x : option bignum) : M (option bignum) :=
  add_sub y x false.

Definition operator_sub (y x : option bignum) : M (option bignum) :=
  add_sub y x true.

End Additive.

(** ** The other [RENDER_BODY] of [bignum.cc] *)

Section RenderBodies.

Variable Settings : settings.
Variable stray : Z.
Variable flush : Renderer.renderer -> Renderer.renderer.
Variable scratch_renderer : bool -> bool -> bool -> Renderer.renderer.

(** [RENDER_BODY(neg_bignum)]: [render_num(r, o, 10, "-")] *)
Definition render_neg_bignum (r : Renderer.renderer) (o : bignum)
  : M (nat * Renderer.renderer) :=
  Render.render_num Settings stray flush scratch_renderer r o 10 [45] false.

(** [RENDER_BODY(hex_bignum)]: [render_num(r, o, 16, "#h")] *)
Definition render_hex_bignum (r : Renderer.renderer) (o : bignum)
  : M (nat * Renderer.renderer) :=
  Render.render_num Settings stray flush scratch_renderer r o 16 [35; 104]
                    false.

(** [RENDER_BODY(dec_bignum)]: [render_num(r, o, 10, "#d")] *)
Definition render_dec_bignum (r : Renderer.renderer) (o : bignum)
  : M (nat * Renderer.renderer) :=
  Render.render_num Settings stray flush scratch_renderer r o 10 [35; 100]
                    false.

(** [RENDER_BODY(oct_bignum)]: [render_num(r, o, 8, "#o")] *)
Definition render_oct_bignum (r : Renderer.renderer) (o : bignum)
  : M (nat * Renderer.renderer) :=
  Render.render_num Settings stray flush scratch_renderer r o 8 [35; 111]
                    false.

(** [RENDER_BODY(bin_bignum)]: [render_num(r, o, 2, "#b")] *)
Definition render_bin_bignum (r : Renderer.renderer) (o : bignum)
  : M (nat * Renderer.renderer) :=
  Render.render_num Settings stray flush scratch_renderer r o 2 [35; 98]
                    false.

(** [RENDER_BODY(big_fraction)], on the numerator [n] and the denominator
    [d] of the fraction, which [o->numerator()] and [o->denominator()] of
    [fraction.h] give. *)
Definition render_big_fraction (r : Renderer.renderer) (n d : bignum)
  : M (nat * Renderer.renderer) :=
  res <- Render.render_num Settings stray flush scratch_renderer r n 10 []
                           false ;;
  let r := snd (Renderer.put 47 (snd res)) in
  res <- Render.render_num Settings stray flush scratch_renderer r d 10 []
                           false ;;
  ret (Render.size (snd res), snd res).

(** [RENDER_BODY(neg_big_fraction)] *)
Definition render_neg_big_fraction (r : Renderer.renderer) (n d : bignum)
  : M (nat * Renderer.renderer) :=
  res <- Render.render_num Settings stray flush scratch_renderer r n 10
                           [45; 47] false ;;
  res <- Render.render_num Settings stray flush scratch_renderer (snd res)
                           d 10 [] false ;;
  ret (Render.size (snd res), snd res).

End RenderBodies.

(** ** Digits *)

(** The character of a digit, [(digit < 10) ? digit + '0' : digit + ('A' -
    10)]. *)
Definition digit_char (d : Z) : Z := if d <? 10 then d + 48 else d + 55.

(** The digits of [n] in base [b], least significant first: one digit at
    least. *)
Fixpoint digits_fuel (fuel : nat) (b n : Z) : list Z :=
  match fuel with
  | O => []
  | S fuel' =>
      n mod b :: (if n / b =? 0 then [] else digits_fuel fuel' b (n / b))
  end.

Definition digits (b n : Z) : list Z :=
  digits_fuel (S (Z.to_nat (Z.log2 n))) b n.

(** The number that digits in base [b] stand for, least significant
    first. *)
Fixpoint digits_value (b : Z) (ds : list Z) : Z :=
  match ds with
  | [] => 0
  | d :: ds' => d + b * digits_value b ds'
  end.

(** The characters [cs] with the separator [sep] after every [spacing] of
    them that another one follows, [k] of them being counted already. *)
Fixpoint group (spacing : nat) (sep : Z) (k : nat) (cs : list Z) : list Z :=
  match cs with
  | [] => []
  | c :: cs' =>
      c :: match cs' with
           | [] => []
           | _ => if (S k =? spacing)%nat
                  then sep :: group spacing sep 0 cs'
                  else group spacing sep (S k) cs'
           end
  end.

(** The text of [n] in base [b], most significant digit first, the digits in
    groups of [spacing] from the right. *)
Definition number_text (b : Z) (spacing : nat) (sep : Z) (n : Z) : list Z :=
  rev (group spacing sep 0 (map digit_char (digits b n))).

(** A renderer that writes to the scratchpad, with nothing pending, and of
    which [written] counts the bytes of the scratchpad. *)
Definition plain (r : Renderer.renderer) : Prop :=
  Renderer.target r = None /\ Renderer.saving r = None
  /\ Renderer.sign r = false /\ Renderer.flat r = false
  /\ Renderer.nl r = false
  /\ Renderer.written r = List.length (Renderer.scratch r).

(** The renderer [r] after it took the bytes [out], the last of them not a
    space. *)
Definition appended (out : list Z) (r : Renderer.renderer)
  : Renderer.renderer :=
  Renderer.mk_renderer
    (Renderer.target r) (Renderer.saving r) (Renderer.scratch r ++ out)
    (Renderer.length r) (Renderer.written r + List.length out)
    (Renderer.tabs r) (Renderer.equation r) (Renderer.editing r)
    (Renderer.stack r) (Renderer.flat r) (Renderer.sign r)
    (Renderer.space r) false (Renderer.nl r) (Renderer.txt r).

(* ========================================================================= *)
(** * [renderer::printf]                                                     *)
(* ========================================================================= *)

(** What [vsnprintf(buf, n, format, va)] of the C library stores at [buf],
    for a format and arguments that expand to the text [s]: at most [n - 1]
    bytes of [s] and a NUL, and nothing when [n] is 0.  It returns the length
    of [s]. *)
Definition vsnprintf (n : nat) (s : list Z) : list Z :=
  match n with
  | O => []
  | S m => firstn m s ++ [0]
  end.

(** The memory with [bytes] stored from the index [pos] on. *)
Fixpoint blit (pos : nat) (bytes memory : list Z) : list Z :=
  match bytes with
  | [] => memory
  | b :: bytes' => blit (S pos) bytes' (set pos b memory)
  end.

(** [renderer::printf], for a format and arguments that expand to the text
    [s].  [stack] is the memory that starts at the local [buf] of the branch
    that saves to a file: its 80 bytes, and what follows them.  The
    subtraction [length - written] wraps around when [written] is the
    larger, to a number that is above the size of [buf]. *)
Definition printf (stack : list Z) (s : list Z) (r : Renderer.renderer)
  : nat * Renderer.renderer :=
  let size := List.length s in
  match Renderer.saving r, Renderer.target r with
  | Some file, _ =>
      let remaining :=
        if (Renderer.length r <? Renderer.written r)%nat then 80%nat
        else Nat.min (Renderer.length r - Renderer.written r) 80 in
      let buf := blit 0 (vsnprintf remaining s) stack in
      if (0 <? size)%nat then
        (size,
         Renderer.mk_renderer
           (Renderer.target r) (Some (file ++ firstn size buf))
           (Renderer.scratch r) (Renderer.length r)
           (Renderer.written r + size)
           (Renderer.tabs r) (Renderer.equation r) (Renderer.editing r)
           (Renderer.stack r) (Renderer.flat r) (Renderer.sign r)
           (Renderer.space r) (Renderer.cr r) (Renderer.nl r)
           (Renderer.txt r))
      else (size, r)
  | None, Some memory =>
      (* Fixed target: write directly there *)
      if (Renderer.length r <=? Renderer.written r)%nat then (0%nat, r)
      else
        let remaining := (Renderer.length r - Renderer.written r)%nat in
        let memory :=
          blit (Renderer.written r) (vsnprintf remaining s) memory in
        (size,
         Renderer.mk_renderer
           (Some memory) None
           (Renderer.scratch r) (Renderer.length r)
           (Renderer.written r + size)
           (Renderer.tabs r) (Renderer.equation r) (Renderer.editing r)
           (Renderer.stack r) (Renderer.flat r) (Renderer.sign r)
           (Renderer.space r) (Renderer.cr r) (Renderer.nl r)
           (Renderer.txt r))
  | None, None =>
      (* Write in the scratchpad *)
      let buf := vsnprintf 32 s in
      let bytes :=
        if (size <? 32)%nat then firstn size buf   (* memcpy(p, buf, size) *)
        else vsnprintf size s in
      (size,
       Renderer.mk_renderer
         None None
         (Renderer.scratch r ++ bytes) (Renderer.length r)
         (Renderer.written r + size)
         (Renderer.tabs r) (Renderer.equation r) (Renderer.editing r)
         (Renderer.stack r) (Renderer.flat r) (Renderer.sign r)
         (Renderer.space r) (Renderer.cr r) (Renderer.nl r)
         (Renderer.txt r))
  end.

(* ========================================================================= *)
(** * Checks on the ranges of the table                                      *)
(* ========================================================================= *)

(** The tags of a declared pair. *)
Definition pair_tags (cfg : bool) (p : string * string)
  : option (nat * nat) :=
  match Ids.tag cfg (fst p), Ids.tag cfg (snd p) with
  | Some first, Some last => Some (first, last)
  | _, _ => None
  end.

(** Every pair of [small] lies within a pair of [large]. *)
Definition ranges_within (cfg : bool)
                         (small large : list (string * string)) : bool :=
  forallb
    (fun p =>
       existsb
         (fun P =>
            match pair_tags cfg p, pair_tags cfg P with
            | Some (f, l), Some (F, L) => (F <=? f)%nat && (l <=? L)%nat
            | _, _ => false
            end) large) small.

(** No pair of [a] meets a pair of [b]. *)
Definition ranges_apart (cfg : bool) (a b : list (string * string)) : bool :=
  forallb
    (fun p =>
       forallb
         (fun P =>
            match pair_tags cfg p, pair_tags cfg P with
            | Some (f, l), Some (F, L) => (l <? F)%nat || (L <? f)%nat
            | _, _ => false
            end) b) a.

(* ========================================================================= *)
(** * Powers                                                                 *)
(* ========================================================================= *)

(** The kinds [bignum] and [neg_bignum]. *)
Definition signed_kind (t : id) : bool := is_bignum t && negb (is_based t).

(** A signed bignum that is the power [a] of a number of magnitude [m],
    negative when [neg] is set. *)
Definition power_of (m : Z) (neg : bool) (a : Z) (R : bignum) : Prop :=
  bytes_ok (value R) /\ normalized (value R) /\ signed_kind (type R) = true
  /\ magnitude R = m ^ a /\ negative (type R) = neg && Z.odd a.

(** A product type that keeps signed bignums signed, with the product of
    their signs. *)
Definition signed_product_type (product_type : id -> id -> id) : Prop :=
  forall a b : id,
    signed_kind a = true -> signed_kind b = true ->
    signed_kind (product_type a b) = true
    /\ negative (product_type a b) = xorb (negative a) (negative b).

(* ========================================================================= *)
(** * Byte buffers and the numbers they stand for                            *)
(* ========================================================================= *)

Section Buffers.

Lemma radix_pos (n : nat) : 0 < radix n.
Proof. unfold radix. apply Z.pow_pos_nonneg; lia. Qed.

Lemma radix_0 : radix 0 = 1.
Proof. reflexivity. Qed.

Lemma radix_S (n : nat) : radix (S n) = 256 * radix n.
Proof.
  unfold radix. rewrite Nat2Z.inj_succ.
  replace (8 * Z.succ (Z.of_nat n)) with (8 + 8 * Z.of_nat n) by lia.
  rewrite Z.pow_add_r by lia. reflexivity.
Qed.

Lemma le_value_cons (b : Z) (p : list Z) :
  le_value (b :: p) = b + 256 * le_value p.
Proof. reflexivity. Qed.

Lemma radix_add (n m : nat) : radix (n + m) = radix n * radix m.
Proof.
  unfold radix. rewrite Nat2Z.inj_add, Z.mul_add_distr_l, Z.pow_add_r by lia.
  reflexivity.
Qed.

Lemma radix_le (n m : nat) : (n <= m)%nat -> radix n <= radix m.
Proof. intros H. unfold radix. apply Z.pow_le_mono_r; lia. Qed.

Lemma radix_divide (n m : nat) : (n <= m)%nat -> (radix n | radix m).
Proof.
  intros H. exists (radix (m - n)).
  rewrite <- radix_add. f_equal. lia.
Qed.

Lemma is_byte_byte (z : Z) : is_byte (byte z).
Proof. unfold is_byte, byte. apply Z.mod_pos_bound. lia. Qed.

Lemma byte_small (z : Z) : is_byte z -> byte z = z.
Proof. unfold is_byte, byte. intros H. apply Z.mod_small. exact H. Qed.

Lemma length_set (i : nat) (v : Z) (l : list Z) :
  List.length (set i v l) = List.length l.
Proof.
  revert i. induction l as [|h t IH]; intros [|i]; simpl; auto.
Qed.

Lemma nth_set_eq (i : nat) (v d : Z) (l : list Z) :
  (i < List.length l)%nat -> nth i (set i v l) d = v.
Proof.
  revert i. induction l as [|h t IH]; intros [|i] H; simpl in *; try lia.
  apply IH. lia.
Qed.

Lemma nth_set_neq (i j : nat) (v d : Z) (l : list Z) :
  i <> j -> nth j (set i v l) d = nth j l d.
Proof.
  revert i j. induction l as [|h t IH]; intros [|i] [|j] H; simpl;
    try reflexivity; try congruence.
  apply IH. congruence.
Qed.

Lemma bytes_ok_set (i : nat) (v : Z) (l : list Z) :
  is_byte v -> bytes_ok l -> bytes_ok (set i v l).
Proof.
  intros Hv. revert i. induction l as [|h t IH]; intros i Hl.
  - destruct i; constructor.
  - inversion Hl; subst. destruct i; simpl; constructor; auto.
    apply IH; assumption.
Qed.

Lemma bytes_ok_nth (i : nat) (l : list Z) : bytes_ok l -> is_byte (nth i l 0).
Proof.
  intros Hl. revert i. induction Hl as [|h t Hh Ht IH]; intros [|i]; simpl;
    auto; unfold is_byte; lia.
Qed.

Lemma bytes_ok_repeat (n : nat) : bytes_ok (repeat 0 n).
Proof. induction n; simpl; constructor; auto. unfold is_byte; lia. Qed.

Lemma bytes_ok_firstn (n : nat) (l : list Z) :
  bytes_ok l -> bytes_ok (firstn n l).
Proof.
  intros Hl. revert n.
  induction Hl as [|h t Hh Ht IH]; intros [|n]; simpl; constructor; auto.
  apply IH.
Qed.

Lemma bytes_ok_app (a b : list Z) :
  bytes_ok a -> bytes_ok b -> bytes_ok (a ++ b).
Proof. intros Ha Hb. apply Forall_app. split; assumption. Qed.

Lemma le_value_app (a b : list Z) :
  le_value (a ++ b) = le_value a + radix (List.length a) * le_value b.
Proof.
  induction a as [|h t IH]; simpl List.length.
  - rewrite radix_0. simpl app. change (le_value []) with 0. lia.
  - simpl app. rewrite !le_value_cons, IH, radix_S. ring.
Qed.

Lemma le_value_bound (p : list Z) :
  bytes_ok p -> 0 <= le_value p < radix (List.length p).
Proof.
  induction 1 as [|h t Hh Ht IH]; simpl List.length.
  - rewrite radix_0. change (le_value []) with 0. lia.
  - rewrite le_value_cons, radix_S. unfold is_byte in Hh. lia.
Qed.

Lemma le_value_repeat (n : nat) : le_value (repeat 0 n) = 0.
Proof.
  induction n as [|n IH]; [reflexivity|].
  simpl repeat. rewrite le_value_cons, IH. reflexivity.
Qed.

Lemma le_value_set (i : nat) (v : Z) (l : list Z) :
  (i < List.length l)%nat ->
  le_value (set i v l) = le_value l + (v - nth i l 0) * radix i.
Proof.
  revert i. induction l as [|h t IH]; intros [|i] H; simpl in H; try lia.
  - simpl set. simpl nth. rewrite !le_value_cons, radix_0. ring.
  - simpl set. simpl nth. rewrite !le_value_cons, IH by lia.
    rewrite radix_S. ring.
Qed.

Lemma firstn_S_nth (i : nat) (l : list Z) :
  (i < List.length l)%nat -> firstn (S i) l = firstn i l ++ [nth i l 0].
Proof.
  revert i. induction l as [|h t IH]; intros [|i] H; simpl in H; try lia.
  - reflexivity.
  - change (firstn (S (S i)) (h :: t)) with (h :: firstn (S i) t).
    rewrite IH by lia. reflexivity.
Qed.

Lemma le_value_firstn_S (i : nat) (l : list Z) :
  (i < List.length l)%nat ->
  le_value (firstn (S i) l) = le_value (firstn i l) + radix i * nth i l 0.
Proof.
  intros H. rewrite firstn_S_nth by exact H.
  rewrite le_value_app, firstn_length_le by lia.
  rewrite le_value_cons. change (le_value []) with 0. lia.
Qed.

Lemma firstn_set_ge (n i : nat) (v : Z) (l : list Z) :
  (n <= i)%nat -> firstn n (set i v l) = firstn n l.
Proof.
  revert n i. induction l as [|h t IH]; intros [|n] [|i] H; simpl;
    try reflexivity; try lia.
  f_equal. apply IH. lia.
Qed.

Lemma le_value_nil_iff (p : list Z) :
  bytes_ok p -> normalized p -> (le_value p = 0 <-> p = []).
Proof.
  intros Hp Hn. split; [|intros ->; reflexivity].
  induction Hp as [|h t Hh Ht IH]; [reflexivity|].
  intros H0. exfalso.
  rewrite le_value_cons in H0. pose proof (le_value_bound t Ht) as Hb.
  unfold is_byte in Hh.
  assert (h = 0 /\ le_value t = 0) as [-> Ht0] by lia.
  destruct t as [|h' t'].
  - apply Hn. reflexivity.
  - assert (Hn' : normalized (h' :: t')) by exact Hn.
    specialize (IH Hn' Ht0). discriminate.
Qed.

Lemma normalized_lower (p : list Z) :
  bytes_ok p -> normalized p -> p <> [] ->
  radix (List.length p - 1) <= le_value p.
Proof.
  intros Hp. induction Hp as [|h t Hh Ht IH]; intros Hn Hne; [congruence|].
  simpl List.length. replace (S (List.length t) - 1)%nat with (List.length t) by lia.
  rewrite le_value_cons. unfold is_byte in Hh.
  destruct t as [|h' t'].
  - simpl. rewrite radix_0. unfold normalized in Hn. simpl in Hn. lia.
  - assert (Hn' : normalized (h' :: t')) by exact Hn.
    specialize (IH Hn' ltac:(discriminate)).
    replace (List.length (h' :: t')) with (S (List.length (h' :: t') - 1)) by (simpl; lia).
    rewrite radix_S. lia.
Qed.

Lemma strip_le (sz : nat) (b : list Z) : (strip sz b <= sz)%nat.
Proof.
  induction sz as [|sz IH]; simpl; [lia|].
  destruct (nth sz b 0 =? 0); lia.
Qed.

Lemma last_firstn_S (i : nat) (l : list Z) (d : Z) :
  (i < List.length l)%nat -> last (firstn (S i) l) d = nth i l 0.
Proof.
  intros H. rewrite firstn_S_nth by exact H. apply last_last.
Qed.

Lemma strip_normalized (sz : nat) (b : list Z) :
  (sz <= List.length b)%nat -> normalized (firstn (strip sz b) b).
Proof.
  induction sz as [|sz IH]; intros H; simpl.
  - unfold normalized. simpl. lia.
  - destruct (nth sz b 0 =? 0) eqn:E.
    + apply IH. lia.
    + unfold normalized. rewrite last_firstn_S by lia.
      apply Z.eqb_neq. exact E.
Qed.

Lemma strip_value (sz : nat) (b : list Z) :
  (sz <= List.length b)%nat ->
  le_value (firstn (strip sz b) b) = le_value (firstn sz b).
Proof.
  induction sz as [|sz IH]; intros H; simpl strip; [reflexivity|].
  destruct (nth sz b 0 =? 0) eqn:E; [|reflexivity].
  rewrite IH by lia. rewrite le_value_firstn_S by lia.
  apply Z.eqb_eq in E. rewrite E. lia.
Qed.

Lemma land_low_high (a b : Z) (k : Z) :
  0 <= k -> 0 <= a < 2 ^ k -> Z.land a (b * 2 ^ k) = 0.
Proof.
  intros Hk Ha. apply Z.bits_inj'. intros n Hn.
  rewrite Z.land_spec, Z.bits_0.
  destruct (Z.lt_ge_cases n k) as [Hlt|Hge].
  - rewrite Z.mul_pow2_bits_low by lia. apply andb_false_r.
  - destruct (Z.eq_dec a 0) as [->|Hne].
    + rewrite Z.bits_0. reflexivity.
    + rewrite Z.bits_above_log2; [reflexivity|lia|].
      apply Z.log2_lt_pow2; [lia|].
      apply Z.lt_le_trans with (2 ^ k); [lia|].
      apply Z.pow_le_mono_r; lia.
Qed.

Lemma lor_low_high (a b : Z) (k : Z) :
  0 <= k -> 0 <= a < 2 ^ k -> Z.lor a (b * 2 ^ k) = a + b * 2 ^ k.
Proof.
  intros Hk Ha. rewrite <- Z.add_lor_land.
  rewrite land_low_high by assumption. lia.
Qed.

Lemma bytes_okb_true (p : list Z) : bytes_okb p = true -> bytes_ok p.
Proof.
  unfold bytes_okb, bytes_ok. rewrite forallb_forall, Forall_forall.
  intros H b Hb. specialize (H b Hb). unfold is_byte. lia.
Qed.

Lemma wf_bignumb_true (b : bignum) : wf_bignumb b = true -> wf_bignum b.
Proof.
  unfold wf_bignumb, wf_bignum, normalized, int_sized. intros H.
  apply andb_true_iff in H. destruct H as [H H4].
  apply andb_true_iff in H. destruct H as [H H3].
  apply andb_true_iff in H. destruct H as [H1 H2].
  split; [exact H1|]. split; [apply bytes_okb_true; exact H2|].
  split; [|lia].
  apply negb_true_iff in H3. apply Z.eqb_neq in H3. exact H3.
Qed.

End Buffers.

(* ========================================================================= *)
(** * [bignum::as_integer]                                                   *)
(* ========================================================================= *)

Section AsInteger.

Lemma ularge_small (z : Z) : 0 <= z < 2 ^ 64 -> ularge z = z.
Proof. intros H. unfold ularge. apply Z.mod_small. exact H. Qed.

Lemma as_integer_loop_value (n : nat) :
  forall (i : nat) (p : list Z) (v : Z),
    bytes_ok p ->
    (i + n <= List.length p)%nat ->
    (i + n <= 8)%nat ->
    v = le_value (firstn i p) ->
    as_integer_loop n i p v = le_value (firstn (i + n) p).
Proof.
  induction n as [|n IH]; intros i p v Hp Hlen H8 Hv; simpl.
  - rewrite Nat.add_0_r. exact Hv.
  - replace (i + S n)%nat with (S i + n)%nat by lia.
    apply IH; try assumption; try lia.
    pose proof (bytes_ok_nth i p Hp) as Hb. unfold is_byte in Hb.
    pose proof (le_value_bound (firstn i p) (bytes_ok_firstn i p Hp)) as Hlow.
    rewrite firstn_length_le in Hlow by lia.
    assert (Hr : radix i * 256 <= 2 ^ 64).
    { rewrite Z.mul_comm, <- radix_S.
      change (2 ^ 64) with (radix 8). apply radix_le. lia. }
    pose proof (radix_pos i) as Hpos.
    rewrite (ularge_small (nth i p 0)) by lia.
    rewrite Z.shiftl_mul_pow2 by lia.
    replace (2 ^ (Z.of_nat i * 8)) with (radix i)
      by (unfold radix; f_equal; lia).
    rewrite ularge_small by nia.
    subst v. unfold radix in *.
    rewrite lor_low_high by lia.
    rewrite le_value_firstn_S by lia. unfold radix. ring.
Qed.

End AsInteger.


(* ========================================================================= *)
(** * [bignum::compare]                                                      *)
(* ========================================================================= *)

Section Compare.

Lemma compare_loop_sgn (n : nat) (x y : list Z) :
  bytes_ok x -> bytes_ok y ->
  (n <= List.length x)%nat -> (n <= List.length y)%nat ->
  Z.sgn (compare_loop n x y)
  = Z.sgn (le_value (firstn n x) - le_value (firstn n y)).
Proof.
  intros Hx Hy. induction n as [|n IH]; intros Hnx Hny.
  - reflexivity.
  - simpl compare_loop. rewrite !le_value_firstn_S by lia.
    pose proof (le_value_bound _ (bytes_ok_firstn n x Hx)) as Bx.
    pose proof (le_value_bound _ (bytes_ok_firstn n y Hy)) as By.
    rewrite firstn_length_le in Bx, By by lia.
    pose proof (radix_pos n) as Hr.
    destruct (nth n x 0 - nth n y 0 =? 0) eqn:E.
    + apply Z.eqb_eq in E. rewrite IH by lia. f_equal.
      replace (nth n x 0) with (nth n y 0) by lia. ring.
    + apply Z.eqb_neq in E.
      destruct (Z.lt_ge_cases (nth n x 0) (nth n y 0)) as [Hlt|Hge].
      * rewrite !Z.sgn_neg; [reflexivity|nia|lia].
      * rewrite !Z.sgn_pos; [reflexivity|nia|lia].
Qed.

Lemma shorter_is_smaller (x y : list Z) :
  bytes_ok x -> bytes_ok y -> normalized y ->
  (List.length x < List.length y)%nat -> le_value x < le_value y.
Proof.
  intros Hx Hy Ny Hlen.
  pose proof (le_value_bound x Hx) as Bx.
  assert (Hne : y <> []) by (destruct y; simpl in Hlen; [lia|discriminate]).
  pose proof (normalized_lower y Hy Ny Hne) as Ly.
  pose proof (radix_le (List.length x) (List.length y - 1) ltac:(lia)). lia.
Qed.

Lemma int32_small (z : Z) : - 2 ^ 31 <= z < 2 ^ 31 -> int32 z = z.
Proof. intros H. unfold int32. rewrite Z.mod_small; lia. Qed.

Lemma compare_magnitudes (x y : list Z) :
  bytes_ok x -> bytes_ok y -> normalized x -> normalized y ->
  Z.of_nat (List.length x) < 2 ^ 31 -> Z.of_nat (List.length y) < 2 ^ 31 ->
  let result := int32 (Z.of_nat (List.length x) - Z.of_nat (List.length y)) in
  Z.sgn (if result =? 0 then compare_loop (List.length x) x y else result)
  = Z.sgn (le_value x - le_value y).
Proof.
  intros Hx Hy Nx Ny Sx Sy. cbv zeta.
  rewrite int32_small by lia.
  destruct (Z.of_nat (List.length x) - Z.of_nat (List.length y) =? 0) eqn:E.
  - apply Z.eqb_eq in E. assert (El : List.length x = List.length y) by lia.
    rewrite compare_loop_sgn; try assumption; try lia.
    rewrite firstn_all. rewrite El, firstn_all. reflexivity.
  - apply Z.eqb_neq in E.
    destruct (Nat.lt_ge_cases (List.length x) (List.length y)) as [Hlt|Hge].
    + pose proof (shorter_is_smaller x y Hx Hy Ny Hlt).
      rewrite !Z.sgn_neg; [reflexivity|lia|lia].
    + assert (Hgt : (List.length y < List.length x)%nat) by lia.
      pose proof (shorter_is_smaller y x Hy Hx Nx Hgt).
      rewrite !Z.sgn_pos; [reflexivity|lia|lia].
Qed.

End Compare.

Section CompareSpec.

Variables x y : bignum.
Hypothesis wf_x : wf_bignum x.
Hypothesis wf_y : wf_bignum y.

Lemma compare_magnitude_sgn :
  Z.sgn (compare x y true) = Z.sgn (magnitude x - magnitude y).
Proof.
  destruct wf_x as (_ & Hx & Nx & Sx), wf_y as (_ & Hy & Ny & Sy).
  unfold int_sized in Sx, Sy.
  unfold compare. simpl negb. simpl andb. cbv zeta.
  apply compare_magnitudes; try assumption; lia.
Qed.

Lemma magnitude_pos_of_nonempty :
  value x <> [] -> 0 < magnitude x.
Proof.
  destruct wf_x as (_ & Hx & Nx & _). intros Hne.
  pose proof (le_value_bound _ Hx) as B.
  pose proof (le_value_nil_iff _ Hx Nx) as Hz.
  unfold magnitude. destruct (Z.eq_dec (le_value (value x)) 0) as [E|E].
  - apply Hz in E. contradiction.
  - lia.
Qed.

End CompareSpec.

(** C9, as amended.  On normalized bignums of which none is a negative
    zero, [compare(x, y, false)] has the sign of [x - y]: negative, zero or
    positive as [x < y], [x = y] or [x > y]; a [neg_bignum] compares below
    every other bignum; and [compare(x, y, true)] has the sign of
    [|x| - |y|]. *)
Theorem compare_spec (x y : bignum) :
  wf_bignum x -> wf_bignum y ->
  no_negative_zero x -> no_negative_zero y ->
  (compare x y false < 0 <-> signed_value x < signed_value y)
  /\ (compare x y false = 0 <-> signed_value x = signed_value y)
  /\ (0 < compare x y false <-> signed_value y < signed_value x)
  /\ (type x = ID_neg_bignum -> type y <> ID_neg_bignum ->
      compare x y false < 0)
  /\ (compare x y true < 0 <-> magnitude x < magnitude y)
  /\ (compare x y true = 0 <-> magnitude x = magnitude y)
  /\ (0 < compare x y true <-> magnitude y < magnitude x).
Proof.
  intros Wx Wy Zx Zy.
  pose proof (compare_magnitude_sgn x y Wx Wy) as Hm.
  assert (Hs : Z.sgn (compare x y false)
               = Z.sgn (signed_value x - signed_value y)
               /\ (type x = ID_neg_bignum -> type y <> ID_neg_bignum ->
                   compare x y false < 0)).
  { pose proof (magnitude_pos_of_nonempty x Wx) as Px.
    pose proof (magnitude_pos_of_nonempty y Wy) as Py.
    destruct Wx as (Kx & Hx & Nx & Sx), Wy as (Ky & Hy & Ny & Sy).
    unfold int_sized in Sx, Sy.
    pose proof (le_value_bound _ Hx) as Bx.
    pose proof (le_value_bound _ Hy) as By.
    pose proof (compare_magnitudes _ _ Hx Hy Nx Ny ltac:(lia) ltac:(lia))
      as Hc.
    cbv zeta in Hc.
    unfold no_negative_zero in Zx, Zy.
    unfold compare, signed_value, magnitude in *. simpl negb. cbv zeta.
    destruct (type x) eqn:Tx; try discriminate Kx;
      destruct (type y) eqn:Ty; try discriminate Ky;
      simpl id_eqb; simpl negative; simpl andb; cbv iota;
      try (split; [exact Hc|intros; congruence]);
      try (split; [rewrite Z.sgn_pos by lia;
                   rewrite Z.sgn_pos by (specialize (Py (Zy eq_refl)); lia);
                   reflexivity
                  |intros; congruence]);
      try (split; [rewrite !Z.sgn_neg by (specialize (Px (Zx eq_refl)); lia);
                   reflexivity
                  |intros; lia]).
    split; [|intros; congruence].
    rewrite Z.sgn_opp, Hc, <- Z.sgn_opp. f_equal. ring. }
  destruct Hs as [Hs Hneg].
  repeat split; try exact Hneg; intros H;
    first [ apply Z.sgn_neg_iff in H | apply Z.sgn_null_iff in H
          | apply Z.sgn_pos_iff in H
          | apply Z.sgn_neg_iff | apply Z.sgn_null_iff | apply Z.sgn_pos_iff
          | idtac ];
    try (rewrite Hs in H); try (rewrite Hm in H);
    try (rewrite Hs); try (rewrite Hm);
    first [ apply Z.sgn_neg_iff in H | apply Z.sgn_null_iff in H
          | apply Z.sgn_pos_iff in H
          | apply Z.sgn_neg_iff | apply Z.sgn_null_iff | apply Z.sgn_pos_iff
          | idtac ];
    lia.
Qed.

(* ========================================================================= *)
(** * [bignum::multiply]                                                     *)
(* ========================================================================= *)

Section BitFacts.

(** Facts on the bits of a byte are checked on the 256 bytes. *)
Lemma byte_cases (P : Z -> bool) :
  forallb (fun n => P (Z.of_nat n)) (seq 0 256) = true ->
  forall z : Z, is_byte z -> P z = true.
Proof.
  intros H z Hz. unfold is_byte in Hz.
  rewrite forallb_forall in H.
  specialize (H (Z.to_nat z)). rewrite Z2Nat.id in H by lia.
  apply H. apply in_seq. change (2 ^ 8) with 256 in Hz. lia.
Qed.

Lemma bit_cases (P : Z -> bool) :
  forallb (fun n => P (Z.of_nat n)) (seq 0 8) = true ->
  forall bit : Z, 0 <= bit < 8 -> P bit = true.
Proof.
  intros H z Hz. rewrite forallb_forall in H.
  specialize (H (Z.to_nat z)). rewrite Z2Nat.id in H by lia.
  apply H. apply in_seq. lia.
Qed.

Lemma clear_bit_checked (bit xd : Z) :
  0 <= bit < 8 -> is_byte xd -> clear_bit_check bit xd = true.
Proof.
  intros Hbit Hxd.
  apply (bit_cases (fun bit => forallb (fun n => clear_bit_check bit (Z.of_nat n))
                                       (seq 0 256))) in Hbit.
  - rewrite forallb_forall in Hbit. unfold is_byte in Hxd.
    change (2 ^ 8) with 256 in Hxd.
    specialize (Hbit (Z.to_nat xd)). rewrite Z2Nat.id in Hbit by lia.
    apply Hbit. apply in_seq. lia.
  - vm_compute. reflexivity.
Qed.

End BitFacts.

Section Multiply.

Variable y : list Z.
Variable needed xi : nat.
Hypothesis y_ok : bytes_ok y.

Lemma le_value_skipn (i : nat) :
  (i < List.length y)%nat ->
  le_value (skipn i y) = nth i y 0 + 256 * le_value (skipn (S i) y).
Proof.
  clear y_ok. revert i. induction y as [|h t IH]; intros [|i] H;
    simpl in H; try lia.
  - reflexivity.
  - simpl skipn at 1. simpl nth. rewrite IH by lia. reflexivity.
Qed.

Lemma uint32_small (z : Z) : 0 <= z < 2 ^ 32 -> uint32 z = z.
Proof. intros H. unfold uint32. apply Z.mod_small. exact H. Qed.

(** The two inner loops add [y << bit], at byte [xi], to the buffer: what
    they leave out lies above the buffer. *)
Lemma multiply_add_spec (bit : Z) (n : nat) :
  0 <= bit < 8 ->
  forall (yi : nat) (c : Z) (buffer : list Z),
    List.length buffer = needed -> bytes_ok buffer ->
    0 <= c < 256 ->
    (List.length y - yi <= n)%nat ->
    forall yi' c' buffer',
      multiply_add n y bit needed xi yi c buffer = (yi', c', buffer') ->
      List.length buffer' = needed /\ bytes_ok buffer' /\ 0 <= c' < 256
      /\ (radix needed |
          le_value buffer
          + radix (xi + yi) * (c + 2 ^ bit * le_value (skipn yi y))
          - (le_value buffer' + radix (xi + yi') * c')).
Proof.
  intros Hbit. induction n as [|n IH]; intros yi c buffer Hlen Hb Hc Hn
    yi' c' buffer' Hrun; simpl in Hrun.
  - injection Hrun as E1' E2' E3'; subst yi' c' buffer'.
    repeat split; try assumption; try lia.
    rewrite skipn_all2 by lia. change (le_value []) with 0.
    exists 0. ring.
  - destruct ((yi <? List.length y)%nat && (xi + yi <? needed)%nat) eqn:E.
    + apply andb_true_iff in E. destruct E as [E1 E2].
      apply Nat.ltb_lt in E1. apply Nat.ltb_lt in E2.
      pose proof (bytes_ok_nth (xi + yi) buffer Hb) as Hbi.
      pose proof (bytes_ok_nth yi y y_ok) as Hyi.
      unfold is_byte in Hbi, Hyi. change (2 ^ 8) with 256 in Hbi, Hyi.
      set (bi := nth (xi + yi) buffer 0) in *.
      set (yb := nth yi y 0) in *.
      assert (Hsh : Z.shiftl yb bit = yb * 2 ^ bit)
        by (apply Z.shiftl_mul_pow2; lia).
      assert (Hp : 0 < 2 ^ bit <= 128).
      { split; [apply Z.pow_pos_nonneg; lia|].
        change 128 with (2 ^ 7). apply Z.pow_le_mono_r; lia. }
      rewrite Hsh in Hrun.
      rewrite uint32_small in Hrun by (change (2 ^ 32) with 4294967296; nia).
      set (c1 := c + (bi + yb * 2 ^ bit)) in *.
      assert (Hc1 : 0 <= c1 < 256 * 256) by (unfold c1; nia).
      rewrite Z.shiftr_div_pow2 in Hrun by lia. change (2 ^ 8) with 256 in Hrun.
      apply IH in Hrun.
      * destruct Hrun as (L & B & C & D).
        repeat split; try assumption; try lia.
        rewrite le_value_set in D by lia. fold bi in D.
        rewrite (le_value_skipn yi) by lia. fold yb.
        replace (xi + S yi)%nat with (S (xi + yi)) in D by lia.
        rewrite radix_S in D.
        unfold byte in D. change (2 ^ 8) with 256 in D.
        pose proof (Z.div_mod c1 256 ltac:(lia)) as Hdm.
        destruct D as [k D]. exists k. rewrite <- D.
        unfold c1 in Hdm |- *.
        set (q := (c + (bi + yb * 2 ^ bit)) / 256) in *.
        set (r := (c + (bi + yb * 2 ^ bit)) mod 256) in *.
        set (R := radix (xi + yi)). set (L' := le_value (skipn (S yi) y)).
        replace (c + 2 ^ bit * (yb + 256 * L'))
          with (256 * q + r - bi + 2 ^ bit * 256 * L') by lia.
        ring.
      * rewrite length_set. exact Hlen.
      * apply bytes_ok_set; [apply is_byte_byte|exact Hb].
      * split; [apply Z.div_pos; lia|].
        apply Z.div_lt_upper_bound; lia.
      * lia.
    + injection Hrun as E1' E2' E3'; subst yi' c' buffer'.
    repeat split; try assumption; try lia.
      apply andb_false_iff in E. destruct E as [E|E].
      * apply Nat.ltb_ge in E. rewrite skipn_all2 by lia.
        change (le_value []) with 0. exists 0. ring.
      * apply Nat.ltb_ge in E.
        destruct (radix_divide needed (xi + yi) E) as [k Hk].
        rewrite Hk.
        exists (k * (2 ^ bit * le_value (skipn yi y))). ring.
Qed.

Lemma multiply_carry_spec (n : nat) :
  forall (yi : nat) (c : Z) (buffer : list Z),
    List.length buffer = needed -> bytes_ok buffer ->
    0 <= c < 256 ->
    (needed - (xi + yi) <= n)%nat ->
    let buffer' := multiply_carry n needed xi yi c buffer in
    List.length buffer' = needed /\ bytes_ok buffer'
    /\ (radix needed |
        le_value buffer + radix (xi + yi) * c - le_value buffer').
Proof.
  induction n as [|n IH]; intros yi c buffer Hlen Hb Hc Hn; simpl.
  - repeat split; try assumption.
    destruct (radix_divide needed (xi + yi) ltac:(lia)) as [k Hk].
    rewrite Hk. exists (k * c). ring.
  - destruct (negb (c =? 0) && (xi + yi <? needed)%nat) eqn:E.
    + apply andb_true_iff in E. destruct E as [_ E2].
      apply Nat.ltb_lt in E2.
      pose proof (bytes_ok_nth (xi + yi) buffer Hb) as Hbi.
      unfold is_byte in Hbi. change (2 ^ 8) with 256 in Hbi.
      set (bi := nth (xi + yi) buffer 0) in *.
      rewrite uint32_small by (change (2 ^ 32) with 4294967296; lia).
      rewrite Z.shiftr_div_pow2 by lia. change (2 ^ 8) with 256.
      set (c1 := c + bi) in *.
      specialize (IH (S yi) (c1 / 256) (set (xi + yi) (byte c1) buffer)).
      destruct IH as (L & B & D).
      * rewrite length_set. exact Hlen.
      * apply bytes_ok_set; [apply is_byte_byte|exact Hb].
      * split; [apply Z.div_pos; lia|].
        apply Z.div_lt_upper_bound; lia.
      * lia.
      * repeat split; try assumption.
        rewrite le_value_set in D by lia. fold bi in D.
        replace (xi + S yi)%nat with (S (xi + yi)) in D by lia.
        rewrite radix_S in D.
        unfold byte in D. change (2 ^ 8) with 256 in D.
        pose proof (Z.div_mod c1 256 ltac:(lia)) as Hdm.
        destruct D as [k D]. exists k. rewrite <- D.
        set (q := c1 / 256) in *. set (r := c1 mod 256) in *.
        unfold byte. change (2 ^ 8) with 256. fold r.
        replace c with (256 * q + r - bi) by lia. ring.
    + repeat split; try assumption.
      apply andb_false_iff in E. destruct E as [E|E].
      * apply negb_false_iff in E. apply Z.eqb_eq in E. subst c.
        exists 0. ring.
      * apply Nat.ltb_ge in E.
        destruct (radix_divide needed (xi + yi) E) as [k Hk].
        rewrite Hk. exists (k * c). ring.
Qed.

(** The loop on the bits of one byte [xd] of [x] adds [xd * y], at byte
    [xi]. *)
Lemma multiply_bits_spec (n : nat) :
  forall (bit xd : Z) (buffer : list Z),
    0 <= bit -> bit + Z.of_nat n = 8 ->
    is_byte xd -> xd mod 2 ^ bit = 0 ->
    List.length buffer = needed -> bytes_ok buffer ->
    let buffer' := multiply_bits n y needed xi bit xd buffer in
    List.length buffer' = needed /\ bytes_ok buffer'
    /\ (radix needed |
        le_value buffer + radix xi * (xd * le_value y) - le_value buffer').
Proof.
  induction n as [|n IH]; intros bit xd buffer Hbit Hn Hxd Hlow Hlen Hb;
    simpl.
  - repeat split; try assumption.
    assert (bit = 8) by lia. subst bit.
    unfold is_byte in Hxd. rewrite Z.mod_small in Hlow by exact Hxd.
    subst xd. exists 0. ring.
  - destruct (negb (xd =? 0) && (bit <? 8)) eqn:E.
    + assert (Hb8 : 0 <= bit < 8) by lia.
      pose proof (clear_bit_checked bit xd Hb8 Hxd) as Hck.
      unfold clear_bit_check in Hck.
      rewrite Hlow, Z.eqb_refl in Hck. simpl negb in Hck. cbv iota in Hck.
      destruct (negb (Z.land xd (Z.shiftl 1 bit) =? 0)) eqn:Eb.
      * apply andb_true_iff in Hck. destruct Hck as [Hck H3].
        apply andb_true_iff in Hck. destruct Hck as [H1 H2].
        apply Z.eqb_eq in H1. apply Z.eqb_eq in H2. apply Z.leb_le in H3.
        destruct (multiply_add (List.length y) y bit needed xi 0 0 buffer)
          as [[yi c] buffer1] eqn:Eadd.
        apply multiply_add_spec in Eadd; try assumption; try lia.
        destruct Eadd as (L1 & B1 & C1 & D1).
        pose proof (multiply_carry_spec needed yi c buffer1 L1 B1 C1
                      ltac:(lia)) as Hcarry.
        cbv zeta in Hcarry. destruct Hcarry as (L2 & B2 & D2).
        rewrite H1.
        specialize (IH (bit + 1) (xd - 2 ^ bit)
                       (multiply_carry needed needed xi yi c buffer1)).
        cbv zeta in IH. destruct IH as (L3 & B3 & D3);
          try assumption; try lia.
        { unfold is_byte in *. pose proof (Z.pow_pos_nonneg 2 bit). lia. }
        repeat split; try assumption.
        rewrite Nat.add_0_r in D1. simpl skipn in D1.
        destruct D1 as [k1 D1], D2 as [k2 D2], D3 as [k3 D3].
        exists (k1 + k2 + k3). lia.
      * apply Z.eqb_eq in Hck.
        specialize (IH (bit + 1) xd buffer). cbv zeta in IH.
        apply IH; try assumption; lia.
    + repeat split; try assumption.
      apply andb_false_iff in E. destruct E as [E|E].
      * apply negb_false_iff in E. apply Z.eqb_eq in E. subst xd.
        exists 0. ring.
      * apply Z.ltb_ge in E. lia.
Qed.

End Multiply.

Section MultiplyBytes.

Variables x y : list Z.
Variable needed : nat.
Hypothesis x_ok : bytes_ok x.
Hypothesis y_ok : bytes_ok y.

Lemma multiply_bytes_spec (n : nat) :
  forall (xi : nat) (buffer : list Z),
    (xi + n = List.length x)%nat ->
    List.length buffer = needed -> bytes_ok buffer ->
    let buffer' := multiply_bytes n x y needed xi buffer in
    List.length buffer' = needed /\ bytes_ok buffer'
    /\ (radix needed |
        le_value buffer
        + radix xi * (le_value (skipn xi x) * le_value y)
        - le_value buffer').
Proof.
  induction n as [|n IH]; intros xi buffer Hn Hlen Hb;
    cbn [multiply_bytes].
  - repeat split; try assumption.
    rewrite skipn_all2 by lia. change (le_value []) with 0.
    exists 0. ring.
  - pose proof (multiply_bits_spec y needed xi y_ok 8 0 (nth xi x 0) buffer
                  ltac:(lia) ltac:(reflexivity)
                  (bytes_ok_nth xi x x_ok) (Z.mod_1_r _) Hlen Hb) as Hbits.
    cbv zeta in Hbits. destruct Hbits as (L1 & B1 & D1).
    specialize (IH (S xi) _ ltac:(lia) L1 B1). cbv zeta in IH.
    destruct IH as (L2 & B2 & D2).
    repeat split; try assumption.
    rewrite (le_value_skipn x xi) by lia.
    rewrite radix_S in D2.
    destruct D1 as [k1 D1], D2 as [k2 D2].
    exists (k1 + k2). lia.
Qed.

End MultiplyBytes.

Section MultiplySpec.

Variable Settings : settings.

Lemma multiply_buffer_value (x y : list Z) (needed : nat) :
  bytes_ok x -> bytes_ok y ->
  let buffer := multiply_bytes (List.length x) x y needed 0 (repeat 0 needed) in
  List.length buffer = needed /\ bytes_ok buffer
  /\ le_value buffer = (le_value x * le_value y) mod radix needed.
Proof.
  intros Hx Hy.
  pose proof (multiply_bytes_spec x y needed Hx Hy (List.length x) 0
                (repeat 0 needed) eq_refl (repeat_length 0 needed)
                (bytes_ok_repeat needed)) as H.
  cbv zeta in *. destruct H as (L & B & [k D]).
  repeat split; try assumption.
  rewrite le_value_repeat, radix_0 in D. simpl skipn in D.
  pose proof (le_value_bound _ B) as Bd. rewrite L in Bd.
  apply Z.mod_unique with (q := k); [left; exact Bd|lia].
Qed.

Lemma product_bound (x y : list Z) :
  bytes_ok x -> bytes_ok y ->
  0 <= le_value x * le_value y < radix (List.length x + List.length y).
Proof.
  intros Hx Hy.
  pose proof (le_value_bound x Hx). pose proof (le_value_bound y Hy).
  rewrite radix_add. nia.
Qed.

Lemma multiply_total (yg xg : bignum) (ty : id) (rt : runtime) :
  bytes_ok (value xg) -> bytes_ok (value yg) ->
  if (maxbignum Settings
      <? (List.length (value xg) + List.length (value yg)) * 8)%nat
  then multiply Settings yg xg ty rt
       = (None, {| Error := Some Errors.number_too_big |})
  else exists r : bignum,
      multiply Settings yg xg ty rt = (Some r, rt)
      /\ type r = ty /\ bytes_ok (value r) /\ normalized (value r)
      /\ magnitude r
         = (magnitude xg * magnitude yg) mod radix (multiply_width Settings xg yg).
Proof.
  intros Hx Hy. unfold multiply.
  destruct (maxbignum Settings
            <? (List.length (value xg) + List.length (value yg)) * 8)%nat.
  - reflexivity.
  - fold (multiply_width Settings xg yg). set (needed := multiply_width Settings xg yg).
    pose proof (multiply_buffer_value (value xg) (value yg) needed Hx Hy)
      as H. cbv zeta in H.
    set (buffer := multiply_bytes _ _ _ needed 0 _) in *.
    destruct H as (L & B & V).
    unfold ret, make_bignum. eexists. split; [reflexivity|]. simpl.
    repeat split.
    + apply bytes_ok_firstn. exact B.
    + apply strip_normalized. lia.
    + unfold magnitude. simpl.
      rewrite strip_value by lia. rewrite <- L, firstn_all, V, L.
      reflexivity.
Qed.

Lemma multiply_width_exact (yg xg : bignum) :
  bytes_ok (value xg) -> bytes_ok (value yg) ->
  wordsize_of Settings (type xg) = 0%nat ->
  (magnitude xg * magnitude yg) mod radix (multiply_width Settings xg yg)
  = magnitude xg * magnitude yg.
Proof.
  intros Hx Hy HW. unfold multiply_width. rewrite HW. cbn [Nat.eqb negb andb].
  apply Z.mod_small. apply product_bound; assumption.
Qed.

Lemma multiply_width_based (yg xg : bignum) :
  bytes_ok (value xg) -> bytes_ok (value yg) ->
  wordsize_of Settings (type xg) <> 0%nat ->
  (magnitude xg * magnitude yg) mod radix (multiply_width Settings xg yg)
  = (magnitude xg * magnitude yg)
      mod radix ((wordsize_of Settings (type xg) + 7) / 8).
Proof.
  intros Hx Hy HW. unfold multiply_width. cbv zeta.
  destruct (wordsize_of Settings (type xg) =? 0)%nat eqn:E0.
  - apply Nat.eqb_eq in E0. contradiction.
  - cbn [negb andb].
    set (wbytes := ((wordsize_of Settings (type xg) + 7) / 8)%nat).
    destruct (wbytes <? List.length (value xg) + List.length (value yg))%nat
      eqn:E.
    + reflexivity.
    + apply Nat.ltb_ge in E.
      pose proof (product_bound _ _ Hx Hy) as P.
      pose proof (radix_le _ _ E).
      unfold magnitude. rewrite !Z.mod_small; lia.
Qed.

End MultiplySpec.

(* ========================================================================= *)
(** * [bignum::quorem]                                                       *)
(* ========================================================================= *)

Section MoreBuffers.

Lemma firstn_set_lt (m i : nat) (v : Z) (l : list Z) :
  (i < m)%nat -> firstn m (set i v l) = set i v (firstn m l).
Proof.
  revert m i. induction l as [|h t IH]; intros [|m] [|i] H; simpl;
    try reflexivity; try lia.
  f_equal. apply IH. lia.
Qed.

Lemma le_value_firstn_set (m i : nat) (v : Z) (l : list Z) :
  (i < m)%nat -> (m <= List.length l)%nat ->
  le_value (firstn m (set i v l))
  = le_value (firstn m l) + (v - nth i l 0) * radix i.
Proof.
  intros Him Hml. rewrite firstn_set_lt by exact Him.
  rewrite le_value_set by (rewrite firstn_length_le; lia).
  f_equal. f_equal. f_equal.
  rewrite <- (firstn_skipn m l) at 2.
  rewrite app_nth1 by (rewrite firstn_length_le; lia). reflexivity.
Qed.

Lemma le_value_firstn_beyond (i : nat) (l : list Z) :
  (List.length l <= i)%nat ->
  le_value (firstn (S i) l) = le_value (firstn i l).
Proof. intros H. rewrite !firstn_all2 by lia. reflexivity. Qed.

Lemma nth_stray (i : nat) (l : list Z) (d : Z) :
  (i < List.length l)%nat -> nth i l d = nth i l 0.
Proof. intros H. apply nth_indep. exact H. Qed.

Lemma sgn_extend (lo lo' d r : Z) :
  0 <= lo < r -> 0 <= lo' < r ->
  Z.sgn (if d =? 0 then lo - lo' else d) = Z.sgn (lo - lo' + r * d).
Proof.
  intros H H'. destruct (d =? 0) eqn:E.
  - apply Z.eqb_eq in E. subst d. f_equal. ring.
  - apply Z.eqb_neq in E.
    destruct (Z.lt_ge_cases d 0).
    + rewrite !Z.sgn_neg; [reflexivity|nia|lia].
    + rewrite !Z.sgn_pos; [reflexivity|nia|lia].
Qed.

Lemma sgn_step (delta d lo lo' r : Z) :
  0 <= lo < r -> 0 <= lo' < r ->
  Z.sgn delta = Z.sgn (lo - lo') ->
  Z.sgn (if d =? 0 then delta else d) = Z.sgn (lo - lo' + r * d).
Proof.
  intros H H' Hd. rewrite <- sgn_extend by eassumption.
  destruct (d =? 0); [exact Hd|reflexivity].
Qed.

Lemma lower_normalized (p : list Z) :
  bytes_ok p -> (p = [] \/ radix (List.length p - 1) <= le_value p) ->
  normalized p.
Proof.
  intros Hp [->|H]; [unfold normalized; simpl; lia|].
  destruct (exists_last (l := p)) as (q & b & ->).
  { intros ->. simpl in H. rewrite radix_0 in H. change (le_value []) with 0 in H.
    lia. }
  unfold normalized. rewrite last_last.
  rewrite le_value_app, length_app in H. cbn [List.length] in H.
  replace (List.length q + 1 - 1)%nat with (List.length q) in H by lia.
  apply Forall_app in Hp. destruct Hp as [Hq Hb].
  pose proof (le_value_bound q Hq). rewrite le_value_cons in H.
  change (le_value []) with 0 in H. pose proof (radix_pos (List.length q)).
  intros ->. lia.
Qed.

Lemma normalized_length (p : list Z) (n : nat) :
  bytes_ok p -> normalized p -> le_value p < radix n ->
  (List.length p <= n)%nat.
Proof.
  intros Hp Np Hlt.
  destruct (Nat.le_gt_cases (List.length p) n) as [H|H]; [exact H|].
  assert (Hne : p <> []) by (destruct p; simpl in H; [lia|discriminate]).
  pose proof (normalized_lower p Hp Np Hne).
  pose proof (radix_le n (List.length p - 1) ltac:(lia)). lia.
Qed.

Lemma uint16_small (z : Z) : 0 <= z < 2 ^ 16 -> uint16 z = z.
Proof. intros H. unfold uint16. apply Z.mod_small. exact H. Qed.

End MoreBuffers.

Section QuoremLoops.

Variable stray : Z.
Variable x : list Z.
Hypothesis x_ok : bytes_ok x.

(** The shift loop doubles the remainder, brings the numerator bit in, and
    leaves in [delta] the sign of the comparison with [x]. *)
Lemma quorem_shift_spec (n : nat) :
  forall (ri : nat) (c delta : Z) (R : list Z),
    (ri + n <= List.length R)%nat -> (ri + n <= List.length x)%nat ->
    bytes_ok R -> 0 <= c <= 1 ->
    Z.sgn delta = Z.sgn (le_value (firstn ri R) - le_value (firstn ri x)) ->
    forall c' delta' R',
      quorem_shift stray n x ri c delta R = (c', delta', R') ->
      List.length R' = List.length R /\ bytes_ok R' /\ 0 <= c' <= 1
      /\ le_value (firstn (ri + n) R') + radix (ri + n) * c'
         = 2 * le_value (firstn (ri + n) R) - le_value (firstn ri R)
           + radix ri * c
      /\ Z.sgn delta'
         = Z.sgn (le_value (firstn (ri + n) R')
                  - le_value (firstn (ri + n) x)).
Proof.
  induction n as [|n IH]; intros ri c delta R HR Hx Hb Hc Hd c' delta' R' Hrun;
    cbn [quorem_shift] in Hrun.
  - injection Hrun as E1 E2 E3. subst c' delta' R'.
    rewrite Nat.add_0_r. repeat split; try assumption; try lia.
  - pose proof (bytes_ok_nth ri R Hb) as Hbi. unfold is_byte in Hbi.
    change (2 ^ 8) with 256 in Hbi.
    rewrite Z.shiftl_mul_pow2 in Hrun by lia. change (2 ^ 1) with 2 in Hrun.
    rewrite uint16_small in Hrun by (change (2 ^ 16) with 65536; lia).
    set (c1 := c + nth ri R 0 * 2) in *.
    rewrite nth_set_eq in Hrun by lia.
    rewrite (nth_stray ri x stray) in Hrun by lia.
    rewrite Z.shiftr_div_pow2 in Hrun by lia. change (2 ^ 8) with 256 in Hrun.
    pose proof (Z.div_mod c1 256 ltac:(lia)) as Hdm.
    assert (Hq : 0 <= c1 / 256 <= 1).
    { split; [apply Z.div_pos; lia|].
      apply Z.lt_succ_r. apply Z.div_lt_upper_bound; lia. }
    pose proof (Z.mod_pos_bound c1 256 ltac:(lia)) as Hr.
    pose proof (le_value_bound _ (bytes_ok_firstn ri R Hb)) as BR.
    pose proof (le_value_bound _ (bytes_ok_firstn ri x x_ok)) as Bx.
    rewrite firstn_length_le in BR, Bx by lia.
    apply IH in Hrun; try lia.
    + destruct Hrun as (L & B & C & V & D).
      rewrite length_set in L.
      replace (S ri + n)%nat with (ri + S n)%nat in * by lia.
      repeat split; try assumption; try lia.
      rewrite V. rewrite le_value_firstn_set by lia.
      rewrite (le_value_firstn_S ri (set ri (byte c1) R))
        by (rewrite length_set; lia).
      rewrite firstn_set_ge by lia. rewrite nth_set_eq by lia.
      rewrite radix_S. unfold byte. change (2 ^ 8) with 256.
      set (q := c1 / 256) in *. set (r := c1 mod 256) in *.
      unfold c1 in Hdm. nia.
    + rewrite length_set. lia.
    + apply bytes_ok_set; [apply is_byte_byte|exact Hb].
    + rewrite (le_value_firstn_S ri (set ri (byte c1) R))
        by (rewrite length_set; lia).
      rewrite firstn_set_ge by lia. rewrite nth_set_eq by lia.
      rewrite (le_value_firstn_S ri x) by lia.
      replace (le_value (firstn ri R) + radix ri * byte c1
               - (le_value (firstn ri x) + radix ri * nth ri x 0))
        with (le_value (firstn ri R) - le_value (firstn ri x)
              + radix ri * (byte c1 - nth ri x 0)) by ring.
      apply sgn_step; assumption.
Qed.

Lemma borrow_step (t : Z) :
  -256 <= t < 256 ->
  byte (uint16 t) = t + 256 * (if 255 <? uint16 t then 1 else 0).
Proof.
  intros H. unfold byte, uint16. change (2 ^ 8) with 256.
  change (2 ^ 16) with 65536.
  destruct (Z.lt_ge_cases t 0) as [Hneg|Hpos].
  - replace (t mod 65536) with (t + 65536).
    + assert (E : (255 <? t + 65536) = true) by (apply Z.ltb_lt; lia).
      rewrite E. replace (t + 65536) with (t + 256 + 255 * 256) by ring.
      rewrite Z.mod_add by lia. rewrite Z.mod_small; lia.
    + apply Z.mod_unique with (q := -1); [left; lia|lia].
  - rewrite (Z.mod_small t 65536) by lia.
    assert (E : (255 <? t) = false) by (apply Z.ltb_ge; lia).
    rewrite E. rewrite Z.mod_small; lia.
Qed.

(** The subtraction loop takes [x] away from the remainder, up to a last
    borrow. *)
Lemma quorem_sub_spec (n : nat) :
  forall (ri : nat) (c : Z) (R : list Z),
    (ri + n <= List.length R)%nat -> bytes_ok R -> 0 <= c <= 1 ->
    let R' := quorem_sub stray n x ri c R in
    List.length R' = List.length R /\ bytes_ok R'
    /\ exists c' : Z,
        0 <= c' <= 1
        /\ le_value (firstn (ri + n) R') - radix (ri + n) * c'
           = le_value (firstn (ri + n) R)
             - (le_value (firstn (ri + n) x) - le_value (firstn ri x))
             - radix ri * c.
Proof.
  induction n as [|n IH]; intros ri c R HR Hb Hc; cbn [quorem_sub]; cbv zeta.
  - rewrite Nat.add_0_r. repeat split; try assumption.
    exists c. split; [exact Hc|ring].
  - pose proof (bytes_ok_nth ri R Hb) as Hbi. unfold is_byte in Hbi.
    change (2 ^ 8) with 256 in Hbi.
    set (xb := if (ri <? List.length x)%nat then nth ri x stray else 0).
    assert (Hxb : 0 <= xb < 256
                  /\ le_value (firstn (S ri) x)
                     = le_value (firstn ri x) + radix ri * xb).
    { unfold xb. destruct (ri <? List.length x)%nat eqn:E.
      - apply Nat.ltb_lt in E. rewrite nth_stray by exact E.
        split; [apply (bytes_ok_nth ri x x_ok)|].
        apply le_value_firstn_S. exact E.
      - apply Nat.ltb_ge in E. split; [lia|].
        rewrite le_value_firstn_beyond by exact E. ring. }
    destruct Hxb as [Hxb Hxv].
    set (t := nth ri R 0 - xb - c).
    pose proof (borrow_step t ltac:(unfold t; lia)) as Hstep.
    set (c2 := if 255 <? uint16 t then 1 else 0) in *.
    assert (Hc2 : 0 <= c2 <= 1) by (unfold c2; destruct (255 <? uint16 t); lia).
    specialize (IH (S ri) c2 (set ri (byte (uint16 t)) R)).
    cbv zeta in IH.
    destruct IH as (L & B & c' & C & V).
    + rewrite length_set. lia.
    + apply bytes_ok_set; [apply is_byte_byte|exact Hb].
    + exact Hc2.
    + rewrite length_set in L.
      replace (S ri + n)%nat with (ri + S n)%nat in * by lia.
      repeat split; try assumption.
      exists c'. split; [exact C|].
      rewrite V. rewrite le_value_firstn_set by lia.
      rewrite Hxv, radix_S, Hstep. unfold t. ring.
Qed.

End QuoremLoops.

Section QuoremBit.

Variable stray : Z.
Variables y x : list Z.
Hypothesis y_ok : bytes_ok y.
Hypothesis x_ok : bytes_ok x.
Hypothesis x_normalized : normalized x.
Hypothesis x_positive : 0 < le_value x.
Hypothesis x_sized : Z.of_nat (List.length x) < 2 ^ 31 - 1.

Lemma divisor_bounds :
  radix (List.length x - 1) <= le_value x < radix (List.length x).
Proof.
  split; [|apply le_value_bound; exact x_ok].
  apply normalized_lower; try assumption.
  intros ->. change (le_value []) with 0 in x_positive. lia.
Qed.

Lemma divisor_nonempty : (0 < List.length x)%nat.
Proof.
  destruct x; [|simpl; lia].
  change (le_value []) with 0 in x_positive. lia.
Qed.

Lemma numerator_bit (bit yb : Z) :
  0 <= bit < 8 -> is_byte yb ->
  let c := uint16 (Z.land (Z.shiftr yb bit) 1) in
  c = (yb / 2 ^ bit) mod 2 /\ 0 <= c <= 1.
Proof.
  intros Hbit Hyb.
  assert (H : numerator_bit_check bit yb = true).
  { apply (bit_cases (fun bit => forallb (fun n => numerator_bit_check bit (Z.of_nat n))
                                         (seq 0 256))) in Hbit.
    - rewrite forallb_forall in Hbit. unfold is_byte in Hyb.
      change (2 ^ 8) with 256 in Hyb.
      specialize (Hbit (Z.to_nat yb)). rewrite Z2Nat.id in Hbit by lia.
      apply Hbit. apply in_seq. lia.
    - vm_compute. reflexivity. }
  unfold numerator_bit_check in H. cbv zeta in *.
  apply andb_true_iff in H. destruct H as [H H3].
  apply andb_true_iff in H. destruct H as [H1 H2].
  apply Z.eqb_eq in H1. apply Z.leb_le in H2. apply Z.leb_le in H3.
  auto.
Qed.

Lemma sgn_nonneg (a b : Z) : Z.sgn a = Z.sgn b -> (0 <= a <-> 0 <= b).
Proof.
  intros H. destruct (Z.sgn_spec a) as [[? E]|[[? E]|[? E]]];
    destruct (Z.sgn_spec b) as [[? F]|[[? F]|[? F]]]; lia.
Qed.

(** The shifted remainder, with the byte of its carry. *)
Lemma quorem_compare (R : list Z) (rs : nat) (c0 : Z) :
  remainder_ok x R rs -> 0 <= c0 <= 1 ->
  forall c delta R1,
    quorem_shift stray rs x 0 c0 0 R = (c, delta, R1) ->
    let '(delta, R2, rs2) :=
      if c =? 0 then (delta, R1, rs)
      else
        let d := c - nth rs x stray in
        let delta := if d =? 0 then delta else d in
        (delta, set rs (byte c) R1, S rs) in
    let delta :=
      if (rs2 =? List.length x)%nat then delta
      else int32 (int32 (Z.of_nat rs2) - int32 (Z.of_nat (List.length x))) in
    let r2 := 2 * le_value (firstn rs R) + c0 in
    List.length R2 = List.length R /\ bytes_ok R2
    /\ (rs2 <= List.length R)%nat
    /\ le_value (firstn rs2 R2) = r2
    /\ (0 <= delta <-> le_value x <= r2)
    /\ (rs2 = 0%nat \/ radix (rs2 - 1) <= r2).
Proof.
  intros (LR & BR & Hrs & NR & VR) Hc0 c delta R1 Hrun.
  pose proof divisor_bounds as Bx. pose proof divisor_nonempty as Nx.
  apply quorem_shift_spec in Hrun; try assumption; try lia;
    [|reflexivity].
  destruct Hrun as (L1 & B1 & C1 & V1 & D1).
  simpl Nat.add in V1, D1. simpl firstn in V1 at 3.
  change (le_value []) with 0 in V1. rewrite radix_0 in V1.
  pose proof (le_value_bound _ (bytes_ok_firstn rs R1 B1)) as Bd1.
  rewrite firstn_length_le in Bd1 by lia.
  assert (Hlow : rs = 0%nat \/ radix (rs - 1) <= le_value (firstn rs R)).
  { destruct rs as [|k]; [left; reflexivity|right].
    pose proof (normalized_lower _ (bytes_ok_firstn (S k) R BR) NR) as H.
    rewrite firstn_length_le in H by lia. apply H.
    destruct R; simpl in LR; [lia|discriminate]. }
  destruct (c =? 0) eqn:Ec; cbv beta iota zeta.
  - apply Z.eqb_eq in Ec. subst c.
    destruct (rs =? List.length x)%nat eqn:Ers.
    + apply Nat.eqb_eq in Ers.
      rewrite Ers, (firstn_all x) in D1.
      repeat split; try assumption; try lia.
      * apply sgn_nonneg in D1. rewrite <- Ers in D1. lia.
      * apply sgn_nonneg in D1. rewrite <- Ers in D1. lia.
    + apply Nat.eqb_neq in Ers.
      rewrite (int32_small (Z.of_nat rs)) by lia.
      rewrite (int32_small (Z.of_nat (List.length x))) by lia.
      rewrite int32_small by lia.
      pose proof (radix_le rs (List.length x - 1) ltac:(lia)).
      repeat split; try assumption; try lia.
  - apply Z.eqb_neq in Ec. assert (c = 1) by lia. subst c.
    assert (V2 : le_value (firstn (S rs) (set rs (byte 1) R1))
                 = 2 * le_value (firstn rs R) + c0).
    { rewrite le_value_firstn_S by (rewrite length_set; lia).
      rewrite firstn_set_ge by lia. rewrite nth_set_eq by lia.
      change (byte 1) with 1. lia. }
    assert (B2 : bytes_ok (set rs (byte 1) R1))
      by (apply bytes_ok_set; [apply is_byte_byte|exact B1]).
    destruct (S rs =? List.length x)%nat eqn:Ers.
    + apply Nat.eqb_eq in Ers.
      rewrite (nth_stray rs x stray) by lia.
      pose proof (le_value_bound _ (bytes_ok_firstn rs x x_ok)) as Bdx.
      rewrite firstn_length_le in Bdx by lia.
      pose proof (sgn_step delta (1 - nth rs x 0) _ _ (radix rs) Bd1 Bdx D1)
        as D2.
      replace (le_value (firstn rs R1) - le_value (firstn rs x)
               + radix rs * (1 - nth rs x 0))
        with (2 * le_value (firstn rs R) + c0 - le_value x) in D2.
      * apply sgn_nonneg in D2.
        rewrite length_set. simpl Nat.sub. rewrite Nat.sub_0_r.
        repeat split; try assumption; try lia.
      * rewrite <- (firstn_all x) at 1. rewrite <- Ers.
        rewrite le_value_firstn_S by lia. lia.
    + apply Nat.eqb_neq in Ers.
      rewrite (int32_small (Z.of_nat (S rs))) by lia.
      rewrite (int32_small (Z.of_nat (List.length x))) by lia.
      rewrite int32_small by lia.
      rewrite length_set. simpl Nat.sub. rewrite Nat.sub_0_r.
      destruct (Nat.eq_dec rs (List.length x)) as [Eq|Ne].
      * rewrite <- Eq in Bx. repeat split; try assumption; try lia.
      * pose proof (radix_le (S rs) (List.length x - 1) ltac:(lia)).
        rewrite radix_S in *.
        repeat split; try assumption; try lia.
Qed.

(** One bit of the numerator: the remainder is doubled, takes the bit, and
    gives [x] up when it has reached it; the quotient then gets its bit. *)
Lemma quorem_bit_spec (yi : nat) (bit : Z) (st : quorem_state) :
  0 <= bit < 8 ->
  remainder_ok x (remainder st) (rs st) ->
  let st' := quorem_bit stray y x yi bit st in
  let r2 := 2 * le_value (firstn (rs st) (remainder st))
            + (nth yi y 0 / 2 ^ bit) mod 2 in
  remainder_ok x (remainder st') (rs st')
  /\ ((le_value x <= r2
       /\ le_value (firstn (rs st') (remainder st')) = r2 - le_value x
       /\ quotient st'
          = set yi (byte (Z.lor (nth yi (quotient st) 0) (Z.shiftl 1 bit)))
                (quotient st)
       /\ qs st' = (if (qs st <? yi + 1)%nat then (yi + 1)%nat else qs st))
      \/ (r2 < le_value x
          /\ le_value (firstn (rs st') (remainder st')) = r2
          /\ quotient st' = quotient st
          /\ qs st' = qs st)).
Proof.
  intros Hbit Hrem. destruct st as [Q R rs0 qs0]. simpl in Hrem.
  cbn [quotient remainder rs qs].
  pose proof (numerator_bit bit (nth yi y 0) Hbit (bytes_ok_nth yi y y_ok))
    as Hnb. cbv zeta in Hnb. destruct Hnb as [Hc0 Hc01].
  unfold quorem_bit. cbn [quotient remainder rs qs].
  set (c0 := uint16 (Z.land (Z.shiftr (nth yi y 0) bit) 1)) in *.
  rewrite <- Hc0.
  destruct (quorem_shift stray rs0 x 0 c0 0 R) as [[c delta] R1] eqn:Hs.
  pose proof (quorem_compare R rs0 c0 Hrem Hc01 c delta R1 Hs) as H.
  revert H.
  destruct (if c =? 0 then (delta, R1, rs0)
            else (if c - nth rs0 x stray =? 0 then delta
                  else c - nth rs0 x stray,
                  set rs0 (byte c) R1, S rs0)) as [[delta2 R2] rs2].
  cbv beta iota zeta.
  set (delta3 := if (rs2 =? List.length x)%nat then delta2
                 else int32 (int32 (Z.of_nat rs2)
                             - int32 (Z.of_nat (List.length x)))).
  intros (L2 & B2 & Hrs2 & V2 & D2 & Low2).
  destruct Hrem as (LR & BR & Hrs & NR & VR).
  pose proof divisor_bounds as Bx.
  pose proof (le_value_bound _ (bytes_ok_firstn rs0 R BR)) as Br.
  destruct (0 <=? delta3) eqn:Ed; cbn [quotient remainder rs qs].
  - apply Z.leb_le in Ed. apply D2 in Ed.
    pose proof (quorem_sub_spec stray x x_ok rs2 0 0 R2 ltac:(simpl; lia) B2
                  ltac:(lia)) as Hsub.
    cbv zeta in Hsub. simpl Nat.add in Hsub.
    set (R3 := quorem_sub stray rs2 x 0 0 R2) in *.
    destruct Hsub as (L3 & B3 & c' & C' & V3).
    simpl firstn in V3 at 4. change (le_value []) with 0 in V3.
    rewrite radix_0 in V3.
    pose proof (le_value_bound _ (bytes_ok_firstn rs2 R2 B2)) as Bd2.
    rewrite firstn_length_le in Bd2 by lia.
    pose proof (le_value_bound _ (bytes_ok_firstn rs2 R3 B3)) as Bd3.
    rewrite firstn_length_le in Bd3 by lia.
    assert (Hxs : (List.length x <= rs2)%nat).
    { apply normalized_length; try assumption. lia. }
    rewrite (firstn_all2 (n := rs2) x) in V3 by exact Hxs.
    assert (c' = 0) by nia. subst c'.
    assert (V4 : le_value (firstn (strip rs2 R3) R3)
                 = 2 * le_value (firstn rs0 R) + c0 - le_value x).
    { rewrite strip_value by lia. lia. }
    split.
    + repeat split.
      * lia.
      * exact B3.
      * pose proof (strip_le rs2 R3) as Hst.
        pose proof (normalized_length (firstn (strip rs2 R3) R3)
                      (List.length x) (bytes_ok_firstn _ R3 B3)
                      (strip_normalized rs2 R3 ltac:(lia)) ltac:(lia)) as Hl.
        rewrite firstn_length_le in Hl by lia. exact Hl.
      * apply strip_normalized. lia.
      * lia.
    + left. repeat split; try assumption; try lia.
  - apply Z.leb_gt in Ed.
    assert (Hlt : 2 * le_value (firstn rs0 R) + c0 < le_value x).
    { destruct (Z.lt_ge_cases (2 * le_value (firstn rs0 R) + c0) (le_value x))
        as [Hl|Hg]; [exact Hl|]. apply D2 in Hg. lia. }
    assert (N2 : normalized (firstn rs2 R2)).
    { apply lower_normalized; [apply bytes_ok_firstn; exact B2|].
      destruct Low2 as [->|Hl]; [left; reflexivity|right].
      rewrite firstn_length_le by lia. lia. }
    split.
    + repeat split; try assumption; try lia.
      pose proof (normalized_length (firstn rs2 R2) (List.length x)
                    (bytes_ok_firstn rs2 R2 B2) N2 ltac:(lia)) as Hl.
      rewrite firstn_length_le in Hl by lia. exact Hl.
    + right. repeat split; try assumption; try lia.
Qed.

End QuoremBit.

Section QuotientBuffer.

Lemma set_set (i : nat) (v w : Z) (l : list Z) :
  set i v (set i w l) = set i v l.
Proof.
  revert i. induction l as [|h t IH]; intros [|i]; simpl; try reflexivity.
  f_equal. apply IH.
Qed.

Lemma set_same (i : nat) (l : list Z) :
  (i < List.length l)%nat -> set i (nth i l 0) l = l.
Proof.
  revert i. induction l as [|h t IH]; intros [|i] H; simpl in *; try lia.
  - reflexivity.
  - f_equal. apply IH. lia.
Qed.

Lemma skipn_set (i : nat) (v : Z) (l : list Z) :
  (i < List.length l)%nat -> skipn i (set i v l) = v :: skipn (S i) l.
Proof.
  revert i. induction l as [|h t IH]; intros [|i] H; simpl in H; try lia.
  - reflexivity.
  - simpl set. simpl skipn at 1. rewrite IH by lia. reflexivity.
Qed.

Lemma quotient_ok_set (Q : list Z) (qs yi : nat) (v : Z) :
  quotient_ok Q qs -> (yi < List.length Q)%nat -> v <> 0 ->
  quotient_ok (set yi v Q) (if (qs <? yi + 1)%nat then (yi + 1)%nat else qs).
Proof.
  intros (Hle & Hz & Hnz) Hyi Hv. unfold quotient_ok. rewrite length_set.
  destruct (qs <? yi + 1)%nat eqn:E.
  - apply Nat.ltb_lt in E. repeat split.
    + lia.
    + intros j Hj. rewrite nth_set_neq by lia. apply Hz. lia.
    + intros _. replace (yi + 1 - 1)%nat with yi by lia.
      rewrite nth_set_eq by lia. exact Hv.
  - apply Nat.ltb_ge in E. repeat split.
    + exact Hle.
    + intros j Hj. rewrite nth_set_neq by lia. apply Hz. exact Hj.
    + intros Hq. destruct (Nat.eq_dec yi (qs - 1)) as [->|Hne].
      * rewrite nth_set_eq by lia. exact Hv.
      * rewrite nth_set_neq by lia. apply Hnz. exact Hq.
Qed.

Lemma quotient_ok_value (Q : list Z) (qs : nat) :
  quotient_ok Q qs ->
  le_value (firstn qs Q) = le_value Q /\ normalized (firstn qs Q).
Proof.
  intros (Hle & Hz & Hnz). split.
  - rewrite <- (firstn_skipn qs Q) at 2. rewrite le_value_app.
    assert (H0 : le_value (skipn qs Q) = 0).
    { assert (Hall : forall j, nth j (skipn qs Q) 0 = 0).
      { intros j. rewrite nth_skipn. apply Hz. lia. }
      clear -Hall. induction (skipn qs Q) as [|h t IH]; [reflexivity|].
      rewrite le_value_cons. rewrite (Hall 0%nat : h = 0).
      rewrite IH; [reflexivity|]. intros j. apply (Hall (S j)). }
    rewrite H0. lia.
  - destruct qs as [|k]; [unfold normalized; simpl; lia|].
    unfold normalized. rewrite last_firstn_S by lia.
    replace k with (S k - 1)%nat by lia. apply Hnz. lia.
Qed.

Lemma set_bit_checked (bit qb : Z) :
  0 <= bit < 8 -> is_byte qb -> set_bit_check bit qb = true.
Proof.
  intros Hbit Hqb.
  apply (bit_cases (fun bit => forallb (fun n => set_bit_check bit (Z.of_nat n))
                                       (seq 0 256))) in Hbit.
  - rewrite forallb_forall in Hbit. unfold is_byte in Hqb.
    change (2 ^ 8) with 256 in Hqb.
    specialize (Hbit (Z.to_nat qb)). rewrite Z2Nat.id in Hbit by lia.
    apply Hbit. apply in_seq. lia.
  - vm_compute. reflexivity.
Qed.

Lemma div2_step (a bit : Z) :
  0 <= bit -> a / 2 ^ bit = 2 * (a / 2 ^ (bit + 1)) + (a / 2 ^ bit) mod 2.
Proof.
  intros Hbit. rewrite Z.pow_add_r by lia. change (2 ^ 1) with 2.
  rewrite <- Z.div_div by (try apply Z.pow_pos_nonneg; lia).
  apply Z.div_mod. lia.
Qed.

End QuotientBuffer.

Section QuoremBits.

Variable stray : Z.
Variables y x : list Z.
Hypothesis y_ok : bytes_ok y.
Hypothesis x_ok : bytes_ok x.
Hypothesis x_normalized : normalized x.
Hypothesis x_positive : 0 < le_value x.
Hypothesis x_sized : Z.of_nat (List.length x) < 2 ^ 31 - 1.

Variable yi : nat.
Variable Q0 : list Z.
Variable r0 : Z.
Hypothesis yi_in : (yi < List.length Q0)%nat.

Lemma quorem_bits_spec (n : nat) :
  forall st : quorem_state,
    (n <= 8)%nat -> bits_ok y x yi Q0 r0 n st ->
    bits_ok y x yi Q0 r0 0 (quorem_bits stray n y x yi st).
Proof.
  induction n as [|bit IH]; intros st Hn Hst; cbn [quorem_bits].
  - exact Hst.
  - apply IH; [lia|].
    destruct Hst as (Hrem & Hq & h & Hh & Hb & HQ & Hv).
    assert (Hbit : 0 <= Z.of_nat bit < 8) by lia.
    pose proof (quorem_bit_spec stray y x y_ok x_ok x_normalized x_positive
                  x_sized yi (Z.of_nat bit) st Hbit Hrem) as Hstep.
    cbv zeta in Hstep.
    set (st' := quorem_bit stray y x yi (Z.of_nat bit) st) in *.
    destruct Hstep as (Hrem' & Hcase).
    rewrite Nat2Z.inj_succ in Hb, HQ, Hv.
    replace (Z.succ (Z.of_nat bit)) with (Z.of_nat bit + 1) in * by lia.
    pose proof (div2_step (nth yi y 0) (Z.of_nat bit) ltac:(lia)) as Hd.
    assert (Hp : 0 < 2 ^ Z.of_nat bit) by (apply Z.pow_pos_nonneg; lia).
    assert (Hp2 : 2 ^ (Z.of_nat bit + 1) = 2 * 2 ^ Z.of_nat bit)
      by (rewrite Z.pow_add_r by lia; change (2 ^ 1) with 2; ring).
    assert (Hp3 : 2 ^ (8 - Z.of_nat bit)
                  = 2 * 2 ^ (8 - (Z.of_nat bit + 1))).
    { replace (8 - Z.of_nat bit) with (1 + (8 - (Z.of_nat bit + 1))) by lia.
      rewrite Z.pow_add_r by lia. reflexivity. }
    set (qb := h * 2 ^ (Z.of_nat bit + 1)) in *.
    assert (Hqb : is_byte qb).
    { unfold is_byte, qb. change (2 ^ 8) with 256. rewrite Hp2. nia. }
    assert (Hnth : nth yi (quotient st) 0 = qb)
      by (rewrite HQ; apply nth_set_eq; exact yi_in).
    destruct Hcase as [(Hge & Hr' & HQ' & Hqs')|(Hlt & Hr' & HQ' & Hqs')].
    + pose proof (set_bit_checked (Z.of_nat bit) qb Hbit Hqb) as Hck.
      unfold set_bit_check in Hck.
      assert (Hmod : qb mod 2 ^ (Z.of_nat bit + 1) = 0)
        by (unfold qb; apply Z.mod_mul; lia).
      rewrite Hmod in Hck. simpl negb in Hck. cbv iota in Hck.
      apply andb_true_iff in Hck. destruct Hck as [Hck1 Hck2].
      apply Z.eqb_eq in Hck1. apply Z.ltb_lt in Hck2.
      rewrite Hnth, Hck1 in HQ'.
      split; [exact Hrem'|split].
      * rewrite HQ', Hqs'. apply quotient_ok_set; try assumption.
        -- rewrite HQ. rewrite length_set. exact yi_in.
        -- unfold is_byte in Hqb. lia.
      * exists (2 * h + 1). repeat split.
        -- lia.
        -- unfold qb in Hck2. rewrite Hp2 in Hck2. lia.
        -- rewrite HQ', HQ, set_set. f_equal. unfold qb. rewrite Hp2. ring.
        -- rewrite Hr', Hp3. lia.
    + split; [exact Hrem'|split].
      * rewrite HQ', Hqs'. exact Hq.
      * exists (2 * h). repeat split.
        -- lia.
        -- unfold qb in Hb. rewrite Hp2 in Hb. lia.
        -- rewrite HQ', HQ. f_equal. unfold qb. rewrite Hp2. ring.
        -- rewrite Hr', Hp3. lia.
Qed.

End QuoremBits.

Section QuoremBytes.

Variable stray : Z.
Variables y x : list Z.
Hypothesis y_ok : bytes_ok y.
Hypothesis x_ok : bytes_ok x.
Hypothesis x_normalized : normalized x.
Hypothesis x_positive : 0 < le_value x.
Hypothesis x_sized : Z.of_nat (List.length x) < 2 ^ 31 - 1.

Lemma bits_entry (yi : nat) (st : quorem_state) :
  (S yi <= List.length y)%nat -> bytes_done y x (S yi) st ->
  bits_ok y x yi (quotient st)
          (le_value (firstn (rs st) (remainder st))) 8 st.
Proof.
  intros Hn (Hrem & Hq & HL & HB & Hz & Hv).
  assert (Hyi : (yi < List.length (quotient st))%nat) by lia.
  pose proof (bytes_ok_nth yi y y_ok) as Hyb. unfold is_byte in Hyb.
  change (2 ^ 8) with 256 in Hyb.
  split; [exact Hrem|split; [exact Hq|]].
  assert (E1 : 2 ^ Z.of_nat 8 = 256) by reflexivity.
  assert (E2 : 2 ^ (8 - Z.of_nat 8) = 1) by reflexivity.
  exists 0. rewrite E1, E2. split; [lia|split; [lia|split]].
  - rewrite Z.mul_0_l.
    rewrite <- (Hz yi ltac:(lia)) at 1. symmetry. apply set_same.
    exact Hyi.
  - rewrite Z.div_small by lia. lia.
Qed.

Lemma bits_exit (yi : nat) (st st' : quorem_state) :
  (S yi <= List.length y)%nat -> bytes_done y x (S yi) st ->
  bits_ok y x yi (quotient st)
          (le_value (firstn (rs st) (remainder st))) 0 st' ->
  bytes_done y x yi st'.
Proof.
  intros Hn (Hrem & Hq & HL & HB & Hz & Hv)
         (Hrem' & Hq' & h & Hh & Hb & HQ & Hv').
  assert (Hyi : (yi < List.length (quotient st))%nat) by lia.
  assert (E1 : 2 ^ Z.of_nat 0 = 1) by reflexivity.
  assert (E2 : 2 ^ (8 - Z.of_nat 0) = 256) by reflexivity.
  rewrite E1 in Hb, HQ, Hv'. rewrite E2 in Hv'. clear E1 E2.
  rewrite Z.mul_1_r in Hb, HQ. rewrite Z.div_1_r in Hv'.
  split; [exact Hrem'|split; [exact Hq'|]].
  split; [|split; [|split]].
  - rewrite HQ, length_set. exact HL.
  - rewrite HQ. apply bytes_ok_set; [unfold is_byte; lia|exact HB].
  - intros j Hj. rewrite HQ. rewrite nth_set_neq by lia. apply Hz. lia.
  - rewrite HQ. rewrite skipn_set by exact Hyi.
    rewrite (le_value_skipn y yi) by lia.
    rewrite le_value_cons. rewrite Hv. lia.
Qed.

Lemma quorem_byte_spec (yi : nat) (st : quorem_state) :
  (S yi <= List.length y)%nat -> bytes_done y x (S yi) st ->
  bytes_done y x yi (quorem_byte stray y x yi st).
Proof.
  intros Hn Hst. unfold quorem_byte.
  apply (bits_exit yi st _ Hn Hst).
  apply (quorem_bits_spec stray y x y_ok x_ok x_normalized x_positive
           x_sized yi (quotient st)); [|apply le_n|].
  - destruct Hst as (_ & _ & HL & _). lia.
  - apply bits_entry; assumption.
Qed.

Lemma quorem_bytes_spec (n : nat) :
  forall st : quorem_state,
    (n <= List.length y)%nat -> bytes_done y x n st ->
    bytes_done y x 0 (quorem_bytes stray y x st n).
Proof.
  induction n as [|yi IH]; intros st Hn Hst; cbn [quorem_bytes].
  - exact Hst.
  - apply IH; [lia|]. apply quorem_byte_spec; assumption.
Qed.

Lemma quorem_bytes_value :
  let st := quorem_bytes stray y x
              {| quotient := repeat 0 (List.length y);
                 remainder := repeat 0 (List.length x + 1);
                 rs := 0; qs := 0 |} (List.length y) in
  bytes_ok (quotient st) /\ bytes_ok (remainder st)
  /\ List.length (quotient st) = List.length y
  /\ (qs st <= List.length y)%nat
  /\ (rs st <= List.length x)%nat
  /\ (rs st <= List.length (remainder st))%nat
  /\ normalized (firstn (qs st) (quotient st))
  /\ normalized (firstn (rs st) (remainder st))
  /\ le_value (firstn (qs st) (quotient st)) = le_value y / le_value x
  /\ le_value (firstn (rs st) (remainder st)) = le_value y mod le_value x.
Proof.
  set (init := {| quotient := repeat 0 (List.length y);
                  remainder := repeat 0 (List.length x + 1);
                  rs := 0; qs := 0 |}).
  assert (Hinit : bytes_done y x (List.length y) init).
  { unfold bytes_done, init; cbn [quotient remainder rs qs].
    repeat split.
    - rewrite repeat_length. lia.
    - apply bytes_ok_repeat.
    - lia.
    - unfold normalized. simpl. lia.
    - simpl. exact x_positive.
    - lia.
    - intros j _. apply nth_repeat.
    - intros H. contradiction.
    - apply repeat_length.
    - apply bytes_ok_repeat.
    - intros j _. apply nth_repeat.
    - rewrite !skipn_all2 by (rewrite ?repeat_length; lia).
      reflexivity. }
  apply (quorem_bytes_spec (List.length y) init (le_n _)) in Hinit.
  cbv zeta. fold init.
  remember (quorem_bytes stray y x init (List.length y)) as st eqn:Est.
  clear Est.
  destruct Hinit as (Hrem & Hq & HL & HB & _ & Hv).
  destruct Hrem as (LR & BR & Hrs & NR & VR).
  pose proof (quotient_ok_value _ _ Hq) as (HQv & HQn).
  destruct Hq as (Hqs & _).
  simpl skipn in Hv.
  pose proof (le_value_bound _ (bytes_ok_firstn (rs st) (remainder st) BR))
    as Br.
  repeat split; try assumption; try lia.
  - rewrite HQv. apply Z.div_unique with
      (r := le_value (firstn (rs st) (remainder st))); [left; lia|lia].
  - apply Z.mod_unique with (q := le_value (quotient st)); [left; lia|lia].
Qed.

End QuoremBytes.

Section QuoremSpec.

Variable Settings : settings.
Variable stray : Z.

Lemma is_zero_value (p : list Z) :
  bytes_ok p -> (forallb (Z.eqb 0) p = true <-> le_value p = 0).
Proof.
  induction 1 as [|h t Hh Ht IH]; [split; reflexivity|].
  pose proof (le_value_bound t Ht) as B. unfold is_byte in Hh.
  cbn [forallb]. rewrite le_value_cons, andb_true_iff, Z.eqb_eq, IH. lia.
Qed.

Lemma le_value_firstn_mod (n : nat) (p : list Z) :
  bytes_ok p -> le_value (firstn n p) = le_value p mod radix n.
Proof.
  intros Hp.
  pose proof (le_value_bound _ (bytes_ok_firstn n p Hp)) as B.
  destruct (Nat.le_gt_cases n (List.length p)) as [H|H].
  - rewrite firstn_length_le in B by exact H.
    rewrite <- (firstn_skipn n p) at 2. rewrite le_value_app.
    rewrite firstn_length_le by exact H.
    rewrite Z.mul_comm, Z.mod_add by (pose proof (radix_pos n); lia).
    symmetry. apply Z.mod_small. exact B.
  - rewrite firstn_all2 in * by lia.
    pose proof (radix_le (List.length p) n ltac:(lia)).
    symmetry. apply Z.mod_small. lia.
Qed.

(** The bytes of a result that [quorem] keeps. *)
Lemma quorem_result (xg : bignum) (B : list Z) (s : nat) :
  bytes_ok B -> (s <= List.length B)%nat -> normalized (firstn s B) ->
  let wbits := wordsize_of Settings (type xg) in
  let wbytes := ((wbits + 7) / 8)%nat in
  let s' := if negb (wbits =? 0)%nat && (wbytes <? s)%nat
            then wbytes else s in
  bytes_ok (firstn s' B)
  /\ le_value (firstn s' B) = quorem_cut Settings xg (le_value (firstn s B))
  /\ (List.length (firstn s' B) <= s)%nat
  /\ (wbits = 0%nat -> normalized (firstn s' B)).
Proof.
  intros HB Hs HN. cbv zeta. unfold quorem_cut.
  set (wbits := wordsize_of Settings (type xg)).
  set (wbytes := ((wbits + 7) / 8)%nat).
  pose proof (le_value_bound _ (bytes_ok_firstn s B HB)) as Bd.
  rewrite firstn_length_le in Bd by exact Hs.
  destruct (wbits =? 0)%nat eqn:E0; cbn [negb andb].
  - split; [|split; [|split]].
    + apply bytes_ok_firstn. exact HB.
    + reflexivity.
    + rewrite firstn_length_le; lia.
    + intros _. exact HN.
  - destruct (wbytes <? s)%nat eqn:E.
    + apply Nat.ltb_lt in E. split; [|split; [|split]].
      * apply bytes_ok_firstn. exact HB.
      * replace (firstn wbytes B) with (firstn wbytes (firstn s B))
          by (rewrite firstn_firstn; f_equal; lia).
        apply le_value_firstn_mod. apply bytes_ok_firstn. exact HB.
      * rewrite firstn_length_le; lia.
      * intros H0. apply Nat.eqb_neq in E0. contradiction.
    + apply Nat.ltb_ge in E. split; [|split; [|split]].
      * apply bytes_ok_firstn. exact HB.
      * pose proof (radix_le s wbytes E). rewrite Z.mod_small; lia.
      * rewrite firstn_length_le; lia.
      * intros H0. apply Nat.eqb_neq in E0. contradiction.
Qed.

Lemma quorem_total (yg xg : bignum) :
  bytes_ok (value yg) -> bytes_ok (value xg) -> normalized (value xg) ->
  Z.of_nat (List.length (value xg)) < 2 ^ 31 - 1 ->
  is_zero xg = false ->
  exists qv rv : list Z,
    (forall (ty : id) (q r : bool) (rt : runtime),
        quorem Settings stray yg xg ty q r rt
        = ((true,
            if q then Some {| type := ty; value := qv |} else None,
            if r then Some {| type := ty; value := rv |} else None), rt))
    /\ bytes_ok qv /\ bytes_ok rv
    /\ le_value qv = quorem_cut Settings xg (magnitude yg / magnitude xg)
    /\ le_value rv = quorem_cut Settings xg (magnitude yg mod magnitude xg)
    /\ (List.length qv <= List.length (value yg))%nat
    /\ (List.length rv <= List.length (value xg))%nat
    /\ (wordsize_of Settings (type xg) = 0%nat ->
        normalized qv /\ normalized rv).
Proof.
  intros Hy Hx Nx Sx Hz.
  assert (Xpos : 0 < le_value (value xg)).
  { pose proof (le_value_bound _ Hx) as B.
    destruct (Z.eq_dec (le_value (value xg)) 0) as [E|E]; [|lia].
    apply (is_zero_value _ Hx) in E. unfold is_zero in Hz. congruence. }
  pose proof (quorem_bytes_value stray (value yg) (value xg) Hy Hx Nx Xpos Sx)
    as H. cbv zeta in H.
  unfold quorem. rewrite Hz.
  remember (quorem_bytes stray (value yg) (value xg)
              {| quotient := repeat 0 (List.length (value yg));
                 remainder := repeat 0 (List.length (value xg) + 1);
                 rs := 0; qs := 0 |} (List.length (value yg))) as st eqn:Est.
  clear Est.
  destruct H as (BQ & BR & LQ & Hqs & Hrs & HrsR & NQ & NR & VQ & VR).
  pose proof (quorem_result xg (quotient st) (qs st) BQ ltac:(lia) NQ) as HQ.
  pose proof (quorem_result xg (remainder st) (rs st) BR HrsR NR) as HR.
  cbv zeta in HQ, HR. rewrite VQ in HQ. rewrite VR in HR.
  destruct HQ as (HQ1 & HQ2 & HQ3 & HQ4).
  destruct HR as (HR1 & HR2 & HR3 & HR4).
  eexists. eexists. split.
  - intros ty q r rt. unfold make_bignum, ret. destruct q, r; reflexivity.
  - unfold magnitude.
    split; [exact HQ1|]. split; [exact HR1|]. split; [exact HQ2|].
    split; [exact HR2|]. split; [lia|]. split; [lia|].
    intros H0. split; [apply HQ4|apply HR4]; exact H0.
Qed.

Lemma quorem_zero (yg xg : bignum) (ty : id) (q r : bool) (rt : runtime) :
  is_zero xg = true ->
  quorem Settings stray yg xg ty q r rt
  = ((false, None, None), {| Error := Some Errors.zero_divide |}).
Proof. intros Hz. unfold quorem. rewrite Hz. reflexivity. Qed.

End QuoremSpec.

(* ========================================================================= *)
(** * Division: quotient, remainder and the zero divisor                     *)
(* ========================================================================= *)

Section Division.

Variable Settings : settings.
Variable product_type : id -> id -> id.
Variable stray : Z.

Lemma wordsize_of_signed (t : id) :
  is_based t = false -> wordsize_of Settings t = 0%nat.
Proof. intros H. unfold wordsize_of. rewrite H. reflexivity. Qed.

Lemma quorem_cut_signed (xg : bignum) (v : Z) :
  is_based (type xg) = false -> quorem_cut Settings xg v = v.
Proof.
  intros H. unfold quorem_cut. rewrite wordsize_of_signed by exact H.
  reflexivity.
Qed.

Lemma magnitude_of_nonzero (b : bignum) :
  bytes_ok (value b) -> is_zero b = false -> 0 < magnitude b.
Proof.
  intros Hb Hz. pose proof (le_value_bound _ Hb) as B. unfold magnitude.
  destruct (Z.eq_dec (le_value (value b)) 0) as [E|E]; [|lia].
  apply (is_zero_value _ Hb) in E. unfold is_zero in Hz. congruence.
Qed.

End Division.




(** C2.  With [x] zero, [quorem] raises [zero_divide], returns false and
    stores neither quotient nor remainder; [operator/] and [operator%] then
    return [nullptr]. *)
Theorem quorem_zero_divide
  (Settings : settings) (product_type : id -> id -> id) (stray : Z)
  (y x : bignum) (ty : id) (q r : bool) (rt : runtime) :
  is_zero x = true ->
  quorem Settings stray y x ty q r rt
  = ((false, None, None), {| Error := Some Errors.zero_divide |})
  /\ operator_div Settings product_type stray (Some y) (Some x) rt
     = (None, {| Error := Some Errors.zero_divide |})
  /\ operator_rem Settings stray (Some y) (Some x) rt
     = (None, {| Error := Some Errors.zero_divide |}).
Proof.
  intros Hz. split; [|split].
  - apply quorem_zero. exact Hz.
  - unfold operator_div, bind, ret. rewrite quorem_zero by exact Hz.
    reflexivity.
  - unfold operator_rem, bind, ret. rewrite quorem_zero by exact Hz.
    reflexivity.
Qed.

Lemma quorem_zero_divide_witness :
  is_zero (big ID_bignum 0) = true
  /\ quorem example_settings 0 (big ID_bignum 379) (big ID_bignum 0)
            ID_bignum true true no_error
     = ((false, None, None), {| Error := Some Errors.zero_divide |})
  /\ operator_div example_settings example_product_type 0
                  (Some (big ID_bignum 379)) (Some (big ID_bignum 0)) no_error
     = (None, {| Error := Some Errors.zero_divide |})
  /\ operator_rem example_settings 0
                  (Some (big ID_bignum 379)) (Some (big ID_bignum 0)) no_error
     = (None, {| Error := Some Errors.zero_divide |}).
Proof.
  split; [reflexivity|].
  apply (quorem_zero_divide example_settings example_product_type 0
           (big ID_bignum 379) (big ID_bignum 0) ID_bignum true true
           no_error).
  reflexivity.
Defined.

(* ========================================================================= *)
(** * Multiplication, word size and [maxbignum]                              *)
(* ========================================================================= *)

(** C4, the claim as stated fails: with [maxbignum] at 1024 bits, the
    product of [2 ^ 1016] and [1] takes 1017 bits, 128 bytes, and [multiply]
    fails all the same: the two operands together take 129 bytes. *)
Lemma multiply_fails_within_maxbignum :
  multiply example_settings (big ID_bignum 1) (big ID_bignum (2 ^ 1016))
           ID_bignum no_error
  = (None, {| Error := Some Errors.number_too_big |})
  /\ bit_width (magnitude (big ID_bignum 1)
                * magnitude (big ID_bignum (2 ^ 1016)))
     <= Z.of_nat (maxbignum example_settings)
  /\ 8 * Z.of_nat (List.length (le_bytes (1 * 2 ^ 1016)))
     <= Z.of_nat (maxbignum example_settings).
Proof.
  split; [vm_compute; reflexivity|].
  split; vm_compute; discriminate.
Qed.

(** C4, as amended.  [multiply] fails with [number_too_big] exactly when the
    bytes of the two operands together, at 8 bits each, exceed [maxbignum];
    otherwise it returns, with the kind asked for, the product of the two
    magnitudes, reduced modulo [2 ^ (8 * ((W + 7) / 8))] when [x] is a based
    number with a word size of [W > 0] bits. *)
Theorem multiply_number_too_big
  (Settings : settings) (yg xg : bignum) (ty : id) (rt : runtime) :
  bytes_ok (value xg) -> bytes_ok (value yg) ->
  let bits := ((List.length (value xg) + List.length (value yg)) * 8)%nat in
  let W := wordsize_of Settings (type xg) in
  ((maxbignum Settings < bits)%nat ->
   multiply Settings yg xg ty rt
   = (None, {| Error := Some Errors.number_too_big |}))
  /\ ((bits <= maxbignum Settings)%nat ->
      exists r : bignum,
        multiply Settings yg xg ty rt = (Some r, rt)
        /\ type r = ty /\ bytes_ok (value r) /\ normalized (value r)
        /\ magnitude r
           = if (W =? 0)%nat then magnitude xg * magnitude yg
             else (magnitude xg * magnitude yg) mod radix ((W + 7) / 8)).
Proof.
  intros Hx Hy bits W.
  pose proof (multiply_total Settings yg xg ty rt Hx Hy) as H.
  fold bits in H. split.
  - intros Hlt. apply Nat.ltb_lt in Hlt. rewrite Hlt in H. exact H.
  - intros Hle. apply Nat.ltb_ge in Hle. rewrite Hle in H.
    destruct H as (r & Hrun & Ht & Hb & Hn & Hv).
    exists r. repeat split; try assumption.
    rewrite Hv. unfold W.
    destruct (wordsize_of Settings (type xg) =? 0)%nat eqn:E.
    + apply Nat.eqb_eq in E. apply multiply_width_exact; assumption.
    + apply Nat.eqb_neq in E. apply multiply_width_based; assumption.
Qed.

Lemma multiply_number_too_big_witness :
  bytes_ok (value (big ID_bignum 987654321))
  /\ bytes_ok (value (big ID_neg_bignum 123456789))
  /\ ((maxbignum example_settings < (4 + 4) * 8)%nat ->
      multiply example_settings (big ID_neg_bignum 123456789)
               (big ID_bignum 987654321) ID_neg_bignum no_error
      = (None, {| Error := Some Errors.number_too_big |}))
  /\ (((4 + 4) * 8 <= maxbignum example_settings)%nat ->
      exists r : bignum,
        multiply example_settings (big ID_neg_bignum 123456789)
                 (big ID_bignum 987654321) ID_neg_bignum no_error
        = (Some r, no_error)
        /\ type r = ID_neg_bignum
        /\ bytes_ok (value r) /\ normalized (value r)
        /\ magnitude r = 987654321 * 123456789).
Proof.
  assert (Hx : bytes_ok (value (big ID_bignum 987654321)))
    by (apply bytes_okb_true; reflexivity).
  assert (Hy : bytes_ok (value (big ID_neg_bignum 123456789)))
    by (apply bytes_okb_true; reflexivity).
  split; [exact Hx|]. split; [exact Hy|].
  exact (multiply_number_too_big example_settings
           (big ID_neg_bignum 123456789) (big ID_bignum 987654321)
           ID_neg_bignum no_error Hx Hy).
Defined.

(** C3, the claim as stated fails.  With a word size of 4 bits, the product
    of [#F] by [#F] is [#E1], which is not reduced modulo [2 ^ 4].  And with a
    word size of 16 bits, [quorem] cuts the quotient of [#10005] by [#1] to
    the two bytes [05 00], with a leading zero byte; on this divisor, the
    quotient of [#64] is 0 and the remainder [#64], not 20 and 0. *)
Lemma based_not_modulo_bits :
  multiply (settings_with_wordsize 4) (big ID_based_bignum 15)
           (big ID_based_bignum 15) ID_based_bignum no_error
  = (Some (big ID_based_bignum 225), no_error)
  /\ magnitude (big ID_based_bignum 225)
     <> (magnitude (big ID_based_bignum 15)
         * magnitude (big ID_based_bignum 15)) mod 2 ^ 4
  /\ quorem (settings_with_wordsize 16) 0 (big ID_based_bignum 65541)
            (big ID_based_bignum 1) ID_based_bignum true true no_error
     = ((true, Some {| type := ID_based_bignum; value := [5; 0] |},
               Some (big ID_based_bignum 0)), no_error)
  /\ quorem (settings_with_wordsize 16) 0 (big ID_based_bignum 100)
            {| type := ID_based_bignum; value := [5; 0] |}
            ID_based_bignum true true no_error
     = ((true, Some (big ID_based_bignum 0), Some (big ID_based_bignum 100)),
        no_error)
  /\ magnitude (big ID_based_bignum 0)
     <> (magnitude (big ID_based_bignum 100)
         / magnitude {| type := ID_based_bignum; value := [5; 0] |})
        mod 2 ^ 16.
Proof.
  split; [vm_compute; reflexivity|].
  split; [vm_compute; discriminate|].
  split; [vm_compute; reflexivity|].
  split; [vm_compute; reflexivity|vm_compute; discriminate].
Qed.

(** C3, as amended.  On based bignums with a word size of [W > 0] bits,
    multiplication, division and remainder return the mathematical result
    reduced modulo [2 ^ (8 * ((W + 7) / 8))], the word size rounded up to
    bytes, which is [2 ^ W] when [W] is a multiple of 8.  Multiplication does
    so when the bytes of the two operands are within [maxbignum], and fails
    with [number_too_big] otherwise.  Division and remainder do so when the
    divisor has no leading zero byte, has a size that fits an [int] and is
    not zero; the numerator may have leading zero bytes. *)
Theorem based_modulo_bytes
  (Settings : settings) (stray : Z) (yg xg : bignum) (ty : id)
  (rt : runtime) :
  bytes_ok (value yg) -> bytes_ok (value xg) ->
  is_based (type xg) = true -> (0 < wordsize Settings)%nat ->
  let W := wordsize Settings in
  let m := radix ((W + 7) / 8) in
  let bits := ((List.length (value xg) + List.length (value yg)) * 8)%nat in
  ((bits <= maxbignum Settings)%nat ->
   exists p : bignum,
     multiply Settings yg xg ty rt = (Some p, rt)
     /\ type p = ty
     /\ magnitude p = (magnitude yg * magnitude xg) mod m)
  /\ ((maxbignum Settings < bits)%nat ->
      multiply Settings yg xg ty rt
      = (None, {| Error := Some Errors.number_too_big |}))
  /\ (normalized (value xg) -> int_sized xg -> is_zero xg = false ->
      exists q r : bignum,
        quorem Settings stray yg xg ty true true rt
        = ((true, Some q, Some r), rt)
        /\ type q = ty /\ type r = ty
        /\ magnitude q = (magnitude yg / magnitude xg) mod m
        /\ magnitude r = (magnitude yg mod magnitude xg) mod m)
  /\ ((exists k : nat, W = (8 * k)%nat) -> m = 2 ^ Z.of_nat W).
Proof.
  intros Hy Hx Bx HW W m bits.
  assert (EW : wordsize_of Settings (type xg) = W)
    by (unfold wordsize_of; rewrite Bx; reflexivity).
  pose proof (multiply_total Settings yg xg ty rt Hx Hy) as H.
  fold bits in H.
  split; [|split; [|split]].
  - intros Hle. apply Nat.ltb_ge in Hle. rewrite Hle in H.
    destruct H as (p & Hrun & Ht & _ & _ & Hv).
    exists p. split; [exact Hrun|]. split; [exact Ht|].
    rewrite Hv, multiply_width_based by (try assumption; lia).
    rewrite EW. f_equal. ring.
  - intros Hlt. apply Nat.ltb_lt in Hlt. rewrite Hlt in H. exact H.
  - intros Nx Sx Hz.
    destruct (quorem_total Settings stray yg xg Hy Hx Nx Sx Hz)
      as (qv & rv & Hrun & _ & _ & Vq & Vr & _).
    exists {| type := ty; value := qv |}, {| type := ty; value := rv |}.
    split; [apply Hrun|]. split; [reflexivity|]. split; [reflexivity|].
    unfold quorem_cut in Vq, Vr. rewrite EW in Vq, Vr.
    assert (E0 : (W =? 0)%nat = false) by (apply Nat.eqb_neq; unfold W; lia).
    rewrite E0 in Vq, Vr. split; assumption.
  - intros [k Hk]. unfold m, radix. rewrite Hk.
    replace ((8 * k + 7) / 8)%nat with k.
    + f_equal. lia.
    + apply Nat.div_unique with (r := 7%nat); lia.
Qed.

Lemma based_modulo_bytes_witness :
  bytes_ok (value (big ID_based_bignum 65535))
  /\ bytes_ok (value (big ID_based_bignum 255))
  /\ is_based (type (big ID_based_bignum 255)) = true
  /\ (0 < wordsize (settings_with_wordsize 8))%nat
  /\ (((1 + 2) * 8 <= maxbignum (settings_with_wordsize 8))%nat ->
      exists p : bignum,
        multiply (settings_with_wordsize 8) (big ID_based_bignum 65535)
                 (big ID_based_bignum 255) ID_based_bignum no_error
        = (Some p, no_error)
        /\ type p = ID_based_bignum
        /\ magnitude p = (65535 * 255) mod radix 1)
  /\ ((maxbignum (settings_with_wordsize 8) < (1 + 2) * 8)%nat ->
      multiply (settings_with_wordsize 8) (big ID_based_bignum 65535)
               (big ID_based_bignum 255) ID_based_bignum no_error
      = (None, {| Error := Some Errors.number_too_big |}))
  /\ (normalized (value (big ID_based_bignum 255)) ->
      int_sized (big ID_based_bignum 255) ->
      is_zero (big ID_based_bignum 255) = false ->
      exists q r : bignum,
        quorem (settings_with_wordsize 8) 0 (big ID_based_bignum 65535)
               (big ID_based_bignum 255) ID_based_bignum true true no_error
        = ((true, Some q, Some r), no_error)
        /\ type q = ID_based_bignum /\ type r = ID_based_bignum
        /\ magnitude q = (65535 / 255) mod radix 1
        /\ magnitude r = (65535 mod 255) mod radix 1)
  /\ ((exists k : nat, 8%nat = (8 * k)%nat) -> radix 1 = 2 ^ Z.of_nat 8).
Proof.
  assert (Hy : bytes_ok (value (big ID_based_bignum 65535)))
    by (apply bytes_okb_true; reflexivity).
  assert (Hx : bytes_ok (value (big ID_based_bignum 255)))
    by (apply bytes_okb_true; reflexivity).
  assert (HW : (0 < wordsize (settings_with_wordsize 8))%nat)
    by (simpl; lia).
  split; [exact Hy|]. split; [exact Hx|]. split; [reflexivity|].
  split; [exact HW|].
  exact (based_modulo_bytes (settings_with_wordsize 8) 0
           (big ID_based_bignum 65535) (big ID_based_bignum 255)
           ID_based_bignum no_error Hy Hx eq_refl HW).
Defined.

(* ========================================================================= *)
(** * [bignum::pow]                                                          *)
(* ========================================================================= *)

Lemma nth_all_zero (x : list Z) (i : nat) :
  forallb (Z.eqb 0) x = true -> nth i x 0 = 0.
Proof.
  revert i. induction x as [|b x IH]; intros [|i] H; try reflexivity;
    cbn [forallb] in H; apply andb_true_iff in H; destruct H as [Hb Hx].
  - apply Z.eqb_eq in Hb. symmetry. exact Hb.
  - apply IH. exact Hx.
Qed.

Lemma pow_bytes_zero (Settings : settings) (product_type : id -> id -> id)
                     (n : nat) (x : list Z) (xi : nat)
                     (r y : option bignum) (rt : runtime) :
  forallb (Z.eqb 0) x = true ->
  pow_bytes Settings product_type n x xi r y rt = ((r, y), rt).
Proof.
  intros H. revert xi. induction n as [|n IH]; intros xi; [reflexivity|].
  cbn [pow_bytes]. unfold bind at 1.
  rewrite (nth_all_zero x xi H). cbn [pow_bits Z.eqb negb andb].
  unfold ret at 1. cbn [fst snd]. apply IH.
Qed.

(** X16.  The power of exponent zero is one: for every [y] and every zero
    [x], with or without bytes, [pow(y, x)] is the bignum 1 and raises no
    error. *)
Lemma pow_zero (Settings : settings) (product_type : id -> id -> id)
               (yg xg : bignum) (rt : runtime) :
  is_zero xg = true ->
  pow Settings product_type (Some yg) (Some xg) rt = (bignum_make 1, rt)
  /\ option_map magnitude (bignum_make 1) = Some 1.
Proof.
  intros H. split; [|reflexivity].
  unfold pow, bind. rewrite pow_bytes_zero by exact H. reflexivity.
Qed.

(** C5, the code at the exponent 256: the loop on the bits of a byte of the
    exponent stops at the last bit set, before the squarings that the bits
    above it call for, so that the low byte [0] of 256 squares nothing and
    [pow(2, 256)] is [2], not [2 ^ 256]. *)
Theorem pow_256_is_first_power (product_type : id -> id -> id) :
  pow example_settings product_type
      (Some (big ID_bignum 2)) (Some (big ID_bignum 256)) no_error
  = (Some {| type := product_type ID_bignum ID_bignum; value := [2] |},
     no_error)
  /\ le_value [2] <> 2 ^ 256
  /\ bit_width (2 ^ 256) <= Z.of_nat (maxbignum example_settings).
Proof.
  split; [vm_compute; reflexivity|].
  split; vm_compute; discriminate.
Qed.

(* ========================================================================= *)
(** * Witnesses and counterexamples of the comparisons and conversions      *)
(* ========================================================================= *)


(** C9, the claim as stated fails: the negative bignum without magnitude,
    which [operator%] returns for a negative numerator that the divisor
    divides, is zero and compares below zero. *)
Lemma compare_negative_zero :
  wf_bignum {| type := ID_neg_bignum; value := [] |}
  /\ wf_bignum {| type := ID_bignum; value := [] |}
  /\ operator_rem example_settings 0
                  (Some (big ID_neg_bignum 6)) (Some (big ID_bignum 3))
                  no_error
     = (Some {| type := ID_neg_bignum; value := [] |}, no_error)
  /\ ~ (compare {| type := ID_neg_bignum; value := [] |}
                {| type := ID_bignum; value := [] |} false < 0
        <-> signed_value {| type := ID_neg_bignum; value := [] |}
            < signed_value {| type := ID_bignum; value := [] |}).
Proof.
  split; [apply wf_bignumb_true; reflexivity|].
  split; [apply wf_bignumb_true; reflexivity|].
  split; [vm_compute; reflexivity|].
  vm_compute. intros [H _]. specialize (H eq_refl). discriminate H.
Qed.

Lemma compare_spec_witness :
  wf_bignum (big ID_neg_bignum 70000)
  /\ wf_bignum (big ID_bignum 5)
  /\ no_negative_zero (big ID_neg_bignum 70000)
  /\ no_negative_zero (big ID_bignum 5)
  /\ (compare (big ID_neg_bignum 70000) (big ID_bignum 5) false < 0
      <-> signed_value (big ID_neg_bignum 70000)
          < signed_value (big ID_bignum 5))
  /\ (compare (big ID_neg_bignum 70000) (big ID_bignum 5) false = 0
      <-> signed_value (big ID_neg_bignum 70000)
          = signed_value (big ID_bignum 5))
  /\ (0 < compare (big ID_neg_bignum 70000) (big ID_bignum 5) false
      <-> signed_value (big ID_bignum 5)
          < signed_value (big ID_neg_bignum 70000))
  /\ (type (big ID_neg_bignum 70000) = ID_neg_bignum ->
      type (big ID_bignum 5) <> ID_neg_bignum ->
      compare (big ID_neg_bignum 70000) (big ID_bignum 5) false < 0)
  /\ (compare (big ID_neg_bignum 70000) (big ID_bignum 5) true < 0
      <-> magnitude (big ID_neg_bignum 70000) < magnitude (big ID_bignum 5))
  /\ (compare (big ID_neg_bignum 70000) (big ID_bignum 5) true = 0
      <-> magnitude (big ID_neg_bignum 70000) = magnitude (big ID_bignum 5))
  /\ (0 < compare (big ID_neg_bignum 70000) (big ID_bignum 5) true
      <-> magnitude (big ID_bignum 5) < magnitude (big ID_neg_bignum 70000)).
Proof.
  assert (Hx : wf_bignum (big ID_neg_bignum 70000))
    by (apply wf_bignumb_true; reflexivity).
  assert (Hy : wf_bignum (big ID_bignum 5))
    by (apply wf_bignumb_true; reflexivity).
  assert (Zx : no_negative_zero (big ID_neg_bignum 70000))
    by (intros _; discriminate).
  assert (Zy : no_negative_zero (big ID_bignum 5))
    by (intros _; discriminate).
  split; [exact Hx|]. split; [exact Hy|]. split; [exact Zx|].
  split; [exact Zy|].
  exact (compare_spec (big ID_neg_bignum 70000) (big ID_bignum 5)
           Hx Hy Zx Zy).
Defined.

(* ========================================================================= *)
(** * The ranges of the table of kinds                                       *)
(* ========================================================================= *)

Section Ranges.

Variable cfg : bool.

Lemma position_nth (n : string) (l : list string) (ty : nat) :
  Ids.position n l = Some ty -> nth_error l ty = Some n.
Proof.
  revert ty. induction l as [|m l IH]; intros ty H; [discriminate|].
  simpl in H. destruct (String.eqb n m) eqn:E.
  - injection H as <-. apply String.eqb_eq in E. subst. reflexivity.
  - destruct (Ids.position n l) as [k|]; [|discriminate].
    injection H as <-. simpl. apply IH. reflexivity.
Qed.

Lemma In_position (n : string) (l : list string) :
  In n l -> exists ty : nat, Ids.position n l = Some ty.
Proof.
  induction l as [|m l IH]; intros H; [contradiction|].
  simpl. destruct (String.eqb n m) eqn:E; [eexists; reflexivity|].
  destruct H as [H|H].
  - subst. rewrite String.eqb_refl in E. discriminate.
  - destruct (IH H) as [k Hk]. rewrite Hk. eexists. reflexivity.
Qed.

Lemma mem_In (n : string) (l : list string) : Ids.mem n l = true <-> In n l.
Proof.
  unfold Ids.mem. rewrite existsb_exists. split.
  - intros (m & Hm & E). apply String.eqb_eq in E. subst. exact Hm.
  - intros H. exists n. split; [exact H|apply String.eqb_refl].
Qed.

Lemma nodup_names_NoDup (l : list string) :
  Ids.nodup_names l = true -> NoDup l.
Proof.
  induction l as [|n l IH]; intros H; [constructor|].
  simpl in H. apply andb_true_iff in H. destruct H as [Hn Hl].
  constructor; [|exact (IH Hl)].
  intros Hin. apply mem_In in Hin. rewrite Hin in Hn. discriminate.
Qed.

Lemma every_kind_spec (p : nat -> Ids.entry -> bool) :
  Ids.every_kind cfg p = true ->
  forall (e : Ids.entry) (ty : nat),
    In e (Ids.ids_tbl cfg) -> Ids.tag cfg (Ids.entry_name e) = Some ty ->
    p ty e = true.
Proof.
  intros H e ty He Ht. unfold Ids.every_kind in H.
  rewrite forallb_forall in H. specialize (H e He). rewrite Ht in H.
  exact H.
Qed.

Lemma in_pair_spec (p : string * string) (first last ty : nat) :
  Ids.tag cfg (fst p) = Some first -> Ids.tag cfg (snd p) = Some last ->
  (Ids.in_pair cfg ty p = true <-> (first <= ty <= last)%nat).
Proof.
  intros Hf Hl. unfold Ids.in_pair. rewrite Hf, Hl.
  rewrite andb_true_iff, !Nat.leb_le. reflexivity.
Qed.

Lemma pair_ok_spec (p : string * string) :
  Ids.pair_ok cfg p = true ->
  exists first last : nat,
    Ids.tag cfg (fst p) = Some first /\ Ids.tag cfg (snd p) = Some last
    /\ (first <= last)%nat
    /\ forall ty : nat,
        Ids.in_pair cfg ty p = true <-> (first <= ty <= last)%nat.
Proof.
  unfold Ids.pair_ok.
  destruct (Ids.tag cfg (fst p)) as [f|] eqn:Hf; [|discriminate].
  destruct (Ids.tag cfg (snd p)) as [l|] eqn:Hl; [|discriminate].
  intros H. apply Nat.leb_le in H. exists f, l.
  split; [reflexivity|]. split; [reflexivity|]. split; [exact H|].
  intros ty. apply in_pair_spec; assumption.
Qed.

(** The tags of one pair are an interval. *)
Lemma contiguous_one (p : string * string) :
  Ids.contiguous (Ids.in_ranges cfg [p]).
Proof.
  intros a b c Habc. unfold Ids.in_ranges, existsb. rewrite !orb_false_r.
  unfold Ids.in_pair. destruct (Ids.tag cfg (fst p)); [|discriminate].
  destruct (Ids.tag cfg (snd p)); [|discriminate].
  rewrite !andb_true_iff, !Nat.leb_le. lia.
Qed.

(** The tags of two pairs are an interval when the second pair starts no
    later than just after the first. *)
Lemma contiguous_two (p q : string * string) (f1 l1 f2 l2 : nat) :
  Ids.tag cfg (fst p) = Some f1 -> Ids.tag cfg (snd p) = Some l1 ->
  Ids.tag cfg (fst q) = Some f2 -> Ids.tag cfg (snd q) = Some l2 ->
  (f1 <= f2 <= S l1)%nat -> (l1 <= l2)%nat ->
  Ids.contiguous (Ids.in_ranges cfg [p; q]).
Proof.
  intros H1 H2 H3 H4 Hf Hl a b c Habc. unfold Ids.in_ranges, existsb.
  rewrite !orb_false_r, !orb_true_iff.
  rewrite !(in_pair_spec p f1 l1) by assumption.
  rewrite !(in_pair_spec q f2 l2) by assumption. lia.
Qed.

End Ranges.

Lemma flags_tbl_checked (cfg : bool) :
  forallb (fun d => forallb (Ids.pair_ok cfg) (snd d)) (Ids.flags_tbl cfg)
  = true.
Proof. destruct cfg; vm_compute; reflexivity. Qed.

(** The predicate of every family of numbers and the declarations agree on
    every line of the table. *)
Lemma families_checked (cfg : bool) :
  forallb (fun f =>
             Ids.every_kind cfg
               (fun ty e =>
                  Bool.eqb (Ids.in_ranges cfg (Ids.ranges_of cfg (fst f)) ty)
                           (snd f e)))
          Ids.families
  = true.
Proof. destruct cfg; vm_compute; reflexivity. Qed.

(** What the declaring macros have to do with the other categories. *)
Lemma macros_checked (cfg : bool) :
  Ids.every_kind cfg
    (fun ty e =>
       implb (Ids.is_type cfg ty) (Ids.declared_type e)
       && implb (Ids.declared_type e)
                (negb (Ids.is_command cfg ty)
                 && negb (Ids.is_algebraic cfg ty)
                 && negb (Ids.is_immediate cfg ty))
       && implb (Ids.declared_menu e)
                (Ids.is_command cfg ty && Ids.is_immediate cfg ty)
       && implb (Ids.declared_command e)
                (Bool.eqb (Ids.is_command cfg ty)
                          (negb (Ids.mem (Ids.entry_name e)
                                         Ids.hidden_commands)))
       && Bool.eqb (Ids.is_symbolic cfg ty)
                   (Ids.mem (Ids.entry_name e) Ids.symbolic_names))
  = true.
Proof. destruct cfg; vm_compute; reflexivity. Qed.

Lemma flags_tbl_contiguous (cfg : bool) (flag : string)
                           (ranges : list (string * string)) :
  In (flag, ranges) (Ids.flags_tbl cfg) ->
  flag <> "is_symbolic"%string ->
  Ids.contiguous (Ids.in_ranges cfg ranges).
Proof.
  intros H Hn. destruct cfg; cbv [Ids.flags_tbl app] in H; cbv [In] in H.
  all: repeat (destruct H as [H|H];
               [injection H as <- <-; try apply contiguous_one|]);
    try contradiction.
  all: try (exfalso; apply Hn; reflexivity).
  - eapply contiguous_two; [vm_compute; reflexivity ..|lia|lia].
  - eapply contiguous_two; [vm_compute; reflexivity ..|lia|lia].
Qed.


(* ========================================================================= *)
(** * [renderer::put]                                                        *)
(* ========================================================================= *)

Lemma skipn_set_lt (n i : nat) (v : Z) (l : list Z) :
  (i < n)%nat -> skipn n (set i v l) = skipn n l.
Proof.
  revert n i. induction l as [|h t IH]; intros [|n] [|i] H; simpl;
    try reflexivity; try lia.
  apply IH. lia.
Qed.

Lemma put_body_full (rec : Z -> Renderer.renderer -> bool * Renderer.renderer)
                    (c : Z) (r : Renderer.renderer) :
  Renderer.sign r = false ->
  (Renderer.length r <= Renderer.written r)%nat ->
  Renderer.put_body rec c r = (false, r).
Proof.
  intros Hs H. apply Nat.leb_le in H. unfold Renderer.put_body.
  rewrite Hs, H. reflexivity.
Qed.

(** Once the buffer is full, [put] writes nothing and returns false: it only
    forgets a pending sign. *)
Lemma put_full (c : Z) (r : Renderer.renderer) :
  (Renderer.length r <= Renderer.written r)%nat ->
  Renderer.put c r = (false, Renderer.with_sign false r).
Proof.
  intros H. unfold Renderer.put.
  change (Renderer.put_fuel 4 c r)
    with (Renderer.put_body (Renderer.put_fuel 3) c r).
  destruct (Renderer.sign r) eqn:Hs.
  - assert (H0 : (Renderer.length (Renderer.with_sign false r)
                  <= Renderer.written (Renderer.with_sign false r))%nat)
      by (destruct r; exact H).
    assert (Hs0 : Renderer.sign (Renderer.with_sign false r) = false)
      by (destruct r; reflexivity).
    unfold Renderer.put_body at 1. rewrite Hs.
    change (Renderer.put_fuel 3 Renderer.char_plus
              (Renderer.with_sign false r))
      with (Renderer.put_body (Renderer.put_fuel 2) Renderer.char_plus
              (Renderer.with_sign false r)).
    rewrite (put_body_full _ _ _ Hs0 H0). cbn [snd].
    apply Nat.leb_le in H0.
    destruct (negb (c =? Renderer.char_minus)
              && negb (c =? Renderer.char_plus)); rewrite H0; reflexivity.
  - rewrite (put_body_full _ _ _ Hs H).
    destruct r; cbn in Hs; subst; reflexivity.
Qed.

Section PutKeeps.

Lemma put_keeps_ready (r r' : Renderer.renderer) :
  put_keeps r r' -> put_ready r'.
Proof.
  intros (Hl & Hs & Hn & Hw & _). unfold put_ready. rewrite Hl.
  split; [exact Hs|]. split; [exact Hn|lia].
Qed.

Lemma put_keeps_refl (r : Renderer.renderer) : put_ready r -> put_keeps r r.
Proof.
  intros (Hs & Hn & Hw). unfold put_keeps.
  split; [reflexivity|]. split; [exact Hs|]. split; [exact Hn|].
  split; [lia|reflexivity].
Qed.

Lemma put_keeps_trans (r r' r'' : Renderer.renderer) :
  put_keeps r r' -> put_keeps r' r'' -> put_keeps r r''.
Proof.
  intros (Hl & Hs & Hn & Hw & Ht) (Hl' & Hs' & Hn' & Hw' & Ht').
  unfold put_keeps. rewrite Hl in *.
  split; [exact Hl'|]. split; [exact Hs'|]. split; [exact Hn'|].
  split; [lia|]. rewrite Ht'. exact Ht.
Qed.

Lemma put_keeps_start (r : Renderer.renderer) :
  Renderer.nl r = false ->
  (Renderer.written r <= Renderer.length r)%nat ->
  put_keeps r (Renderer.with_sign false r).
Proof.
  intros Hn Hw. destruct r. cbn in *. unfold put_keeps. cbn.
  split; [reflexivity|]. split; [reflexivity|]. split; [exact Hn|].
  split; [lia|reflexivity].
Qed.

Lemma put_keeps_with_space (b : bool) (r r' : Renderer.renderer) :
  put_keeps r r' -> put_keeps r (Renderer.with_space b r').
Proof. destruct r'. exact (fun H => H). Qed.

Lemma put_keeps_with_cr (b : bool) (r r' : Renderer.renderer) :
  put_keeps r r' -> put_keeps r (Renderer.with_cr b r').
Proof. destruct r'. exact (fun H => H). Qed.

Lemma put_keeps_with_txt (b : bool) (r r' : Renderer.renderer) :
  put_keeps r r' -> put_keeps r (Renderer.with_txt b r').
Proof. destruct r'. exact (fun H => H). Qed.

Lemma put_keeps_with_nl (r r' : Renderer.renderer) :
  put_keeps r r' -> put_keeps r (Renderer.with_nl false r').
Proof.
  destruct r'. unfold put_keeps. cbn. intros (Hl & Hs & Hn & Hw & Ht).
  auto.
Qed.

Lemma put_keeps_store (c : Z) (r r' : Renderer.renderer) :
  put_keeps r r' ->
  (Renderer.written r' < Renderer.length r')%nat ->
  put_keeps r (Renderer.store c r').
Proof.
  intros (Hl & Hs & Hn & Hw & Ht) Hlt.
  destruct r' as [tg sv sc len wr tb eq ed st fl sg sp cr nl tx].
  cbn in *. subst len. unfold put_keeps, Renderer.store. cbn.
  destruct sv as [file|]; [|destruct tg as [memory|]]; cbn.
  - split; [reflexivity|]. split; [exact Hs|]. split; [exact Hn|].
    split; [lia|exact Ht].
  - split; [reflexivity|]. split; [exact Hs|]. split; [exact Hn|].
    split; [lia|]. rewrite <- Ht. cbn. rewrite skipn_set_lt by lia.
    reflexivity.
  - split; [reflexivity|]. split; [exact Hs|]. split; [exact Hn|].
    split; [lia|exact Ht].
Qed.

Variable rec : Z -> Renderer.renderer -> bool * Renderer.renderer.

Hypothesis rec_keeps :
  forall (c : Z) (r : Renderer.renderer),
    put_ready r -> put_keeps r (snd (rec c r)).

Lemma put_tabs_keeps (n : nat) (r r' : Renderer.renderer) :
  put_keeps r r' -> put_keeps r (snd (Renderer.put_tabs rec n r')).
Proof.
  revert r'. induction n as [|n IH]; intros r' H; [exact H|].
  cbn [Renderer.put_tabs].
  pose proof (rec_keeps Renderer.char_tab r' (put_keeps_ready _ _ H)) as Hr.
  destruct (rec Renderer.char_tab r') as [ok r2]. cbn [snd] in Hr.
  pose proof (put_keeps_trans _ _ _ H Hr) as H2.
  destruct ok; [apply IH; exact H2|exact H2].
Qed.

Lemma put_body_keeps (c : Z) (r : Renderer.renderer) :
  Renderer.nl r = false ->
  (Renderer.written r <= Renderer.length r)%nat ->
  put_keeps r (snd (Renderer.put_body rec c r)).
Proof.
  intros Hn Hw. unfold Renderer.put_body.
  pose proof (put_keeps_start r Hn Hw) as H0.
  match goal with
  | |- context [if (Renderer.length ?x <=? _)%nat then _ else _] =>
      remember x as r1 eqn:E1
  end.
  assert (H1 : put_keeps r r1).
  { subst r1. destruct (Renderer.sign r) eqn:Hs.
    - destruct (negb (c =? Renderer.char_minus)
                && negb (c =? Renderer.char_plus)); [|exact H0].
      apply (put_keeps_trans _ _ _ H0). apply rec_keeps.
      exact (put_keeps_ready _ _ H0).
    - apply put_keeps_refl. split; [exact Hs|]. split; [exact Hn|exact Hw]. }
  clear E1 H0.
  destruct (Renderer.length r1 <=? Renderer.written r1)%nat eqn:Hfull;
    [exact H1|].
  apply Nat.leb_gt in Hfull.
  assert (Hflat :
    forall (c' : Z) (r2 : Renderer.renderer),
      put_keeps r r2 ->
      (Renderer.written r2 < Renderer.length r2)%nat ->
      put_keeps r
        (snd (if (c' =? Renderer.char_space)
                 && (Renderer.cr r2 || Renderer.nl r2)
              then (true, Renderer.with_cr false r2)
              else
                let '(ok, r) :=
                  if negb (Renderer.isspace c') && Renderer.nl r2
                  then rec Renderer.char_newline (Renderer.with_nl false r2)
                  else (true, r2) in
                if negb ok then (false, r)
                else
                  let r := Renderer.store c' r in
                  let '(ok, r) :=
                    if c' =? Renderer.char_newline then
                      let r := Renderer.with_nl false r in
                      let '(ok, r) :=
                        if negb (Renderer.txt r)
                        then Renderer.put_tabs rec (Renderer.tabs r) r
                        else (true, r) in
                      if ok then (true, Renderer.with_cr true r)
                      else (false, r)
                    else if negb (Renderer.isspace c')
                         then (true, Renderer.with_cr false r)
                         else (true, r) in
                  if negb ok then (false, r)
                  else
                    let r := if c' =? Renderer.char_quote
                             then Renderer.with_txt (negb (Renderer.txt r)) r
                             else r in
                    (true, r)))).
  { intros c' r2 H2 Hlt.
    destruct ((c' =? Renderer.char_space)
              && (Renderer.cr r2 || Renderer.nl r2));
      [apply put_keeps_with_cr; exact H2|].
    assert (Hnl : Renderer.nl r2 = false) by apply H2.
    rewrite Hnl, andb_false_r. cbv beta iota zeta. cbn [negb].
    pose proof (put_keeps_store c' _ _ H2 Hlt) as H3.
    destruct (c' =? Renderer.char_newline).
    - apply put_keeps_with_nl in H3.
      destruct (negb (Renderer.txt
                        (Renderer.with_nl false (Renderer.store c' r2)))).
      + pose proof (put_tabs_keeps
                      (Renderer.tabs
                         (Renderer.with_nl false (Renderer.store c' r2)))
                      _ _ H3) as H4.
        destruct (Renderer.put_tabs rec _ _) as [ok r3]. cbn [snd] in H4.
        destruct ok; cbn [negb snd].
        * destruct (c' =? Renderer.char_quote);
            [apply put_keeps_with_txt|]; apply put_keeps_with_cr; exact H4.
        * exact H4.
      + cbn [negb snd].
        destruct (c' =? Renderer.char_quote);
          [apply put_keeps_with_txt|]; apply put_keeps_with_cr; exact H3.
    - destruct (negb (Renderer.isspace c')); cbn [negb snd].
      + destruct (c' =? Renderer.char_quote);
          [apply put_keeps_with_txt|]; apply put_keeps_with_cr; exact H3.
      + destruct (c' =? Renderer.char_quote);
          [apply put_keeps_with_txt|]; exact H3. }
  assert (Hsp : forall b : bool,
             (Renderer.written (Renderer.with_space b r1)
              < Renderer.length (Renderer.with_space b r1))%nat)
    by (intros b; destruct r1; exact Hfull).
  destruct (Renderer.flat r1).
  - destruct (Renderer.isspace c).
    + destruct (Renderer.space r1 || Renderer.cr r1); [exact H1|].
      apply Hflat; [apply put_keeps_with_space; exact H1|apply Hsp].
    + apply Hflat; [apply put_keeps_with_space; exact H1|apply Hsp].
  - apply Hflat; assumption.
Qed.

End PutKeeps.

Lemma put_fuel_keeps (fuel : nat) (c : Z) (r : Renderer.renderer) :
  put_ready r -> put_keeps r (snd (Renderer.put_fuel fuel c r)).
Proof.
  revert c r. induction fuel as [|fuel IH]; intros c r H.
  - apply put_keeps_refl. exact H.
  - change (Renderer.put_fuel (S fuel) c r)
      with (Renderer.put_body (Renderer.put_fuel fuel) c r).
    apply put_body_keeps; [exact IH| |]; apply H.
Qed.

(** Without a newline pending, [put] writes within the buffer: [written]
    stays within [length] and the memory after the buffer is as it was. *)
Lemma put_within_length (c : Z) (r : Renderer.renderer) :
  Renderer.nl r = false ->
  (Renderer.written r <= Renderer.length r)%nat ->
  put_keeps r (snd (Renderer.put c r)).
Proof.
  intros Hn Hw. unfold Renderer.put.
  change (Renderer.put_fuel 4 c r)
    with (Renderer.put_body (Renderer.put_fuel 3) c r).
  apply put_body_keeps; [|exact Hn|exact Hw].
  intros c' r'. apply put_fuel_keeps.
Qed.

(** ** The depth of the calls of [put] to itself *)

Lemma sign_with_space (b : bool) (r : Renderer.renderer) :
  Renderer.sign (Renderer.with_space b r) = Renderer.sign r.
Proof. destruct r; reflexivity. Qed.

Lemma sign_with_cr (b : bool) (r : Renderer.renderer) :
  Renderer.sign (Renderer.with_cr b r) = Renderer.sign r.
Proof. destruct r; reflexivity. Qed.

Lemma sign_with_nl (b : bool) (r : Renderer.renderer) :
  Renderer.sign (Renderer.with_nl b r) = Renderer.sign r.
Proof. destruct r; reflexivity. Qed.

Lemma sign_with_txt (b : bool) (r : Renderer.renderer) :
  Renderer.sign (Renderer.with_txt b r) = Renderer.sign r.
Proof. destruct r; reflexivity. Qed.

Lemma sign_store (c : Z) (r : Renderer.renderer) :
  Renderer.sign (Renderer.store c r) = Renderer.sign r.
Proof.
  destruct r as [tg sv sc len wr tb eq ed st fl sg sp cr nl tx].
  unfold Renderer.store. cbn. destruct sv; [|destruct tg]; reflexivity.
Qed.

Lemma sign_with_sign (r : Renderer.renderer) :
  Renderer.sign (Renderer.with_sign false r) = false.
Proof. destruct r; reflexivity. Qed.

Ltac sign_simpl :=
  repeat (rewrite ?sign_with_space, ?sign_with_cr, ?sign_with_nl,
            ?sign_with_txt, ?sign_store);
  try assumption.

Section PutCalls.

Variables rec1 rec2 : Z -> Renderer.renderer -> bool * Renderer.renderer.

Hypothesis rec_sign :
  forall (c : Z) (r : Renderer.renderer),
    Renderer.sign r = false -> Renderer.sign (snd (rec1 c r)) = false.

Lemma put_tabs_calls (n : nat) (r : Renderer.renderer) :
  (forall r' : Renderer.renderer,
      Renderer.sign r' = false ->
      rec1 Renderer.char_tab r' = rec2 Renderer.char_tab r') ->
  Renderer.sign r = false ->
  Renderer.put_tabs rec1 n r = Renderer.put_tabs rec2 n r
  /\ Renderer.sign (snd (Renderer.put_tabs rec1 n r)) = false.
Proof.
  intros H9. revert r. induction n as [|n IH]; intros r Hs.
  - split; [reflexivity|exact Hs].
  - cbn [Renderer.put_tabs]. rewrite <- (H9 r Hs).
    pose proof (rec_sign Renderer.char_tab r Hs) as Hs2.
    destruct (rec1 Renderer.char_tab r) as [ok r2]. cbn [snd] in Hs2.
    destruct ok; [apply IH; exact Hs2|split; [reflexivity|exact Hs2]].
Qed.

(** Two functions that agree on the calls that the body makes give the same
    body: the sign when one is pending, the newline before a character that
    is not a space, and the tabs after a newline. *)
Lemma put_body_calls (c : Z) (r : Renderer.renderer) :
  (Renderer.sign r = true ->
   forall r' : Renderer.renderer,
     Renderer.sign r' = false ->
     rec1 Renderer.char_plus r' = rec2 Renderer.char_plus r') ->
  (Renderer.isspace c = false ->
   forall r' : Renderer.renderer,
     Renderer.sign r' = false ->
     rec1 Renderer.char_newline r' = rec2 Renderer.char_newline r') ->
  (c = Renderer.char_newline ->
   forall r' : Renderer.renderer,
     Renderer.sign r' = false ->
     rec1 Renderer.char_tab r' = rec2 Renderer.char_tab r') ->
  Renderer.put_body rec1 c r = Renderer.put_body rec2 c r
  /\ Renderer.sign (snd (Renderer.put_body rec1 c r)) = false.
Proof.
  intros H43 H10 H9. unfold Renderer.put_body.
  assert (E1 :
    (if Renderer.sign r
     then if negb (c =? Renderer.char_minus) && negb (c =? Renderer.char_plus)
          then snd (rec1 Renderer.char_plus (Renderer.with_sign false r))
          else Renderer.with_sign false r
     else r)
    = (if Renderer.sign r
       then if negb (c =? Renderer.char_minus)
               && negb (c =? Renderer.char_plus)
            then snd (rec2 Renderer.char_plus (Renderer.with_sign false r))
            else Renderer.with_sign false r
       else r)).
  { destruct (Renderer.sign r) eqn:Hs; [|reflexivity].
    rewrite (H43 eq_refl _ (sign_with_sign r)). reflexivity. }
  cbv zeta. rewrite <- E1. clear E1.
  assert (S1 :
    Renderer.sign
      (if Renderer.sign r
       then if negb (c =? Renderer.char_minus)
               && negb (c =? Renderer.char_plus)
            then snd (rec1 Renderer.char_plus (Renderer.with_sign false r))
            else Renderer.with_sign false r
       else r) = false).
  { destruct (Renderer.sign r) eqn:Hs; [|exact Hs].
    destruct (negb (c =? Renderer.char_minus)
              && negb (c =? Renderer.char_plus));
      [apply rec_sign|]; apply sign_with_sign. }
  revert S1.
  generalize
    (if Renderer.sign r
     then if negb (c =? Renderer.char_minus) && negb (c =? Renderer.char_plus)
          then snd (rec1 Renderer.char_plus (Renderer.with_sign false r))
          else Renderer.with_sign false r
     else r).
  clear H43. intros r1 S1.
  destruct (Renderer.length r1 <=? Renderer.written r1)%nat;
    [split; [reflexivity|exact S1]|].
  assert (Hrest :
    forall (c' : Z) (r2 : Renderer.renderer),
      c' = c \/ c' = Renderer.char_space ->
      Renderer.sign r2 = false ->
      let rest (rec : Z -> Renderer.renderer -> bool * Renderer.renderer) :=
        if (c' =? Renderer.char_space)
           && (Renderer.cr r2 || Renderer.nl r2)
        then (true, Renderer.with_cr false r2)
        else
          let '(ok, r) :=
            if negb (Renderer.isspace c') && Renderer.nl r2
            then rec Renderer.char_newline (Renderer.with_nl false r2)
            else (true, r2) in
          if negb ok then (false, r)
          else
            let r := Renderer.store c' r in
            let '(ok, r) :=
              if c' =? Renderer.char_newline then
                let r := Renderer.with_nl false r in
                let '(ok, r) :=
                  if negb (Renderer.txt r)
                  then Renderer.put_tabs rec (Renderer.tabs r) r
                  else (true, r) in
                if ok then (true, Renderer.with_cr true r)
                else (false, r)
              else if negb (Renderer.isspace c')
                   then (true, Renderer.with_cr false r)
                   else (true, r) in
            if negb ok then (false, r)
            else
              let r := if c' =? Renderer.char_quote
                       then Renderer.with_txt (negb (Renderer.txt r)) r
                       else r in
              (true, r) in
      rest rec1 = rest rec2 /\ Renderer.sign (snd (rest rec1)) = false).
  { intros c' r2 Hc S2. cbv zeta.
    destruct ((c' =? Renderer.char_space)
              && (Renderer.cr r2 || Renderer.nl r2));
      [split; [reflexivity|cbn [snd]; sign_simpl]|].
    assert (Hnewline :
      (if negb (Renderer.isspace c') && Renderer.nl r2
       then rec1 Renderer.char_newline (Renderer.with_nl false r2)
       else (true, r2))
      = (if negb (Renderer.isspace c') && Renderer.nl r2
         then rec2 Renderer.char_newline (Renderer.with_nl false r2)
         else (true, r2))
      /\ Renderer.sign
           (snd (if negb (Renderer.isspace c') && Renderer.nl r2
                 then rec1 Renderer.char_newline (Renderer.with_nl false r2)
                 else (true, r2))) = false).
    { destruct (negb (Renderer.isspace c') && Renderer.nl r2) eqn:En;
        [|split; [reflexivity|exact S2]].
      apply andb_true_iff in En. destruct En as [En _].
      apply negb_true_iff in En.
      assert (Ec : c' = c)
        by (destruct Hc as [Hc|Hc]; [exact Hc|subst c'; discriminate En]).
      subst c'. split.
      - apply (H10 En). sign_simpl.
      - apply rec_sign. sign_simpl. }
    destruct Hnewline as [Hn1 Hn2]. rewrite <- Hn1. clear Hn1.
    destruct (if negb (Renderer.isspace c') && Renderer.nl r2
              then rec1 Renderer.char_newline (Renderer.with_nl false r2)
              else (true, r2)) as [ok r3].
    cbn [snd] in Hn2.
    destruct ok; cbn [negb]; [|split; [reflexivity|exact Hn2]].
    destruct (c' =? Renderer.char_newline) eqn:E10.
    - assert (Ec : c = Renderer.char_newline).
      { apply Z.eqb_eq in E10.
        destruct Hc as [Hc|Hc]; [congruence|].
        rewrite Hc in E10. discriminate E10. }
      destruct (negb (Renderer.txt
                        (Renderer.with_nl false (Renderer.store c' r3)))).
      + destruct (put_tabs_calls
                    (Renderer.tabs
                       (Renderer.with_nl false (Renderer.store c' r3)))
                    (Renderer.with_nl false (Renderer.store c' r3))
                    (H9 Ec)) as [Ht1 Ht2]; [sign_simpl|].
        rewrite <- Ht1. clear Ht1.
        destruct (Renderer.put_tabs rec1 _ _) as [ok r4]. cbn [snd] in Ht2.
        destruct ok; cbn [negb]; [|split; [reflexivity|exact Ht2]].
        split; [reflexivity|].
        destruct (c' =? Renderer.char_quote); cbn [snd]; sign_simpl.
      + cbn [negb]. split; [reflexivity|].
        destruct (c' =? Renderer.char_quote); cbn [snd]; sign_simpl.
    - split; [reflexivity|].
      destruct (negb (Renderer.isspace c')); cbn [negb];
        destruct (c' =? Renderer.char_quote); cbn [snd]; sign_simpl. }
  destruct (Renderer.flat r1).
  - destruct (Renderer.isspace c).
    + destruct (Renderer.space r1 || Renderer.cr r1);
        [split; [reflexivity|exact S1]|].
      apply (Hrest Renderer.char_space (Renderer.with_space true r1));
        [right; reflexivity|sign_simpl].
    + apply (Hrest c (Renderer.with_space false r1));
        [left; reflexivity|sign_simpl].
  - apply (Hrest c r1); [left; reflexivity|exact S1].
Qed.

End PutCalls.

Lemma put_fuel_sign (fuel : nat) (c : Z) (r : Renderer.renderer) :
  Renderer.sign r = false ->
  Renderer.sign (snd (Renderer.put_fuel fuel c r)) = false.
Proof.
  revert c r. induction fuel as [|fuel IH]; intros c r Hs; [exact Hs|].
  change (Renderer.put_fuel (S fuel) c r)
    with (Renderer.put_body (Renderer.put_fuel fuel) c r).
  apply (put_body_calls (Renderer.put_fuel fuel) (Renderer.put_fuel fuel) IH);
    reflexivity.
Qed.

(** A tab calls nothing. *)
Lemma put_fuel_tab (k : nat) (r : Renderer.renderer) :
  Renderer.sign r = false ->
  Renderer.put_fuel (1 + k) Renderer.char_tab r
  = Renderer.put_fuel 1 Renderer.char_tab r.
Proof.
  intros Hs.
  change (Renderer.put_body (Renderer.put_fuel k) Renderer.char_tab r
          = Renderer.put_body (Renderer.put_fuel 0) Renderer.char_tab r).
  apply put_body_calls.
  - apply put_fuel_sign.
  - rewrite Hs. discriminate.
  - discriminate.
  - discriminate.
Qed.

(** A newline calls the tabs. *)
Lemma put_fuel_newline (k : nat) (r : Renderer.renderer) :
  Renderer.sign r = false ->
  Renderer.put_fuel (2 + k) Renderer.char_newline r
  = Renderer.put_fuel 2 Renderer.char_newline r.
Proof.
  intros Hs.
  change (Renderer.put_body (Renderer.put_fuel (1 + k))
                            Renderer.char_newline r
          = Renderer.put_body (Renderer.put_fuel 1) Renderer.char_newline r).
  apply put_body_calls.
  - apply put_fuel_sign.
  - rewrite Hs. discriminate.
  - discriminate.
  - intros _ r' Hs'. apply put_fuel_tab. exact Hs'.
Qed.

(** Without a sign pending, a character calls the newline, or the tabs. *)
Lemma put_fuel_signed (k : nat) (c : Z) (r : Renderer.renderer) :
  Renderer.sign r = false ->
  Renderer.put_fuel (3 + k) c r = Renderer.put_fuel 3 c r.
Proof.
  intros Hs.
  change (Renderer.put_body (Renderer.put_fuel (2 + k)) c r
          = Renderer.put_body (Renderer.put_fuel 2) c r).
  apply put_body_calls.
  - apply put_fuel_sign.
  - rewrite Hs. discriminate.
  - intros _ r' Hs'. apply put_fuel_newline. exact Hs'.
  - intros _ r' Hs'.
    transitivity (Renderer.put_fuel 1 Renderer.char_tab r');
      [apply (put_fuel_tab (1 + k))|symmetry; apply (put_fuel_tab 1)];
      exact Hs'.
Qed.

(** X15.  The calls of [put] to itself nest four deep at most, whatever
    the character, the state of the renderer and the count of tabs: a
    character, its pending sign, the pending newline and a tab.  A bound
    above 4 on the depth of the calls changes nothing to what [put] does. *)
Lemma put_fuel_stable (k : nat) (c : Z) (r : Renderer.renderer) :
  Renderer.put_fuel (4 + k) c r = Renderer.put c r.
Proof.
  unfold Renderer.put.
  change (Renderer.put_body (Renderer.put_fuel (3 + k)) c r
          = Renderer.put_body (Renderer.put_fuel 3) c r).
  apply put_body_calls.
  - apply put_fuel_sign.
  - intros _ r' Hs'. apply put_fuel_signed. exact Hs'.
  - intros _ r' Hs'.
    transitivity (Renderer.put_fuel 2 Renderer.char_newline r');
      [apply (put_fuel_newline (1 + k))|symmetry; apply (put_fuel_newline 1)];
      exact Hs'.
  - intros _ r' Hs'.
    transitivity (Renderer.put_fuel 1 Renderer.char_tab r');
      [apply (put_fuel_tab (2 + k))|symmetry; apply (put_fuel_tab 2)];
      exact Hs'.
Qed.

(** C10, the code on a buffer of one byte with a newline pending:
    [put('a')] finds room, writes the pending newline at index 0 through a
    call of itself, and then writes ['a'] at index 1 without a second look
    at [length]: a byte is written after the end of the buffer, and
    [written] is 2 for a [length] of 1, whatever the bound on the depth of
    the calls. *)
Theorem put_writes_past_length :
  (Renderer.target one_byte_buffer = Some [0; 0; 0; 0]
   /\ Renderer.length one_byte_buffer = 1%nat
   /\ Renderer.written one_byte_buffer = 0%nat
   /\ Renderer.nl one_byte_buffer = true)
  /\ fst (Renderer.put 97 one_byte_buffer) = true
  /\ Renderer.target (snd (Renderer.put 97 one_byte_buffer))
     = Some [10; 97; 0; 0]
  /\ Renderer.length (snd (Renderer.put 97 one_byte_buffer)) = 1%nat
  /\ Renderer.written (snd (Renderer.put 97 one_byte_buffer)) = 2%nat
  /\ (forall fuel : nat,
         Renderer.put_fuel (4 + fuel) 97 one_byte_buffer
         = Renderer.put 97 one_byte_buffer).
Proof.
  split; [vm_compute; repeat split|].
  split; [vm_compute; reflexivity|].
  split; [vm_compute; reflexivity|].
  split; [vm_compute; reflexivity|].
  split; [vm_compute; reflexivity|].
  intros fuel. vm_compute. reflexivity.
Qed.

(* ========================================================================= *)
(** * Rendering                                                              *)
(* ========================================================================= *)

(** C7, the code with the separator U+00B7, a middle dot, every three
    digits: the separator takes two bytes of UTF-8 and is not above [0xFF],
    so that the digits are reversed byte by byte and the two bytes of the
    separator are swapped.  1234 is rendered as the bytes [1], [B7], [C2],
    [2], [3], [4], which is not the text [1·234].  With the thin space
    U+2009 the same number is rendered as it should. *)
Theorem render_bignum_two_byte_separator
  (stray : Z) (flush : Renderer.renderer -> Renderer.renderer)
  (scratch_renderer : bool -> bool -> bool -> Renderer.renderer) :
  flush scratchpad = scratchpad ->
  (exists r : Renderer.renderer,
      Render.render_bignum (settings_with_space 183) stray flush
                           scratch_renderer scratchpad (big ID_bignum 1234)
                           no_error
      = ((6%nat, r), no_error)
      /\ Render.text r = Some [49; 183; 194; 50; 51; 52]
      /\ [49] ++ utf8_encode 183 ++ [50; 51; 52]
         = [49; 194; 183; 50; 51; 52])
  /\ (exists r : Renderer.renderer,
         Render.render_bignum (settings_with_space 8201) stray flush
                              scratch_renderer scratchpad
                              (big ID_bignum 1234) no_error
         = ((7%nat, r), no_error)
         /\ Render.text r = Some ([49] ++ utf8_encode 8201 ++ [50; 51; 52])).
Proof.
  intros Hf. split.
  - eexists. split; [|split; [|vm_compute; reflexivity]].
    + unfold Render.render_bignum, Render.render_num.
      change (Render.file_save scratchpad) with false. cbv iota.
      unfold Render.render_num_text. cbv beta iota zeta. rewrite Hf.
      vm_compute. reflexivity.
    + vm_compute. reflexivity.
  - eexists. split.
    + unfold Render.render_bignum, Render.render_num.
      change (Render.file_save scratchpad) with false. cbv iota.
      unfold Render.render_num_text. cbv beta iota zeta. rewrite Hf.
      vm_compute. reflexivity.
    + vm_compute. reflexivity.
Qed.

Lemma render_bignum_two_byte_separator_witness :
  (fun r : Renderer.renderer => r) scratchpad = scratchpad
  /\ (exists r : Renderer.renderer,
         Render.render_bignum (settings_with_space 183) 0 (fun r => r)
                              (fun _ _ _ => scratchpad) scratchpad
                              (big ID_bignum 1234) no_error
         = ((6%nat, r), no_error)
         /\ Render.text r = Some [49; 183; 194; 50; 51; 52]
         /\ [49] ++ utf8_encode 183 ++ [50; 51; 52]
            = [49; 194; 183; 50; 51; 52])
  /\ (exists r : Renderer.renderer,
         Render.render_bignum (settings_with_space 8201) 0 (fun r => r)
                              (fun _ _ _ => scratchpad) scratchpad
                              (big ID_bignum 1234) no_error
         = ((7%nat, r), no_error)
         /\ Render.text r = Some ([49] ++ utf8_encode 8201 ++ [50; 51; 52])).
Proof.
  split; [reflexivity|].
  exact (render_bignum_two_byte_separator 0 (fun r => r)
           (fun _ _ _ => scratchpad) eq_refl).
Defined.

(* ========================================================================= *)
(** * How the operations on bignums compose                                  *)
(* ========================================================================= *)

Lemma normalized_tail (h : Z) (t : list Z) :
  normalized (h :: t) -> normalized t.
Proof.
  destruct t as [|h' t']; [intros _ H; discriminate H|].
  intros H. exact H.
Qed.

(** A normalized payload is the only one of its value. *)
Lemma le_value_inj (p : list Z) :
  forall q : list Z,
    bytes_ok p -> bytes_ok q -> normalized p -> normalized q ->
    le_value p = le_value q -> p = q.
Proof.
  induction p as [|h t IH]; intros q Hp Hq Np Nq E.
  - symmetry. apply (le_value_nil_iff q Hq Nq). symmetry. exact E.
  - destruct q as [|h' t'].
    + apply (le_value_nil_iff (h :: t) Hp Np). exact E.
    + inversion Hp as [|? ? Hh Ht]; inversion Hq as [|? ? Hh' Ht']; subst.
      rewrite !le_value_cons in E. unfold is_byte in Hh, Hh'.
      pose proof (le_value_bound t Ht) as Bt.
      pose proof (le_value_bound t' Ht') as Bt'.
      assert (h = h' /\ le_value t = le_value t') as [-> Et] by lia.
      f_equal. apply IH; try assumption.
      * exact (normalized_tail _ _ Np).
      * exact (normalized_tail _ _ Nq).
Qed.

(** X1.  Multiplication commutes: on two bignums that are both based or
    both not, [multiply(y, x, ty)] and [multiply(x, y, ty)] are the same,
    error included. *)
Theorem multiply_commutes
  (Settings : settings) (yg xg : bignum) (ty : id) (rt : runtime) :
  bytes_ok (value xg) -> bytes_ok (value yg) ->
  is_based (type xg) = is_based (type yg) ->
  multiply Settings yg xg ty rt = multiply Settings xg yg ty rt.
Proof.
  intros Hx Hy Hb.
  pose proof (multiply_total Settings yg xg ty rt Hx Hy) as H1.
  pose proof (multiply_total Settings xg yg ty rt Hy Hx) as H2.
  rewrite (Nat.add_comm (List.length (value yg))) in H2.
  assert (Ew : multiply_width Settings yg xg = multiply_width Settings xg yg).
  { unfold multiply_width, wordsize_of. rewrite Hb.
    rewrite (Nat.add_comm (List.length (value yg))). reflexivity. }
  rewrite Ew, (Z.mul_comm (magnitude yg)) in H2.
  destruct (maxbignum Settings
            <? (List.length (value xg) + List.length (value yg)) * 8)%nat.
  - rewrite H1, H2. reflexivity.
  - destruct H1 as (r1 & E1 & T1 & B1 & N1 & V1).
    destruct H2 as (r2 & E2 & T2 & B2 & N2 & V2).
    rewrite E1, E2. f_equal. f_equal.
    destruct r1 as [t1 v1], r2 as [t2 v2]. cbn [type value] in *.
    unfold magnitude in V1, V2. cbn [value] in V1, V2.
    subst t1 t2. f_equal.
    apply le_value_inj; try assumption. rewrite V1, V2. reflexivity.
Qed.

Lemma multiply_commutes_witness :
  multiply example_settings (big ID_neg_bignum 123456789)
           (big ID_bignum 987654321) ID_neg_bignum no_error
  = multiply example_settings (big ID_bignum 987654321)
             (big ID_neg_bignum 123456789) ID_neg_bignum no_error.
Proof.
  apply (multiply_commutes example_settings (big ID_neg_bignum 123456789)
           (big ID_bignum 987654321) ID_neg_bignum no_error).
  - apply bytes_okb_true. reflexivity.
  - apply bytes_okb_true. reflexivity.
  - reflexivity.
Defined.

(** X2.  Division undoes multiplication: for [x] not zero and not based,
    and operands within [maxbignum], the product [y * x] is a bignum of which
    the quotient by [x] has the payload of [y] and the remainder by [x] has
    an empty payload. *)
Theorem multiply_then_divide
  (Settings : settings) (product_type : id -> id -> id) (stray : Z)
  (y x : bignum) (rt : runtime) :
  wf_bignum y -> wf_bignum x ->
  is_based (type x) = false -> is_zero x = false ->
  ((List.length (value x) + List.length (value y)) * 8
   <= maxbignum Settings)%nat ->
  exists p q r : bignum,
    operator_mul Settings product_type (Some y) (Some x) rt = (Some p, rt)
    /\ operator_div Settings product_type stray (Some p) (Some x) rt
       = (Some q, rt)
    /\ operator_rem Settings stray (Some p) (Some x) rt = (Some r, rt)
    /\ magnitude p = magnitude y * magnitude x
    /\ value q = value y
    /\ value r = [].
Proof.
  intros (Ky & Hy & Ny & Sy) (Kx & Hx & Nx & Sx) Bx Hz Hmax.
  pose proof (multiply_total Settings y x (product_type (type y) (type x))
                rt Hx Hy) as Hm.
  apply Nat.ltb_ge in Hmax. rewrite Hmax in Hm.
  destruct Hm as (p & Ep & Tp & Bp & Np & Vp).
  rewrite multiply_width_exact in Vp
    by (try assumption; apply wordsize_of_signed; exact Bx).
  destruct (quorem_total Settings stray p x Bp Hx Nx Sx Hz)
    as (qv & rv & Hrun & Bq & Br & Vq & Vr & _ & _ & Hn).
  rewrite quorem_cut_signed in Vq, Vr by exact Bx.
  destruct (Hn (wordsize_of_signed Settings _ Bx)) as [Nq Nr].
  pose proof (magnitude_of_nonzero x Hx Hz) as Xpos.
  rewrite Vp in Vq, Vr.
  rewrite Z.mul_comm, Z.div_mul in Vq by lia.
  rewrite Z.mul_comm, Z.mod_mul in Vr by lia.
  exists p, {| type := product_type (type p) (type x); value := qv |},
         {| type := type p; value := rv |}.
  split; [exact Ep|]. split; [|split; [|split; [|split]]].
  - unfold operator_div, bind, ret. rewrite Hrun. reflexivity.
  - unfold operator_rem, bind, ret. rewrite Hrun. reflexivity.
  - rewrite Vp. ring.
  - cbn [value]. apply le_value_inj; assumption.
  - cbn [value]. apply (le_value_nil_iff rv Br Nr). exact Vr.
Qed.

Lemma multiply_then_divide_witness :
  exists p q r : bignum,
    operator_mul example_settings example_product_type
                 (Some (big ID_neg_bignum 123456789))
                 (Some (big ID_bignum 1000003)) no_error
    = (Some p, no_error)
    /\ operator_div example_settings example_product_type 0
                    (Some p) (Some (big ID_bignum 1000003)) no_error
       = (Some q, no_error)
    /\ operator_rem example_settings 0 (Some p)
                    (Some (big ID_bignum 1000003)) no_error
       = (Some r, no_error)
    /\ magnitude p
       = magnitude (big ID_neg_bignum 123456789)
         * magnitude (big ID_bignum 1000003)
    /\ value q = value (big ID_neg_bignum 123456789)
    /\ value r = [].
Proof.
  apply (multiply_then_divide example_settings example_product_type 0
           (big ID_neg_bignum 123456789) (big ID_bignum 1000003) no_error).
  - apply wf_bignumb_true. reflexivity.
  - apply wf_bignumb_true. reflexivity.
  - reflexivity.
  - reflexivity.
  - apply Nat.leb_le. vm_compute. reflexivity.
Defined.

(* ========================================================================= *)
(** * Comparison, negation, addition and subtraction                         *)
(* ========================================================================= *)

Lemma compare_magnitudes_swap (x y : bignum) :
  wf_bignum x -> wf_bignum y ->
  let R (a b : list Z) :=
    let result :=
      int32 (Z.of_nat (List.length a) - Z.of_nat (List.length b)) in
    if result =? 0 then compare_loop (List.length a) a b else result in
  Z.sgn (R (value x) (value y)) = Z.sgn (magnitude x - magnitude y)
  /\ Z.sgn (R (value y) (value x)) = Z.sgn (magnitude y - magnitude x).
Proof.
  intros (Kx & Hx & Nx & Sx) (Ky & Hy & Ny & Sy) R.
  unfold int_sized in Sx, Sy. split.
  - apply compare_magnitudes; try assumption; lia.
  - apply compare_magnitudes; try assumption; lia.
Qed.

(** X3.  [compare] is a consistent ordering of well-formed bignums:
    swapping the operands flips the sign of the result, and
    [compare(x, y, false)] is zero exactly when the two have the same payload
    and are both [neg_bignum] or both not. *)
Theorem compare_swap (x y : bignum) (m : bool) :
  wf_bignum x -> wf_bignum y ->
  Z.sgn (compare x y m) = - Z.sgn (compare y x m)
  /\ (compare x y false = 0
      <-> value x = value y
          /\ id_eqb (type x) ID_neg_bignum = id_eqb (type y) ID_neg_bignum).
Proof.
  intros Wx Wy.
  destruct (compare_magnitudes_swap x y Wx Wy) as [Rxy Ryx].
  cbv zeta in Rxy, Ryx.
  destruct Wx as (Kx & Hx & Nx & Sx), Wy as (Ky & Hy & Ny & Sy).
  assert (Einj : magnitude x = magnitude y -> value x = value y)
    by (intros E; apply le_value_inj; assumption).
  assert (Eval : value x = value y -> magnitude x = magnitude y)
    by (intros E; unfold magnitude; rewrite E; reflexivity).
  unfold compare.
  set (Rx := if int32 (Z.of_nat (List.length (value x))
                       - Z.of_nat (List.length (value y))) =? 0
             then compare_loop (List.length (value x)) (value x) (value y)
             else int32 (Z.of_nat (List.length (value x))
                         - Z.of_nat (List.length (value y)))) in *.
  set (Ry := if int32 (Z.of_nat (List.length (value y))
                       - Z.of_nat (List.length (value x))) =? 0
             then compare_loop (List.length (value y)) (value y) (value x)
             else int32 (Z.of_nat (List.length (value y))
                         - Z.of_nat (List.length (value x)))) in *.
  split.
  - destruct m, (id_eqb (type x) ID_neg_bignum),
      (id_eqb (type y) ID_neg_bignum); cbn [negb andb]; lia.
  - destruct (id_eqb (type x) ID_neg_bignum),
      (id_eqb (type y) ID_neg_bignum); cbn [negb andb]; split;
      try (intros H; exfalso; lia);
      try (intros [_ H]; discriminate H).
    + intros H. split; [apply Einj; lia|reflexivity].
    + intros [H _]. apply Eval in H. lia.
    + intros H. split; [apply Einj; lia|reflexivity].
    + intros [H _]. apply Eval in H. lia.
Qed.

Lemma compare_swap_witness :
  Z.sgn (compare (big ID_neg_bignum 70000) (big ID_neg_bignum 5) false)
  = - Z.sgn (compare (big ID_neg_bignum 5) (big ID_neg_bignum 70000) false)
  /\ (compare (big ID_neg_bignum 70000) (big ID_neg_bignum 5) false = 0
      <-> value (big ID_neg_bignum 70000) = value (big ID_neg_bignum 5)
          /\ id_eqb (type (big ID_neg_bignum 70000)) ID_neg_bignum
             = id_eqb (type (big ID_neg_bignum 5)) ID_neg_bignum).
Proof.
  apply (compare_swap (big ID_neg_bignum 70000) (big ID_neg_bignum 5) false).
  - apply wf_bignumb_true. reflexivity.
  - apply wf_bignumb_true. reflexivity.
Defined.

(** X4.  The opposite of a signed bignum has the same payload and the
    opposite kind, so the opposite value, and the opposite of the opposite is
    the bignum itself; the opposite of a bignum of kind [bignum] compares
    below it, zero included. *)
Theorem operator_neg_signed
  (unary : bool -> (Z -> Z -> Z) -> bignum -> M (option bignum))
  (x : bignum) (rt : runtime) :
  type x = ID_bignum \/ type x = ID_neg_bignum ->
  exists x' : bignum,
    operator_neg unary x rt = (Some x', rt)
    /\ value x' = value x
    /\ type x' = opposite_type (type x)
    /\ signed_value x' = - signed_value x
    /\ operator_neg unary x' rt = (Some x, rt)
    /\ (type x = ID_bignum -> compare x' x false = -1).
Proof.
  intros Ht. destruct x as [t v]. cbn [type] in Ht.
  exists {| type := opposite_type t; value := v |}.
  unfold operator_neg, make_bignum, ret, signed_value, magnitude, compare.
  cbn [type value]. rewrite !firstn_all.
  destruct Ht as [-> | ->]; cbn; repeat split; try reflexivity; try lia.
  discriminate.
Qed.

Lemma operator_neg_signed_witness :
  exists x' : bignum,
    operator_neg (fun _ _ _ => ret None) (big ID_bignum 0) no_error
    = (Some x', no_error)
    /\ value x' = value (big ID_bignum 0)
    /\ type x' = opposite_type (type (big ID_bignum 0))
    /\ signed_value x' = - signed_value (big ID_bignum 0)
    /\ operator_neg (fun _ _ _ => ret None) x' no_error
       = (Some (big ID_bignum 0), no_error)
    /\ (type (big ID_bignum 0) = ID_bignum ->
        compare x' (big ID_bignum 0) false = -1).
Proof.
  apply (operator_neg_signed (fun _ _ _ => ret None) (big ID_bignum 0)
           no_error).
  left. reflexivity.
Defined.

(** X5.  [add_sub] on signed bignums hands to [binary] a subtraction of the
    smaller magnitude from the larger one, or an addition, of which the
    result is the magnitude of [y + x], or of [y - x] when [issub], and asks
    for the kind that has the sign of that number; for a difference of zero
    it asks for the kind [bignum]. *)
Theorem add_sub_operands
  (binary : bool -> (Z -> Z -> Z -> Z) -> bignum -> bignum -> id
            -> M (option bignum))
  (y x : bignum) (issub : bool) :
  wf_bignum y -> wf_bignum x ->
  type y = ID_bignum \/ type y = ID_neg_bignum ->
  type x = ID_bignum \/ type x = ID_neg_bignum ->
  let s := if issub then signed_value y - signed_value x
           else signed_value y + signed_value x in
  exists (op : Z -> Z -> Z -> Z) (a b : bignum) (ty : id),
    add_sub binary (Some y) (Some x) issub = binary false op a b ty
    /\ ((op = sub_op /\ magnitude b <= magnitude a
         /\ magnitude a - magnitude b = Z.abs s
         /\ (s = 0 -> ty = ID_bignum))
        \/ (op = add_op /\ magnitude a + magnitude b = Z.abs s))
    /\ (s < 0 -> ty = ID_neg_bignum)
    /\ (0 < s -> ty = ID_bignum)
    /\ (s = 0 -> no_negative_zero x -> no_negative_zero y ->
        ty = ID_bignum).
Proof.
  intros Wy Wx Ty Tx s.
  pose proof (compare_magnitude_sgn y x Wy Wx) as Hc.
  destruct Wy as (_ & Hy & Ny & _), Wx as (_ & Hx & Nx & _).
  pose proof (le_value_bound _ Hy) as By.
  pose proof (le_value_bound _ Hx) as Bx.
  assert (Zx : magnitude x = 0 -> value x = [])
    by (apply (le_value_nil_iff _ Hx Nx)).
  assert (Zy : magnitude y = 0 -> value y = [])
    by (apply (le_value_nil_iff _ Hy Ny)).
  unfold add_sub. subst s. unfold signed_value, no_negative_zero.
  fold (magnitude y) in By. fold (magnitude x) in Bx.
  remember (compare y x true) as cmp eqn:Ecmp. clear Ecmp.
  destruct Ty as [Ty | Ty], Tx as [Tx | Tx]; rewrite Ty, Tx;
    destruct issub; cbn [id_eqb Bool.eqb negative opposite_type];
    try (destruct (0 <=? cmp) eqn:E0;
         [apply Z.leb_le in E0; destruct (cmp =? 0) eqn:E1;
          [apply Z.eqb_eq in E1|apply Z.eqb_neq in E1]
         |apply Z.leb_gt in E0]);
    do 4 eexists; (split; [reflexivity|]);
    (split; [first [left; split; [reflexivity|];
                    split; [lia|]; split; [lia|]; intros; reflexivity
                   |left; split; [reflexivity|];
                    split; [lia|]; split; [lia|]; intros; exfalso; lia
                   |right; split; [reflexivity|lia]]|]);
    repeat split; intros; try reflexivity; try lia; exfalso;
    match goal with
    | Hn : _ = ID_neg_bignum -> _ <> [] |- _ =>
        apply Hn; [reflexivity|first [apply Zx|apply Zy]; lia]
    end.
Qed.

Lemma add_sub_operands_witness :
  exists (op : Z -> Z -> Z -> Z) (a b : bignum) (ty : id),
    add_sub (fun _ _ _ _ _ => ret None)
            (Some (big ID_bignum 5)) (Some (big ID_bignum 70000)) true
    = (fun _ _ _ _ _ => ret None) false op a b ty
    /\ ((op = sub_op /\ magnitude b <= magnitude a
         /\ magnitude a - magnitude b
            = Z.abs (signed_value (big ID_bignum 5)
                     - signed_value (big ID_bignum 70000))
         /\ (signed_value (big ID_bignum 5)
             - signed_value (big ID_bignum 70000) = 0 -> ty = ID_bignum))
        \/ (op = add_op
            /\ magnitude a + magnitude b
               = Z.abs (signed_value (big ID_bignum 5)
                        - signed_value (big ID_bignum 70000))))
    /\ (signed_value (big ID_bignum 5) - signed_value (big ID_bignum 70000)
        < 0 -> ty = ID_neg_bignum)
    /\ (0 < signed_value (big ID_bignum 5)
            - signed_value (big ID_bignum 70000) -> ty = ID_bignum)
    /\ (signed_value (big ID_bignum 5) - signed_value (big ID_bignum 70000)
        = 0 ->
        no_negative_zero (big ID_bignum 70000) ->
        no_negative_zero (big ID_bignum 5) -> ty = ID_bignum).
Proof.
  apply (add_sub_operands (fun _ _ _ _ _ => ret None)
           (big ID_bignum 5) (big ID_bignum 70000) true).
  - apply wf_bignumb_true. reflexivity.
  - apply wf_bignumb_true. reflexivity.
  - left. reflexivity.
  - left. reflexivity.
Defined.

(* ========================================================================= *)
(** * The constructor of a bignum from a small integer                       *)
(* ========================================================================= *)

Lemma leb128_bits (b : Z) :
  is_byte b ->
  Z.land b 127 = b mod 128 /\ (Z.land b 128 =? 0) = (b <? 128).
Proof.
  intros Hb.
  pose proof (byte_cases
                (fun b => (Z.land b 127 =? b mod 128)
                          && Bool.eqb (Z.land b 128 =? 0) (b <? 128))
                ltac:(vm_compute; reflexivity) b Hb) as H.
  cbv beta in H. apply andb_true_iff in H. destruct H as [H1 H2].
  apply Z.eqb_eq in H1. apply Bool.eqb_prop in H2. split; assumption.
Qed.

Lemma leb128_ok_cons (b : Z) (q : list Z) :
  leb128_ok (b :: q) = true ->
  is_byte b
  /\ ((q = [] /\ b < 128) \/ (q <> [] /\ 128 <= b /\ leb128_ok q = true)).
Proof.
  destruct q as [|b' q'].
  - cbn [leb128_ok]. intros H. apply andb_true_iff in H.
    destruct H as [H1 H2]. apply Z.leb_le in H1. apply Z.ltb_lt in H2.
    unfold is_byte. change (2 ^ 8) with 256. split; [lia|left; split; [reflexivity|lia]].
  - intros H. change (((128 <=? b) && (b <? 256)
                       && leb128_ok (b' :: q')) = true) in H.
    apply andb_true_iff in H. destruct H as [H H3].
    apply andb_true_iff in H. destruct H as [H1 H2].
    apply Z.leb_le in H1. apply Z.ltb_lt in H2.
    unfold is_byte. change (2 ^ 8) with 256.
    split; [lia|right; split; [discriminate|split; [lia|exact H3]]].
Qed.

(** The loop writes the bytes of the number below the bits that it keeps in
    [c]. *)
Lemma bignum_bytes_loop_spec (q : list Z) :
  forall (c bits : Z) (out : list Z),
    leb128_ok q = true -> bytes_ok out ->
    0 <= bits <= 7 -> 0 <= c < 2 ^ bits ->
    exists (out' : list Z) (c' : Z),
      bignum_bytes_loop q c bits out = (out', c')
      /\ bytes_ok out' /\ 0 <= c' < 128
      /\ le_value out' + radix (List.length out') * c'
         = le_value out
           + radix (List.length out) * (c + 2 ^ bits * leb128_value q)
      /\ (last q 0 <> 0 -> c' = 0 -> last out' 1 <> 0).
Proof.
  induction q as [|b q IH]; intros c bits out Hq Hout Hbits Hc;
    [discriminate Hq|].
  apply leb128_ok_cons in Hq. destruct Hq as [Hb Hq].
  destruct (leb128_bits b Hb) as [Eg Em].
  unfold is_byte in Hb. change (2 ^ 8) with 256 in Hb.
  cbn [bignum_bytes_loop leb128_value]. rewrite Eg, Em.
  set (g := b mod 128).
  assert (Hg : 0 <= g < 128) by (apply Z.mod_pos_bound; lia).
  assert (Hp : 0 < 2 ^ bits <= 128).
  { split; [apply Z.pow_pos_nonneg; lia|].
    change 128 with (2 ^ 7). apply Z.pow_le_mono_r; lia. }
  rewrite Z.shiftl_mul_pow2 by lia.
  rewrite (uint32_small (g * 2 ^ bits))
    by (change (2 ^ 32) with 4294967296; nia).
  rewrite lor_low_high by lia.
  rewrite uint32_small by (change (2 ^ 32) with 4294967296; nia).
  set (c1 := c + g * 2 ^ bits).
  assert (Hc1 : 0 <= c1 < 2 ^ (bits + 7)).
  { unfold c1. rewrite Z.pow_add_r by lia. change (2 ^ 7) with 128. nia. }
  assert (Hflush :
    exists (out1 : list Z) (c2 bits2 : Z),
      (if 8 <=? bits + 7
       then (out ++ [byte c1], Z.shiftr c1 8, bits + 7 - 8)
       else (out, c1, bits + 7)) = (out1, c2, bits2)
      /\ bytes_ok out1 /\ 0 <= bits2 <= 7 /\ 0 <= c2 < 2 ^ bits2
      /\ le_value out1 + radix (List.length out1) * c2
         = le_value out + radix (List.length out) * c1
      /\ radix (List.length out1) * 2 ^ bits2
         = radix (List.length out) * 2 ^ (bits + 7)
      /\ (c1 <> 0 -> c2 = 0 -> last out1 1 <> 0)).
  { destruct (8 <=? bits + 7) eqn:E8.
    - apply Z.leb_le in E8.
      exists (out ++ [byte c1]), (Z.shiftr c1 8), (bits + 7 - 8).
      rewrite Z.shiftr_div_pow2 by lia. change (2 ^ 8) with 256.
      assert (Hsplit : 2 ^ (bits + 7) = 256 * 2 ^ (bits + 7 - 8)).
      { change 256 with (2 ^ 8). rewrite <- Z.pow_add_r by lia.
        f_equal. lia. }
      split; [reflexivity|].
      split; [apply bytes_ok_app; [exact Hout|];
              constructor; [apply is_byte_byte|constructor]|].
      split; [lia|].
      split; [split; [apply Z.div_pos; lia|
                      apply Z.div_lt_upper_bound; lia]|].
      rewrite le_value_app, length_app. cbn [List.length].
      replace (List.length out + 1)%nat with (S (List.length out)) by lia.
      rewrite radix_S, le_value_cons. change (le_value []) with 0.
      unfold byte. change (2 ^ 8) with 256.
      pose proof (Z.div_mod c1 256 ltac:(lia)) as Hdm.
      split; [nia|]. split; [rewrite Hsplit; ring|].
      intros Hnz Hz. rewrite last_last.
      pose proof (Z.mod_pos_bound c1 256 ltac:(lia)). lia.
    - apply Z.leb_gt in E8.
      exists out, c1, (bits + 7).
      split; [reflexivity|]. split; [exact Hout|]. split; [lia|].
      split; [exact Hc1|]. split; [reflexivity|]. split; [reflexivity|].
      intros Hnz Hz. contradiction. }
  destruct Hflush as (out1 & c2 & bits2 & E & Hout1 & Hbits2 & Hc2 & Hv & Hw
                      & Hlast).
  rewrite E.
  destruct Hq as [[-> Hlt] | (Hne & Hge & Hq)].
  - (* the last byte *)
    assert (Hm : (b <? 128) = true) by (apply Z.ltb_lt; exact Hlt).
    rewrite Hm. cbn [negb].
    assert (Eb : g = b) by (unfold g; apply Z.mod_small; lia).
    exists out1, c2. split; [reflexivity|]. split; [exact Hout1|].
    split; [split; [lia|];
            apply Z.lt_le_trans with (2 ^ bits2); [lia|];
            change 128 with (2 ^ 7); apply Z.pow_le_mono_r; lia|].
    split; [rewrite Hv; unfold c1; ring|].
    cbn [last]. intros Hnz. apply Hlast. unfold c1. nia.
  - (* a byte that another follows *)
    assert (Hm : (b <? 128) = false) by (apply Z.ltb_ge; exact Hge).
    rewrite Hm. cbn [negb].
    destruct (IH c2 bits2 out1 Hq Hout1 Hbits2 Hc2)
      as (out' & c' & Erun & Hout' & Hc' & Hv' & Hlast').
    exists out', c'. split; [exact Erun|]. split; [exact Hout'|].
    split; [exact Hc'|]. split.
    + rewrite Hv'.
      replace (radix (List.length out1) * (c2 + 2 ^ bits2 * leb128_value q))
        with (radix (List.length out1) * c2
              + radix (List.length out1) * 2 ^ bits2 * leb128_value q)
        by ring.
      rewrite Hw, Z.pow_add_r by lia. unfold c1 in Hv. nia.
    + intros Hnz. apply Hlast'.
      destruct q as [|b' q']; [contradiction|exact Hnz].
Qed.

Lemma bignum_bytes_spec (q : list Z) :
  leb128_ok q = true ->
  bytes_ok (bignum_bytes q)
  /\ le_value (bignum_bytes q) = leb128_value q
  /\ (last q 0 <> 0 -> normalized (bignum_bytes q)).
Proof.
  intros Hq.
  destruct (bignum_bytes_loop_spec q 0 0 [] Hq ltac:(constructor)
              ltac:(lia) ltac:(change (2 ^ 0) with 1; lia))
    as (out & c & Erun & Hout & Hc & Hv & Hlast).
  unfold bignum_bytes. rewrite Erun.
  change (le_value []) with 0 in Hv. cbn [List.length] in Hv.
  rewrite radix_0 in Hv. change (2 ^ 0) with 1 in Hv.
  destruct (c =? 0) eqn:Ec.
  - apply Z.eqb_eq in Ec. subst c.
    split; [exact Hout|]. split; [lia|].
    intros Hnz. apply (Hlast Hnz). reflexivity.
  - apply Z.eqb_neq in Ec.
    assert (Eb : byte c = c)
      by (apply byte_small; unfold is_byte; change (2 ^ 8) with 256; lia).
    rewrite Eb.
    split; [apply bytes_ok_app; [exact Hout|];
            constructor; [unfold is_byte; change (2 ^ 8) with 256; lia
                         |constructor]|].
    split; [rewrite le_value_app, le_value_cons;
            change (le_value []) with 0; lia|].
    intros _. unfold normalized. rewrite last_last. exact Ec.
Qed.

(** X6.  From a small integer to a bignum and back.  For the LEB128 payload
    of an integer below [2 ^ 64], zero included, without padding, the bytes
    that the constructor [bignum(type, value)] writes stand for the number of
    the payload and have no leading zero byte (none at all for zero), and
    [as_integer] on a bignum of these bytes gives that number back, as a
    [neg_integer] for a [neg_bignum] and as an [integer] otherwise. *)
Theorem bignum_of_integer_round_trip (ty : id) (q : list Z) :
  leb128_ok q = true -> leb128_minimal q = true ->
  leb128_value q < 2 ^ 64 ->
  bytes_ok (bignum_bytes q) /\ normalized (bignum_bytes q)
  /\ le_value (bignum_bytes q) = leb128_value q
  /\ (leb128_value q = 0 -> bignum_bytes q = [])
  /\ as_integer {| type := ty; value := bignum_bytes q |}
     = Some {| itype := if id_eqb ty ID_neg_bignum
                        then ID_neg_integer else ID_integer;
               ivalue := leb128_value q |}.
Proof.
  intros Hq Hm H64.
  destruct (bignum_bytes_spec q Hq) as (Hb & Hv & Hn).
  assert (Hnorm : normalized (bignum_bytes q)).
  { destruct q as [|b [|b' q']]; [discriminate Hq| |].
    - destruct (Z.eq_dec b 0) as [->|Eb].
      + vm_compute. discriminate.
      + apply Hn. exact Eb.
    - apply Hn. cbn [leb128_minimal] in Hm.
      apply negb_true_iff in Hm. apply Z.eqb_neq in Hm. exact Hm. }
  split; [exact Hb|]. split; [exact Hnorm|]. split; [exact Hv|].
  split; [intros Hz; apply (le_value_nil_iff _ Hb Hnorm); lia|].
  assert (Hlen : (List.length (bignum_bytes q) <= 8)%nat).
  { apply normalized_length; try assumption.
    rewrite Hv. change (radix 8) with (2 ^ 64). exact H64. }
  unfold as_integer, make_integer. cbn [type value].
  assert (E : (sizeof_ularge <? List.length (bignum_bytes q))%nat = false)
    by (apply Nat.ltb_ge; exact Hlen).
  rewrite E. f_equal. f_equal.
  rewrite (as_integer_loop_value (List.length (bignum_bytes q)) 0
             (bignum_bytes q) 0 Hb)
    by (cbn [Nat.add]; try lia; reflexivity).
  cbn [Nat.add]. rewrite firstn_all. exact Hv.
Qed.

Lemma bignum_of_integer_round_trip_witness :
  bytes_ok (bignum_bytes [229; 142; 38])
  /\ normalized (bignum_bytes [229; 142; 38])
  /\ le_value (bignum_bytes [229; 142; 38]) = leb128_value [229; 142; 38]
  /\ (leb128_value [229; 142; 38] = 0 -> bignum_bytes [229; 142; 38] = [])
  /\ as_integer {| type := ID_neg_bignum;
                   value := bignum_bytes [229; 142; 38] |}
     = Some {| itype := if id_eqb ID_neg_bignum ID_neg_bignum
                        then ID_neg_integer else ID_integer;
               ivalue := leb128_value [229; 142; 38] |}.
Proof.
  apply (bignum_of_integer_round_trip ID_neg_bignum [229; 142; 38]).
  - reflexivity.
  - reflexivity.
  - vm_compute. reflexivity.
Defined.

(* ========================================================================= *)
(** * [renderer::printf]                                                     *)
(* ========================================================================= *)

Lemma set_split (pos : nat) (b : Z) (memory : list Z) :
  (pos < List.length memory)%nat ->
  set pos b memory = firstn pos memory ++ b :: skipn (S pos) memory.
Proof.
  revert pos. induction memory as [|h t IH]; intros [|pos] H;
    cbn [List.length] in H; try lia; [reflexivity|].
  cbn [set firstn skipn app]. f_equal. apply IH. lia.
Qed.

(** Bytes stored within the memory replace the bytes that were there. *)
Lemma blit_split (bytes : list Z) :
  forall (pos : nat) (memory : list Z),
    (pos + List.length bytes <= List.length memory)%nat ->
    blit pos bytes memory
    = firstn pos memory ++ bytes
      ++ skipn (pos + List.length bytes) memory.
Proof.
  induction bytes as [|b bytes IH]; intros pos memory H;
    cbn [blit List.length] in *.
  - rewrite Nat.add_0_r. cbn [app]. symmetry. apply firstn_skipn.
  - rewrite IH by (rewrite length_set; lia).
    rewrite set_split by lia.
    rewrite firstn_app, firstn_firstn, firstn_length_le by lia.
    replace (Nat.min (S pos) pos) with pos by lia.
    replace (S pos - pos)%nat with 1%nat by lia.
    cbn [firstn]. rewrite <- app_assoc. cbn [app]. f_equal. f_equal. f_equal.
    rewrite skipn_app, firstn_length_le by lia.
    rewrite (skipn_all2 (firstn pos memory))
      by (rewrite firstn_length_le; lia).
    replace (S pos + List.length bytes - pos)%nat
      with (S (List.length bytes)) by lia.
    cbn [app]. rewrite skipn_cons, skipn_skipn. f_equal. lia.
Qed.

Lemma length_vsnprintf (n : nat) (s : list Z) :
  (List.length (vsnprintf n s) <= n)%nat.
Proof.
  destruct n as [|m]; [cbn; lia|].
  cbn [vsnprintf]. rewrite length_app, length_firstn. cbn [List.length]. lia.
Qed.

(** X7.  [printf] on a fixed buffer with room left stores the text within
    the room, less its last byte for the NUL that ends it, and leaves the
    rest of the memory as it was; but it adds the whole length of the text to
    [written], which then passes [length] when the text is longer than the
    room, and a text that fills the room exactly loses its last byte. *)
Theorem printf_fixed_target
  (stack s memory : list Z) (r : Renderer.renderer) :
  Renderer.saving r = None -> Renderer.target r = Some memory ->
  (Renderer.written r < Renderer.length r)%nat ->
  (Renderer.length r <= List.length memory)%nat ->
  let room := (Renderer.length r - Renderer.written r)%nat in
  let stored := Nat.min (List.length s) (room - 1) in
  exists memory' : list Z,
    fst (printf stack s r) = List.length s
    /\ Renderer.target (snd (printf stack s r)) = Some memory'
    /\ Renderer.length (snd (printf stack s r)) = Renderer.length r
    /\ Renderer.written (snd (printf stack s r))
       = (Renderer.written r + List.length s)%nat
    /\ memory'
       = firstn (Renderer.written r) memory
         ++ firstn stored s ++ [0]
         ++ skipn (Renderer.written r + stored + 1) memory
    /\ skipn (Renderer.length r) memory' = skipn (Renderer.length r) memory
    /\ ((room < List.length s)%nat ->
        (Renderer.length r < Renderer.written (snd (printf stack s r)))%nat)
    /\ ((room <= List.length s)%nat -> (stored < List.length s)%nat).
Proof.
  intros Hsv Htg Hw Hl room stored.
  unfold printf. rewrite Hsv, Htg.
  assert (E : (Renderer.length r <=? Renderer.written r)%nat = false)
    by (apply Nat.leb_gt; exact Hw).
  rewrite E. cbn [fst snd Renderer.target Renderer.length Renderer.written].
  fold room.
  assert (Ev : vsnprintf room s = firstn stored s ++ [0]).
  { unfold stored. destruct room as [|m] eqn:Er; [unfold room in Er; lia|].
    cbn [vsnprintf]. replace (S m - 1)%nat with m by lia.
    destruct (Nat.le_gt_cases m (List.length s)) as [Hm|Hm].
    - rewrite Nat.min_r by exact Hm. reflexivity.
    - rewrite Nat.min_l, firstn_all, firstn_all2 by lia. reflexivity. }
  assert (Ls : List.length (firstn stored s ++ [0]) = S stored).
  { rewrite length_app, length_firstn. cbn [List.length]. unfold stored. lia. }
  assert (Hfit : (Renderer.written r + S stored <= Renderer.length r)%nat)
    by (unfold stored, room; lia).
  exists (blit (Renderer.written r) (vsnprintf room s) memory).
  split; [reflexivity|]. split; [reflexivity|]. split; [reflexivity|].
  split; [reflexivity|].
  rewrite Ev, blit_split by (rewrite Ls; lia). rewrite Ls.
  replace (Renderer.written r + S stored)%nat
    with (Renderer.written r + stored + 1)%nat by lia.
  split; [rewrite <- app_assoc; reflexivity|].
  split.
  - rewrite skipn_app.
    rewrite (skipn_all2 (firstn (Renderer.written r) memory))
      by (rewrite firstn_length_le; lia).
    rewrite (firstn_length_le memory (n := Renderer.written r)) by lia.
    cbn [app]. rewrite skipn_app.
    rewrite (skipn_all2 (firstn stored s ++ [0])) by (rewrite Ls; lia).
    rewrite Ls. cbn [app]. rewrite skipn_skipn. f_equal. lia.
  - split; [unfold room; lia|unfold stored; lia].
Qed.

Lemma printf_fixed_target_witness :
  exists memory' : list Z,
    fst (printf [] [72; 101; 108; 108; 111] one_byte_buffer) = 5%nat
    /\ Renderer.target (snd (printf [] [72; 101; 108; 108; 111]
                                    one_byte_buffer)) = Some memory'
    /\ Renderer.length (snd (printf [] [72; 101; 108; 108; 111]
                                    one_byte_buffer)) = 1%nat
    /\ Renderer.written (snd (printf [] [72; 101; 108; 108; 111]
                                     one_byte_buffer)) = 5%nat
    /\ memory' = [0; 0; 0; 0]
    /\ skipn 1 memory' = skipn 1 [0; 0; 0; 0]
    /\ ((1 < 5)%nat ->
        (1 < Renderer.written (snd (printf [] [72; 101; 108; 108; 111]%Z
                                           one_byte_buffer)))%nat)
    /\ ((1 <= 5)%nat -> (0 < 5)%nat).
Proof.
  apply (printf_fixed_target [] [72; 101; 108; 108; 111] [0; 0; 0; 0]
           one_byte_buffer).
  - reflexivity.
  - reflexivity.
  - cbn. lia.
  - cbn. lia.
Defined.

(** X8.  [printf] on the scratchpad appends the text when it is shorter
    than 32 bytes; a text of 32 bytes or more is appended with a NUL in the
    place of its last byte.  [written] grows by the length of the text. *)
Theorem printf_scratchpad (stack s : list Z) (r : Renderer.renderer) :
  Renderer.saving r = None -> Renderer.target r = None ->
  fst (printf stack s r) = List.length s
  /\ Renderer.written (snd (printf stack s r))
     = (Renderer.written r + List.length s)%nat
  /\ Renderer.scratch (snd (printf stack s r))
     = Renderer.scratch r
       ++ (if (List.length s <? 32)%nat then s
           else firstn (List.length s - 1) s ++ [0])
  /\ List.length (Renderer.scratch (snd (printf stack s r)))
     = (List.length (Renderer.scratch r) + List.length s)%nat.
Proof.
  intros Hsv Htg. unfold printf. rewrite Hsv, Htg.
  cbn [fst snd Renderer.scratch Renderer.written].
  split; [reflexivity|]. split; [reflexivity|].
  destruct (List.length s <? 32)%nat eqn:E.
  - apply Nat.ltb_lt in E.
    assert (Ef : firstn (List.length s) (vsnprintf 32 s) = s).
    { change (vsnprintf 32 s) with (firstn 31 s ++ [0]).
      rewrite (firstn_all2 (n := 31)) by lia.
      rewrite firstn_app, firstn_all, Nat.sub_diag. cbn [firstn].
      apply app_nil_r. }
    rewrite Ef. split; [reflexivity|apply length_app].
  - apply Nat.ltb_ge in E.
    assert (Ev : vsnprintf (List.length s) s
                 = firstn (List.length s - 1) s ++ [0]).
    { destruct (List.length s) as [|m] eqn:El; [lia|].
      cbn [vsnprintf]. replace (S m - 1)%nat with m by lia. reflexivity. }
    rewrite Ev. split; [reflexivity|].
    rewrite !length_app, length_firstn. cbn [List.length]. lia.
Qed.

Lemma printf_scratchpad_witness :
  fst (printf [] (repeat 65 40) scratchpad) = List.length (repeat 65 40)
  /\ Renderer.written (snd (printf [] (repeat 65 40) scratchpad))
     = (Renderer.written scratchpad + List.length (repeat 65 40))%nat
  /\ Renderer.scratch (snd (printf [] (repeat 65 40) scratchpad))
     = Renderer.scratch scratchpad
       ++ (if (List.length (repeat 65 40) <? 32)%nat then repeat 65 40
           else firstn (List.length (repeat 65 40) - 1) (repeat 65 40)
                ++ [0])
  /\ List.length (Renderer.scratch (snd (printf [] (repeat 65 40)
                                                scratchpad)))
     = (List.length (Renderer.scratch scratchpad)
        + List.length (repeat 65 40))%nat.
Proof.
  apply (printf_scratchpad [] (repeat 65 40) scratchpad); reflexivity.
Defined.

(* ========================================================================= *)
(** * The text of a bignum                                                   *)
(* ========================================================================= *)

(** ** Digits *)

Lemma digits_fuel_spec (b : Z) (fuel : nat) :
  2 <= b ->
  forall n : Z,
    0 <= n < 2 ^ Z.of_nat (S fuel) ->
    digits_value b (digits_fuel (S fuel) b n) = n
    /\ Forall (fun d => 0 <= d < b) (digits_fuel (S fuel) b n)
    /\ (n <> 0 -> last (digits_fuel (S fuel) b n) 0 <> 0)
    /\ digits_fuel (S fuel) b n <> [].
Proof.
  intros Hb. induction fuel as [|fuel IH]; intros n Hn.
  - change (2 ^ Z.of_nat 1) with 2 in Hn.
    cbn [digits_fuel]. rewrite Z.div_small, Z.mod_small by lia.
    cbn [Z.eqb digits_value last]. repeat split; try lia.
    + constructor; [lia|constructor].
    + discriminate.
  - change (digits_fuel (S (S fuel)) b n)
      with (n mod b :: (if n / b =? 0 then []
                        else digits_fuel (S fuel) b (n / b))).
    pose proof (Z.div_mod n b ltac:(lia)) as Hdm.
    pose proof (Z.mod_pos_bound n b ltac:(lia)) as Hmod.
    assert (Hq : 0 <= n / b) by (apply Z.div_pos; lia).
    destruct (n / b =? 0) eqn:E.
    + apply Z.eqb_eq in E. cbn [digits_value last].
      repeat split; try lia; [constructor; [lia|constructor]|discriminate].
    + apply Z.eqb_neq in E.
      assert (Hlt : n / b < 2 ^ Z.of_nat (S fuel)).
      { apply Z.div_lt_upper_bound; [lia|].
        rewrite (Nat2Z.inj_succ (S fuel)), Z.pow_succ_r in Hn by lia. nia. }
      destruct (IH (n / b) ltac:(lia)) as (Hv & Hf & Hl & Hne).
      cbn [digits_value]. rewrite Hv.
      split; [lia|]. split; [constructor; [lia|exact Hf]|].
      split; [|discriminate].
      intros _. specialize (Hl E).
      destruct (digits_fuel (S fuel) b (n / b)) as [|d ds];
        [contradiction|exact Hl].
Qed.

Lemma digits_fuel_more (b : Z) (fuel : nat) :
  2 <= b ->
  forall (fuel' : nat) (n : Z),
    0 <= n < 2 ^ Z.of_nat (S fuel) -> 0 <= n < 2 ^ Z.of_nat (S fuel') ->
    digits_fuel (S fuel) b n = digits_fuel (S fuel') b n.
Proof.
  intros Hb. induction fuel as [|fuel IH]; intros fuel' n Hn Hn'.
  - change (2 ^ Z.of_nat 1) with 2 in Hn.
    cbn [digits_fuel]. rewrite Z.div_small by lia. reflexivity.
  - destruct fuel' as [|fuel'].
    + change (2 ^ Z.of_nat 1) with 2 in Hn'.
      cbn [digits_fuel]. rewrite Z.div_small by lia. reflexivity.
    + change (digits_fuel (S (S fuel)) b n)
        with (n mod b :: (if n / b =? 0 then []
                          else digits_fuel (S fuel) b (n / b))).
      change (digits_fuel (S (S fuel')) b n)
        with (n mod b :: (if n / b =? 0 then []
                          else digits_fuel (S fuel') b (n / b))).
      destruct (n / b =? 0); [reflexivity|]. f_equal.
      assert (Hq : 0 <= n / b) by (apply Z.div_pos; lia).
      apply IH; (split; [exact Hq|]);
        (apply Z.div_lt_upper_bound; [lia|]).
      * rewrite (Nat2Z.inj_succ (S fuel)), Z.pow_succ_r in Hn by lia. nia.
      * rewrite (Nat2Z.inj_succ (S fuel')), Z.pow_succ_r in Hn' by lia. nia.
Qed.

Lemma digits_bound (n : Z) :
  0 <= n -> 0 <= n < 2 ^ Z.of_nat (S (Z.to_nat (Z.log2 n))).
Proof.
  intros Hn. split; [exact Hn|].
  rewrite Nat2Z.inj_succ, Z2Nat.id by apply Z.log2_nonneg.
  destruct (Z.eq_dec n 0) as [-> | Hnz]; [reflexivity|].
  apply Z.log2_spec. lia.
Qed.

(** The digits stand for the number, each is below the base, and the most
    significant one is not zero, but for the number zero. *)
Lemma digits_spec (b n : Z) :
  2 <= b -> 0 <= n ->
  digits_value b (digits b n) = n
  /\ Forall (fun d => 0 <= d < b) (digits b n)
  /\ (n <> 0 -> last (digits b n) 0 <> 0)
  /\ digits b n <> [].
Proof.
  intros Hb Hn. apply digits_fuel_spec; [exact Hb|apply digits_bound, Hn].
Qed.

Lemma digit_char_plain (d : Z) :
  0 <= d < 36 ->
  Renderer.isspace (digit_char d) = false
  /\ digit_char d <> 34 /\ 0 <= digit_char d < 256.
Proof.
  intros Hd. unfold digit_char, Renderer.isspace.
  destruct (d <? 10) eqn:E;
    [apply Z.ltb_lt in E|apply Z.ltb_ge in E];
    (split; [|lia]);
    apply orb_false_iff; (split; [apply Z.eqb_neq; lia|]);
    apply andb_false_iff; right; apply Z.leb_gt; lia.
Qed.

(** ** [put] on the scratchpad *)

Lemma plain_appended (out : list Z) (r : Renderer.renderer) :
  plain r -> plain (appended out r).
Proof.
  intros (Ht & Hs & Hg & Hf & Hn & Hw). unfold plain, appended. cbn.
  rewrite length_app, Hw. repeat split; assumption.
Qed.

Lemma appended_appended (a b : list Z) (r : Renderer.renderer) :
  appended b (appended a r) = appended (a ++ b) r.
Proof.
  unfold appended. cbn. rewrite length_app, <- app_assoc, Nat.add_assoc.
  reflexivity.
Qed.

Lemma appended_nil (r : Renderer.renderer) :
  Renderer.cr r = false -> appended [] r = r.
Proof.
  intros H. destruct r. cbn in H. subst. unfold appended. cbn.
  rewrite app_nil_r, Nat.add_0_r. reflexivity.
Qed.

(** A character that is no newline and no quote is appended to a plain
    renderer with room left; a space, when no space has to be skipped. *)
Lemma put_appends (c : Z) (r : Renderer.renderer) :
  plain r -> (Renderer.written r < Renderer.length r)%nat ->
  Renderer.isspace c = false \/ Renderer.cr r = false ->
  c <> Renderer.char_newline -> c <> Renderer.char_quote ->
  Renderer.put c r = (true, appended [c] r).
Proof.
  intros (Ht & Hs & Hg & Hf & Hn & Hw) Hroom Hsp Hnl Hq.
  destruct r as [tg sv sc len wr tb eq ed st fl sg sp cr nl tx].
  cbn in Ht, Hs, Hg, Hf, Hn, Hw, Hroom, Hsp. subst tg sv sg fl nl.
  apply Nat.leb_gt in Hroom. apply Z.eqb_neq in Hnl. apply Z.eqb_neq in Hq.
  unfold Renderer.put.
  change (Renderer.put_fuel 4 c ?x)
    with (Renderer.put_body (Renderer.put_fuel 3) c x).
  unfold Renderer.put_body.
  cbn [Renderer.sign Renderer.length Renderer.written Renderer.flat
       Renderer.cr Renderer.nl].
  rewrite Hroom. cbv beta iota zeta.
  cbn [Renderer.cr Renderer.nl Renderer.store Renderer.saving
       Renderer.target orb andb].
  rewrite andb_false_r. cbn [negb].
  rewrite Hnl, Hq.
  unfold appended.
  cbn [Renderer.target Renderer.saving Renderer.scratch Renderer.length
       Renderer.written Renderer.tabs Renderer.equation Renderer.editing
       Renderer.stack Renderer.flat Renderer.sign Renderer.space
       Renderer.cr Renderer.nl Renderer.txt List.length].
  replace (wr + 1)%nat with (S wr) by lia.
  destruct Hsp as [Hsp | Hsp].
  - rewrite Hsp.
    assert (E32 : (c =? Renderer.char_space) = false).
    { apply Z.eqb_neq. intros ->. discriminate Hsp. }
    rewrite E32. reflexivity.
  - subst cr. rewrite andb_false_r.
    destruct (Renderer.isspace c); reflexivity.
Qed.

(** ** The loop on the digits *)

Lemma le_bytes_fuel_0 (fuel : nat) : le_bytes_fuel fuel 0 = [].
Proof. destruct fuel; reflexivity. Qed.

Lemma le_bytes_byte (v : Z) : 0 < v < 256 -> le_bytes v = [v].
Proof.
  intros H. unfold le_bytes. cbn [le_bytes_fuel].
  assert (E : (v <=? 0) = false) by (apply Z.leb_gt; lia).
  rewrite E. unfold byte. change (2 ^ 8) with 256.
  rewrite Z.mod_small by lia.
  rewrite Z.shiftr_div_pow2 by lia. change (2 ^ 8) with 256.
  rewrite Z.div_small by lia. rewrite le_bytes_fuel_0. reflexivity.
Qed.

Lemma group_cons (spacing : nat) (sep : Z) (k : nat) (c : Z)
                 (cs : list Z) :
  cs <> [] ->
  group spacing sep k (c :: cs)
  = c :: (if (S k =? spacing)%nat then sep :: group spacing sep 0 cs
          else group spacing sep (S k) cs).
Proof. destruct cs as [|c' cs']; [contradiction|reflexivity]. Qed.

Lemma put_unicode_appends (spc : Z) (r : Renderer.renderer) :
  plain r -> (Renderer.written r < Renderer.length r)%nat ->
  Renderer.cr r = false ->
  0 <= spc < 128 -> spc <> 10 -> spc <> 34 ->
  Render.put_unicode spc r = (true, appended [spc] r).
Proof.
  intros Hp Hroom Hcr Hs Hnl Hq. unfold Render.put_unicode, utf8_encode.
  assert (E : (spc <? 128) = true) by (apply Z.ltb_lt; lia).
  rewrite E. cbn [Render.put_bytes].
  rewrite (put_appends spc r Hp Hroom (or_intror Hcr) Hnl Hq).
  reflexivity.
Qed.

Section RenderDigits.

Variable Settings : settings.
Variable stray : Z.
Variables base spc : Z.
Variable sp : nat.

Hypothesis base_ok : 2 <= base <= 36.
Hypothesis spc_ok : 0 <= spc < 128.
Hypothesis spc_newline : spc <> 10.
Hypothesis spc_quote : spc <> 34.

Lemma quorem_by_base (n : bignum) (rt : runtime) :
  bytes_ok (value n) ->
  exists qv rv : list Z,
    quorem Settings stray n {| type := ID_bignum; value := le_bytes base |}
           ID_bignum true true rt
    = ((true, Some {| type := ID_bignum; value := qv |},
              Some {| type := ID_bignum; value := rv |}), rt)
    /\ bytes_ok qv
    /\ le_value qv = magnitude n / base
    /\ le_value rv = magnitude n mod base.
Proof.
  intros Hn.
  set (b := {| type := ID_bignum; value := le_bytes base |}).
  assert (Eb : value b = [base])
    by (unfold b; cbn [value]; apply le_bytes_byte; lia).
  assert (Hb : bytes_ok (value b)).
  { rewrite Eb. constructor; [|constructor].
    unfold is_byte. change (2 ^ 8) with 256. lia. }
  assert (Nb : normalized (value b))
    by (rewrite Eb; unfold normalized; cbn [last]; lia).
  assert (Sb : Z.of_nat (List.length (value b)) < 2 ^ 31 - 1)
    by (rewrite Eb; cbn; lia).
  assert (Zb : is_zero b = false).
  { unfold is_zero. rewrite Eb. cbn [forallb].
    assert (E : (0 =? base) = false) by (apply Z.eqb_neq; lia).
    rewrite E. reflexivity. }
  destruct (quorem_total Settings stray n b Hn Hb Nb Sb Zb)
    as (qv & rv & Hrun & Bq & Br & Vq & Vr & _).
  rewrite quorem_cut_signed in Vq, Vr by reflexivity.
  assert (Em : magnitude b = base).
  { unfold magnitude. rewrite Eb, le_value_cons.
    change (le_value []) with 0. lia. }
  rewrite Em in Vq, Vr.
  exists qv, rv. split; [apply Hrun|]. split; [exact Bq|].
  split; assumption.
Qed.

Lemma render_digits_spec (fuel : nat) :
  forall (n : bignum) (r : Renderer.renderer) (k : nat) (rt : runtime),
    bytes_ok (value n) -> plain r ->
    0 <= magnitude n < 2 ^ Z.of_nat (S fuel) ->
    Z.of_nat k + Z.of_nat (S fuel) < 2 ^ 32 ->
    (Renderer.written r + 2 * S fuel <= Renderer.length r)%nat ->
    Render.render_digits Settings stray (S fuel) base
      {| type := ID_bignum; value := le_bytes base |}
      (Z.of_nat sp) spc (Z.of_nat k) n r rt
    = (appended (group sp spc k
                   (map digit_char (digits_fuel (S fuel) base (magnitude n))))
                r, rt).
Proof.
  induction fuel as [|fuel IH]; intros n r k rt Hn Hp HN Hk Hroom.
  - (* one digit *)
    change (2 ^ Z.of_nat 1) with 2 in HN.
    destruct (quorem_by_base n rt Hn) as (qv & rv & Hrun & Bq & Vq & Vr).
    rewrite Z.div_small in Vq by lia. rewrite Z.mod_small in Vr by lia.
    cbn [Render.render_digits]. unfold bind at 1. rewrite Hrun.
    cbv beta iota. cbn [value].
    rewrite Vr, uint32_small by lia.
    assert (E1 : (base <? magnitude n) = false) by (apply Z.ltb_ge; lia).
    rewrite E1. unfold bind at 1, ret at 1. cbv beta iota.
    assert (Zq : is_zero {| type := ID_bignum; value := qv |} = true).
    { unfold is_zero. cbn [value]. apply (is_zero_value qv Bq). exact Vq. }
    rewrite Zq. cbn [negb]. cbv beta iota zeta. unfold ret.
    destruct (digit_char_plain (magnitude n) ltac:(lia)) as (Is & Iq & Ib).
    change (65 - 10) with 55. fold (digit_char (magnitude n)).
    rewrite (byte_small (digit_char (magnitude n)))
      by (unfold is_byte; change (2 ^ 8) with 256; lia).
    rewrite (put_appends _ r Hp ltac:(lia) (or_introl Is))
      by (try exact Iq; intros E; rewrite E in Is; discriminate Is).
    cbn [snd digits_fuel]. rewrite Z.div_small, Z.mod_small by lia.
    reflexivity.
  - (* a digit, and the digits of the quotient *)
    destruct (quorem_by_base n rt Hn) as (qv & rv & Hrun & Bq & Vq & Vr).
    pose proof (Z.mod_pos_bound (magnitude n) base ltac:(lia)) as Hmod.
    assert (Hq : 0 <= magnitude n / base) by (apply Z.div_pos; lia).
    change (Render.render_digits Settings stray (S (S fuel)) base ?pb ?ps ?pc
              ?pk n r rt)
      with ((res <- quorem Settings stray n pb ID_bignum true true ;;
             match res with
             | (true, Some _, Some remainder) =>
                 let digit := uint32 (le_value (value remainder)) in
                 res <- (if base <? digit
                         then quorem Settings stray n pb ID_bignum true true
                         else ret res) ;;
                 match res with
                 | (_, Some quotient, Some _) =>
                     let c := byte (if digit <? 10 then digit + 48
                                    else digit + (65 - 10)) in
                     let r := snd (Renderer.put c r) in
                     let n := quotient in
                     let '(sep, r) :=
                       if negb (is_zero n) then
                         let sep := uint32 (pk + 1) in
                         if sep =? ps
                         then (0, snd (Render.put_unicode pc r))
                         else (sep, r)
                       else (pk, r) in
                     if negb (is_zero n)
                     then Render.render_digits Settings stray (S fuel)
                            base pb ps pc sep n r
                     else ret r
                 | _ => ret r
                 end
             | _ => ret r
             end) rt).
    unfold bind at 1. rewrite Hrun.
    cbv beta iota. cbn [value].
    rewrite Vr, uint32_small by lia.
    assert (E1 : (base <? magnitude n mod base) = false)
      by (apply Z.ltb_ge; lia).
    rewrite E1. unfold bind at 1, ret at 1. cbv beta iota zeta.
    destruct (digit_char_plain (magnitude n mod base) ltac:(lia))
      as (Is & Iq & Ib).
    change (65 - 10) with 55. fold (digit_char (magnitude n mod base)).
    rewrite (byte_small (digit_char (magnitude n mod base)))
      by (unfold is_byte; change (2 ^ 8) with 256; lia).
    rewrite (put_appends _ r Hp ltac:(lia) (or_introl Is))
      by (try exact Iq; intros E; rewrite E in Is; discriminate Is).
    cbn [snd].
    change (digits_fuel (S (S fuel)) base (magnitude n))
      with (magnitude n mod base
            :: (if magnitude n / base =? 0 then []
                else digits_fuel (S fuel) base (magnitude n / base))).
    set (q := {| type := ID_bignum; value := qv |}).
    assert (Eq : magnitude q = magnitude n / base) by exact Vq.
    destruct (magnitude n / base =? 0) eqn:E0.
    + apply Z.eqb_eq in E0.
      assert (Zq : is_zero q = true).
      { unfold is_zero, q. cbn [value]. apply (is_zero_value qv Bq). lia. }
      rewrite Zq. cbn [negb]. cbv beta iota. unfold ret. reflexivity.
    + apply Z.eqb_neq in E0.
      assert (Zq : is_zero q = false).
      { unfold is_zero, q. cbn [value].
        destruct (forallb (Z.eqb 0) qv) eqn:Ez; [|reflexivity].
        apply (is_zero_value qv Bq) in Ez. lia. }
      rewrite Zq. cbn [negb]. cbv beta iota zeta.
      rewrite uint32_small by lia.
      assert (Hlt : magnitude n / base < 2 ^ Z.of_nat (S fuel)).
      { apply Z.div_lt_upper_bound; [lia|].
        rewrite (Nat2Z.inj_succ (S fuel)), Z.pow_succ_r in HN by lia. nia. }
      pose proof (plain_appended [digit_char (magnitude n mod base)] r Hp)
        as Hp1.
      destruct (digits_fuel_spec base fuel ltac:(lia) (magnitude n / base)
                  ltac:(lia)) as (_ & _ & _ & Hne).
      cbn [map].
      rewrite group_cons
        by (intros Hm; apply map_eq_nil in Hm; contradiction).
      replace (Z.of_nat k + 1) with (Z.of_nat (S k)) by lia.
      assert (Ecmp : (Z.of_nat (S k) =? Z.of_nat sp) = (S k =? sp)%nat).
      { destruct (S k =? sp)%nat eqn:En.
        - apply Nat.eqb_eq in En. apply Z.eqb_eq. lia.
        - apply Nat.eqb_neq in En. apply Z.eqb_neq. lia. }
      rewrite Ecmp.
      destruct (S k =? sp)%nat.
      * rewrite (put_unicode_appends spc _ Hp1)
          by (try assumption; try reflexivity;
              unfold appended; cbn; lia).
        cbn [snd]. rewrite appended_appended.
        change 0 with (Z.of_nat 0).
        rewrite (IH q _ 0%nat rt Bq).
        -- rewrite appended_appended, Eq. reflexivity.
        -- apply plain_appended. exact Hp.
        -- rewrite Eq. lia.
        -- lia.
        -- unfold appended. cbn. lia.
      * rewrite (IH q _ (S k) rt Bq).
        -- rewrite appended_appended, Eq. reflexivity.
        -- exact Hp1.
        -- rewrite Eq. lia.
        -- lia.
        -- unfold appended. cbn. lia.
Qed.

End RenderDigits.

(** ** [render_num] *)

Lemma reverse_in_tail (head tail : list Z) :
  Render.reverse_in (List.length head) (List.length (head ++ tail)) false
                    (head ++ tail)
  = head ++ rev tail.
Proof.
  unfold Render.reverse_in, utf8_reverse.
  rewrite firstn_app, firstn_all, Nat.sub_diag. cbn [firstn].
  rewrite app_nil_r. f_equal.
  rewrite skipn_app, skipn_all, Nat.sub_diag. cbn [skipn app].
  rewrite length_app.
  replace (List.length head + List.length tail - List.length head)%nat
    with (List.length tail) by lia.
  rewrite firstn_all.
  rewrite skipn_all2 by (rewrite length_app; lia).
  apply app_nil_r.
Qed.

Lemma reverse_text_appended (pre ds : list Z) (r : Renderer.renderer) :
  plain r ->
  Render.reverse_text (Renderer.written r + List.length pre) false
                      (appended (pre ++ ds) r)
  = appended (pre ++ rev ds) r.
Proof.
  intros (Ht & Hs & Hg & Hf & Hn & Hw).
  unfold Render.reverse_text, Render.size, appended, Renderer.with_scratch.
  cbn [Renderer.target Renderer.saving Renderer.scratch Renderer.length
       Renderer.written Renderer.tabs Renderer.equation Renderer.editing
       Renderer.stack Renderer.flat Renderer.sign Renderer.space
       Renderer.cr Renderer.nl Renderer.txt].
  rewrite Ht, Hs, Hw.
  rewrite !length_app, length_rev.
  replace (List.length (Renderer.scratch r) + List.length pre)%nat
    with (List.length (Renderer.scratch r ++ pre)) by apply length_app.
  replace (List.length (Renderer.scratch r)
           + (List.length pre + List.length ds))%nat
    with (List.length ((Renderer.scratch r ++ pre) ++ ds))
    by (rewrite !length_app; lia).
  rewrite (app_assoc (Renderer.scratch r) pre ds).
  rewrite reverse_in_tail. rewrite <- app_assoc. reflexivity.
Qed.

Lemma length_digits_fuel (fuel : nat) (b n : Z) :
  (List.length (digits_fuel fuel b n) <= fuel)%nat.
Proof.
  revert n. induction fuel as [|fuel IH]; intros n; [cbn; lia|].
  cbn [digits_fuel List.length].
  destruct (n / b =? 0); [cbn; lia|]. specialize (IH (n / b)). lia.
Qed.

Lemma length_group_le (spacing : nat) (sep : Z) (k : nat) (cs : list Z) :
  (List.length (group spacing sep k cs) <= 2 * List.length cs)%nat.
Proof.
  revert k. induction cs as [|c cs IH]; intros k; [cbn; lia|].
  destruct cs as [|c' cs']; [cbn; lia|].
  rewrite group_cons by discriminate.
  destruct (S k =? spacing)%nat; cbn [List.length].
  - specialize (IH 0%nat). cbn [List.length] in IH. lia.
  - specialize (IH (S k)). cbn [List.length] in IH. lia.
Qed.

(** What [render_num] appends to a plain renderer. *)
Lemma render_num_appends
  (Settings : settings) (stray : Z)
  (flush : Renderer.renderer -> Renderer.renderer)
  (scratch_renderer : bool -> bool -> bool -> Renderer.renderer)
  (r : Renderer.renderer) (num : bignum) (base : Z) (fmt : list Z)
  (raw : bool) (rt : runtime) :
  let based := match fmt with c :: _ => c =? 35 | [] => false end in
  let spacing :=
    if raw then 0
    else if based then spacing_based Settings
         else spacing_mantissa Settings in
  let spc :=
    if raw then 0
    else if based then space_based Settings else space Settings in
  let out :=
    firstn 1 fmt
    ++ number_text base (Z.to_nat spacing) spc (magnitude num)
    ++ firstn 1 (skipn 1 fmt) in
  plain r -> bytes_ok (value num) ->
  Z.of_nat (List.length (value num)) < 2 ^ 28 ->
  2 <= base <= 36 ->
  (if raw then false else based && Renderer.stack r) = false ->
  0 <= spacing < 2 ^ 32 ->
  0 <= spc < 128 -> spc <> 10 -> spc <> 34 ->
  Forall (fun c => Renderer.isspace c = false /\ c <> 34) (firstn 2 fmt) ->
  (fmt = [] -> flush r = r) ->
  (Renderer.written r + 16 * List.length (value num) + 4
   <= Renderer.length r)%nat ->
  Render.render_num Settings stray flush scratch_renderer r num base fmt raw
                    rt
  = (((Renderer.written r + List.length out)%nat, appended out r), rt).
Proof.
  intros based spacing spc out Hp Hnum Hsize Hbase Hfancy Hspacing Hspc
    Hnl Hq Hfmt Hflush Hroom.
  pose proof (le_value_bound _ Hnum) as HN. fold (magnitude num) in HN.
  assert (Hplain := Hp). destruct Hp as (Ht & Hs & Hg & Hf & Hn & Hw).
  unfold Render.render_num, Render.file_save. rewrite Hs.
  unfold Render.render_num_text. fold based.
  replace (if raw then false else based && Renderer.stack r) with false.
  fold spacing. fold spc.
  (* the first character of the format *)
  set (pre := firstn 1 fmt).
  set (suf := firstn 1 (skipn 1 fmt)).
  assert (Hpre :
    exists r1 : Renderer.renderer,
      match fmt with
      | c :: fmt' => (snd (Renderer.put c r), fmt')
      | [] => (flush r, [])
      end = (r1, skipn 1 fmt)
      /\ plain r1 /\ Renderer.written r1
                      = (Renderer.written r + List.length pre)%nat
      /\ Renderer.length r1 = Renderer.length r
      /\ forall ds : list Z,
          ds <> [] -> appended ds r1 = appended (pre ++ ds) r).
  { destruct fmt as [|c fmt'].
    - exists r. rewrite (Hflush eq_refl). split; [reflexivity|].
      split; [exact Hplain|]. split; [cbn; lia|]. split; [reflexivity|].
      intros ds _. reflexivity.
    - exists (appended [c] r).
      assert (Hc : Renderer.isspace c = false /\ c <> 34)
        by (inversion Hfmt; assumption).
      destruct Hc as [Hc1 Hc2].
      rewrite (put_appends c r Hplain ltac:(lia) (or_introl Hc1))
        by (try exact Hc2; intros E; rewrite E in Hc1; discriminate Hc1).
      split; [reflexivity|]. split; [apply plain_appended, Hplain|].
      split; [reflexivity|]. split; [reflexivity|].
      intros ds _. apply appended_appended. }
  destruct Hpre as (r1 & E1 & Hp1 & Hw1 & Hl1 & Happ). rewrite E1.
  cbv beta iota zeta.
  (* the digits *)
  unfold bind at 1.
  replace (8 * List.length (value num) + 1)%nat
    with (S (8 * List.length (value num))) by lia.
  change 0 with (Z.of_nat 0) at 1.
  assert (Esp : spacing = Z.of_nat (Z.to_nat spacing))
    by (rewrite Z2Nat.id; lia).
  rewrite Esp at 1.
  assert (Hfuel : 0 <= magnitude num
                  < 2 ^ Z.of_nat (S (8 * List.length (value num)))).
  { split; [lia|]. apply Z.lt_le_trans with (radix (List.length (value num)));
      [lia|].
    unfold radix. apply Z.pow_le_mono_r; lia. }
  assert (Lpre : (List.length pre <= 1)%nat)
    by (unfold pre; rewrite length_firstn; lia).
  assert (Lsuf : (List.length suf <= 1)%nat)
    by (unfold suf; rewrite length_firstn; lia).
  rewrite (render_digits_spec Settings stray base spc (Z.to_nat spacing)
             Hbase Hspc Hnl Hq (8 * List.length (value num)) num r1 0%nat rt
             Hnum Hp1 Hfuel)
    by (first [rewrite Hw1, Hl1; lia
              |change (2 ^ 32) with (16 * 2 ^ 28); lia]).
  rewrite (digits_fuel_more base (8 * List.length (value num))
             ltac:(lia) (Z.to_nat (Z.log2 (magnitude num))) (magnitude num)
             Hfuel (digits_bound (magnitude num) (proj1 HN))).
  fold (digits base (magnitude num)).
  set (ds := group (Z.to_nat spacing) spc 0
               (map digit_char (digits base (magnitude num)))).
  assert (Hds : ds <> []).
  { unfold ds.
    destruct (digits_spec base (magnitude num) ltac:(lia) ltac:(lia))
      as (_ & _ & _ & Hne).
    destruct (digits base (magnitude num)) as [|d l]; [contradiction|].
    cbn [map group]. discriminate. }
  assert (Lds : (List.length ds
                 <= 2 * S (8 * List.length (value num)))%nat).
  { unfold ds. rewrite length_group_le, length_map.
    unfold digits.
    rewrite <- (digits_fuel_more base (8 * List.length (value num))
                  ltac:(lia) (Z.to_nat (Z.log2 (magnitude num)))
                  (magnitude num) Hfuel
                  (digits_bound (magnitude num) (proj1 HN))).
    pose proof (length_digits_fuel (S (8 * List.length (value num))) base
                  (magnitude num)).
    lia. }
  rewrite (Happ ds Hds).
  (* the reversal *)
  replace (negb (spacing =? 0) && (255 <? spc)) with false
    by (symmetry; apply andb_false_iff; right; apply Z.ltb_ge; lia).
  unfold Render.size. rewrite Hw1.
  rewrite (reverse_text_appended pre ds r Hplain).
  fold (number_text base (Z.to_nat spacing) spc (magnitude num)).
  (* the second character of the format *)
  unfold ret. unfold number_text in out. fold ds in out.
  assert (Hp3 : plain (appended (pre ++ rev ds) r))
    by (apply plain_appended, Hplain).
  destruct (skipn 1 fmt) as [|c fmt''] eqn:Es.
  - unfold out, suf. cbn [firstn]. rewrite app_nil_r.
    unfold appended at 1. cbn [Renderer.written]. reflexivity.
  - assert (Hc : Renderer.isspace c = false /\ c <> 34).
    { destruct fmt as [|c0 [|c1 fmt']]; try discriminate Es.
      cbn [skipn] in Es. injection Es as -> ->.
      cbn [firstn] in Hfmt. inversion Hfmt as [|? ? _ Hf2]; subst.
      inversion Hf2; assumption. }
    destruct Hc as [Hc1 Hc2].
    rewrite (put_appends c _ Hp3)
      by (first [exact Hc2
                |left; exact Hc1
                |intros E; rewrite E in Hc1; discriminate Hc1
                |unfold appended; cbn [Renderer.written Renderer.length];
                 rewrite length_app, length_rev; lia]).
    cbn [snd]. rewrite appended_appended.
    unfold out, suf. cbn [firstn]. rewrite <- app_assoc.
    unfold appended at 1. cbn [Renderer.written]. reflexivity.
Qed.





(** X17.  The text of the signed and of the based bignums.  On a renderer
    that writes to the scratchpad with nothing pending, that is not the one
    of the stack and has room left (16 bytes for each byte of the number and
    4 more), for a number of fewer than [2 ^ 28] bytes and, for both the
    mantissa and the based numbers, a spacing below [2 ^ 32] and a separator
    that is an ASCII character, no newline and no quote:
    [RENDER_BODY(neg_bignum)] appends a minus sign and the decimal digits,
    and the bodies of [hex_bignum], [dec_bignum], [oct_bignum] and
    [bin_bignum] append [#], the digits in base 16, 10, 8 and 2, in the
    groups of the based numbers, and the letter of the base.  Each returns
    the count of all that is written. *)
Theorem render_bodies_text
  (Settings : settings) (stray : Z)
  (flush : Renderer.renderer -> Renderer.renderer)
  (scratch_renderer : bool -> bool -> bool -> Renderer.renderer)
  (r : Renderer.renderer) (o : bignum) (rt : runtime) :
  let signed_text :=
    45 :: number_text 10 (Z.to_nat (spacing_mantissa Settings))
                      (space Settings) (magnitude o) in
  let based_text (base letter : Z) :=
    35 :: number_text base (Z.to_nat (spacing_based Settings))
                      (space_based Settings) (magnitude o) ++ [letter] in
  plain r -> Renderer.stack r = false ->
  bytes_ok (value o) -> Z.of_nat (List.length (value o)) < 2 ^ 28 ->
  0 <= spacing_mantissa Settings < 2 ^ 32 ->
  0 <= space Settings < 128 ->
  space Settings <> 10 -> space Settings <> 34 ->
  0 <= spacing_based Settings < 2 ^ 32 ->
  0 <= space_based Settings < 128 ->
  space_based Settings <> 10 -> space_based Settings <> 34 ->
  (Renderer.written r + 16 * List.length (value o) + 4
   <= Renderer.length r)%nat ->
  render_neg_bignum Settings stray flush scratch_renderer r o rt
  = (((Renderer.written r + List.length signed_text)%nat,
      appended signed_text r), rt)
  /\ render_hex_bignum Settings stray flush scratch_renderer r o rt
     = (((Renderer.written r + List.length (based_text 16%Z 104%Z))%nat,
         appended (based_text 16 104) r), rt)
  /\ render_dec_bignum Settings stray flush scratch_renderer r o rt
     = (((Renderer.written r + List.length (based_text 10%Z 100%Z))%nat,
         appended (based_text 10 100) r), rt)
  /\ render_oct_bignum Settings stray flush scratch_renderer r o rt
     = (((Renderer.written r + List.length (based_text 8%Z 111%Z))%nat,
         appended (based_text 8 111) r), rt)
  /\ render_bin_bignum Settings stray flush scratch_renderer r o rt
     = (((Renderer.written r + List.length (based_text 2%Z 98%Z))%nat,
         appended (based_text 2 98) r), rt).
Proof.
  intros signed_text based_text Hp Hst Ho So Hs1 Hc1 Hn1 Hq1 Hs2 Hc2 Hn2 Hq2
    Hroom.
  assert (Hbased :
    forall base letter : Z,
      2 <= base <= 36 -> Renderer.isspace letter = false -> letter <> 34 ->
      Render.render_num Settings stray flush scratch_renderer r o base
                        [35; letter] false rt
      = (((Renderer.written r + List.length (based_text base letter))%nat,
          appended (based_text base letter) r), rt)).
  { intros base letter Hb Hl1 Hl2.
    apply (render_num_appends Settings stray flush scratch_renderer r o base
             [35; letter] false rt Hp Ho So Hb);
      try assumption; try discriminate.
    cbn [firstn]. constructor; [split; [reflexivity|discriminate]|].
    constructor; [split; assumption|constructor]. }
  split; [|split; [|split; [|split]]].
  - unfold render_neg_bignum.
    rewrite (render_num_appends Settings stray flush scratch_renderer r o 10
               [45] false rt Hp Ho So)
      by (first [lia|reflexivity|assumption|discriminate
                |repeat constructor; discriminate]).
    cbn [firstn skipn app Z.eqb]. change (45 =? 35)%positive with false.
    cbv iota. rewrite app_nil_r. reflexivity.
  - apply Hbased; [lia|reflexivity|discriminate].
  - apply Hbased; [lia|reflexivity|discriminate].
  - apply Hbased; [lia|reflexivity|discriminate].
  - apply Hbased; [lia|reflexivity|discriminate].
Qed.

Lemma render_bodies_text_witness :
  render_neg_bignum (settings_with_space 44) 0 (fun r => r)
                    (fun _ _ _ => scratchpad) scratchpad
                    (big ID_neg_bignum 51966) no_error
  = ((7%nat, appended [45; 53; 49; 44; 57; 54; 54] scratchpad), no_error)
  /\ render_hex_bignum (settings_with_space 44) 0 (fun r => r)
                       (fun _ _ _ => scratchpad) scratchpad
                       (big ID_neg_bignum 51966) no_error
     = ((6%nat, appended [35; 67; 65; 70; 69; 104] scratchpad), no_error)
  /\ render_dec_bignum (settings_with_space 44) 0 (fun r => r)
                       (fun _ _ _ => scratchpad) scratchpad
                       (big ID_neg_bignum 51966) no_error
     = ((8%nat, appended [35; 53; 44; 49; 57; 54; 54; 100] scratchpad),
        no_error)
  /\ render_oct_bignum (settings_with_space 44) 0 (fun r => r)
                       (fun _ _ _ => scratchpad) scratchpad
                       (big ID_neg_bignum 51966) no_error
     = ((9%nat, appended [35; 49; 52; 44; 53; 51; 55; 54; 111] scratchpad),
        no_error)
  /\ render_bin_bignum (settings_with_space 44) 0 (fun r => r)
                       (fun _ _ _ => scratchpad) scratchpad
                       (big ID_neg_bignum 51966) no_error
     = ((21%nat,
         appended [35; 49; 49; 48; 48; 44; 49; 48; 49; 48; 44; 49; 49; 49;
                   49; 44; 49; 49; 49; 48; 98] scratchpad),
        no_error).
Proof.
  apply (render_bodies_text (settings_with_space 44) 0 (fun r => r)
           (fun _ _ _ => scratchpad) scratchpad (big ID_neg_bignum 51966)
           no_error).
  - unfold plain. cbn. repeat split; reflexivity.
  - reflexivity.
  - apply bytes_okb_true. reflexivity.
  - vm_compute. reflexivity.
  - cbn. lia.
  - cbn. lia.
  - cbn. lia.
  - cbn. lia.
  - cbn. lia.
  - cbn. lia.
  - cbn. lia.
  - cbn. lia.
  - apply Nat.leb_le. vm_compute. reflexivity.
Defined.

(* ========================================================================= *)
(** * The categories of the table of kinds                                   *)
(* ========================================================================= *)

Lemma in_pair_tags (cfg : bool) (p : string * string) (ty : nat) :
  Ids.in_pair cfg ty p = true ->
  exists f l : nat, pair_tags cfg p = Some (f, l) /\ (f <= ty <= l)%nat.
Proof.
  unfold Ids.in_pair, pair_tags.
  destruct (Ids.tag cfg (fst p)) as [f|]; [|discriminate].
  destruct (Ids.tag cfg (snd p)) as [l|]; [|discriminate].
  intros H. apply andb_true_iff in H. destruct H as [H1 H2].
  apply Nat.leb_le in H1. apply Nat.leb_le in H2.
  exists f, l. split; [reflexivity|lia].
Qed.

Lemma tags_in_pair (cfg : bool) (p : string * string) (f l ty : nat) :
  pair_tags cfg p = Some (f, l) ->
  Ids.in_pair cfg ty p = ((f <=? ty)%nat && (ty <=? l)%nat).
Proof.
  unfold Ids.in_pair, pair_tags.
  destruct (Ids.tag cfg (fst p)) as [f'|]; [|discriminate].
  destruct (Ids.tag cfg (snd p)) as [l'|]; [|discriminate].
  intros H. injection H as -> ->. reflexivity.
Qed.

Lemma ranges_within_spec (cfg : bool)
                         (small large : list (string * string)) :
  ranges_within cfg small large = true ->
  forall ty : nat,
    Ids.in_ranges cfg small ty = true -> Ids.in_ranges cfg large ty = true.
Proof.
  intros H ty Hs. unfold ranges_within in H. rewrite forallb_forall in H.
  unfold Ids.in_ranges in *. apply existsb_exists in Hs.
  destruct Hs as (p & Hin & Hp). specialize (H p Hin).
  apply existsb_exists in H. destruct H as (P & HP & Hc).
  apply existsb_exists. exists P. split; [exact HP|].
  destruct (in_pair_tags cfg p ty Hp) as (f & l & Ep & Hb).
  rewrite Ep in Hc. destruct (pair_tags cfg P) as [[F L]|] eqn:EP;
    [|discriminate].
  apply andb_true_iff in Hc. destruct Hc as [H1 H2].
  apply Nat.leb_le in H1. apply Nat.leb_le in H2.
  rewrite (tags_in_pair cfg P F L ty EP).
  apply andb_true_iff. split; apply Nat.leb_le; lia.
Qed.

Lemma ranges_apart_spec (cfg : bool) (a b : list (string * string)) :
  ranges_apart cfg a b = true ->
  forall ty : nat,
    Ids.in_ranges cfg a ty = true -> Ids.in_ranges cfg b ty = false.
Proof.
  intros H ty Ha. unfold ranges_apart in H. rewrite forallb_forall in H.
  unfold Ids.in_ranges in *. apply existsb_exists in Ha.
  destruct Ha as (p & Hin & Hp). specialize (H p Hin).
  rewrite forallb_forall in H.
  destruct (existsb (Ids.in_pair cfg ty) b) eqn:Eb; [|reflexivity].
  apply existsb_exists in Eb. destruct Eb as (P & HP & HPin).
  specialize (H P HP).
  destruct (in_pair_tags cfg p ty Hp) as (f & l & Ep & Hb).
  destruct (in_pair_tags cfg P ty HPin) as (F & L & EP & HB).
  rewrite Ep, EP in H. apply orb_true_iff in H.
  destruct H as [H|H]; apply Nat.ltb_lt in H; lia.
Qed.

(** X11.  The categories of the table nest, with or without the kinds of
    the fixed bases: a bignum or a based number is an integer; an integer, a
    fraction, a decimal, a real or a complex number is a type; a fraction or
    a decimal is real; an algebraic operation is a command; no type is a
    command; and no based number is real. *)
Theorem categories_nest (cfg : bool) (ty : nat) :
  (Ids.is_bignum cfg ty = true -> Ids.is_integer cfg ty = true)
  /\ (Ids.is_based cfg ty = true -> Ids.is_integer cfg ty = true)
  /\ (Ids.is_integer cfg ty = true -> Ids.is_type cfg ty = true)
  /\ (Ids.is_fraction cfg ty = true -> Ids.is_real cfg ty = true)
  /\ (Ids.is_decimal cfg ty = true -> Ids.is_real cfg ty = true)
  /\ (Ids.is_real cfg ty = true -> Ids.is_type cfg ty = true)
  /\ (Ids.is_complex cfg ty = true -> Ids.is_type cfg ty = true)
  /\ (Ids.is_algebraic cfg ty = true -> Ids.is_command cfg ty = true)
  /\ (Ids.is_type cfg ty = true -> Ids.is_command cfg ty = false)
  /\ (Ids.is_based cfg ty = true -> Ids.is_real cfg ty = false).
Proof.
  unfold Ids.is_bignum, Ids.is_based, Ids.is_integer, Ids.is_fraction,
    Ids.is_decimal, Ids.is_real, Ids.is_complex, Ids.is_algebraic,
    Ids.is_type, Ids.is_command.
  repeat match goal with |- _ /\ _ => split end; revert ty;
    first [apply ranges_within_spec|apply ranges_apart_spec];
    destruct cfg; vm_compute; reflexivity.
Qed.

(* ========================================================================= *)
(** * [bignum::pow] for an exponent of one byte                              *)
(* ========================================================================= *)

Lemma signed_kind_not_based (t : id) :
  signed_kind t = true -> is_based t = false.
Proof.
  unfold signed_kind. intros H. apply andb_true_iff in H.
  destruct H as [_ H]. apply negb_true_iff in H. exact H.
Qed.

Section PowByte.

Variable Settings : settings.
Variable product_type : id -> id -> id.
Hypothesis product_type_signed : signed_product_type product_type.

(** The magnitude of the base, the count of its bytes and its sign. *)
Variable m : Z.
Variable s : nat.
Variable neg : bool.
Hypothesis m_bound : 0 <= m < radix s.

Lemma power_length (a : Z) (R : bignum) :
  0 <= a -> power_of m neg a R ->
  Z.of_nat (List.length (value R)) <= Z.of_nat s * a + 1.
Proof.
  intros Ha (HR & NR & _ & VR & _).
  destruct (Z.eq_dec a 0) as [-> | Hnz].
  - assert (H1 : (List.length (value R) <= 1)%nat).
    { apply normalized_length; try assumption.
      unfold magnitude in VR. rewrite VR. rewrite radix_S, radix_0.
      change (m ^ 0) with 1. lia. }
    lia.
  - assert (Hlen : (List.length (value R) <= s * Z.to_nat a)%nat).
    { apply normalized_length; try assumption.
      unfold magnitude in VR. rewrite VR.
      replace (radix (s * Z.to_nat a)) with (radix s ^ a).
      - apply Z.pow_lt_mono_l; lia.
      - unfold radix. rewrite <- Z.pow_mul_r by lia. f_equal.
        rewrite Nat2Z.inj_mul, Z2Nat.id by lia. ring. }
    apply Nat2Z.inj_le in Hlen. rewrite Nat2Z.inj_mul, Z2Nat.id in Hlen by lia.
    lia.
Qed.

(** The product of two powers is the power of the sum. *)
Lemma power_mul (a b : Z) (R Y : bignum) (rt : runtime) :
  0 <= a -> 0 <= b ->
  power_of m neg a R -> power_of m neg b Y ->
  8 * (Z.of_nat s * (a + b) + 2) <= Z.of_nat (maxbignum Settings) ->
  exists P : bignum,
    operator_mul Settings product_type (Some R) (Some Y) rt = (Some P, rt)
    /\ power_of m neg (a + b) P.
Proof.
  intros Ha Hb HR HY Hmax.
  pose proof (power_length a R Ha HR) as LR.
  pose proof (power_length b Y Hb HY) as LY.
  destruct HR as (BR & NR & TR & VR & SR).
  destruct HY as (BY & NY & TY & VY & SY).
  unfold operator_mul.
  pose proof (multiply_total Settings R Y (product_type (type R) (type Y))
                rt BY BR) as H.
  assert (E : (maxbignum Settings
               <? (List.length (value Y) + List.length (value R)) * 8)%nat
              = false) by (apply Nat.ltb_ge; lia).
  rewrite E in H. destruct H as (P & EP & TP & BP & NP & VP).
  rewrite multiply_width_exact in VP
    by (try assumption; apply wordsize_of_signed;
        apply signed_kind_not_based; exact TY).
  exists P. split; [exact EP|].
  destruct (product_type_signed (type R) (type Y) TR TY) as [Hb1 Hn1].
  unfold power_of. rewrite TP.
  split; [exact BP|]. split; [exact NP|]. split; [exact Hb1|].
  split.
  - rewrite VP, VY, VR, Z.pow_add_r by lia. ring.
  - rewrite Hn1, SR, SY, Z.odd_add.
    destruct neg, (Z.odd a), (Z.odd b); reflexivity.
Qed.

Lemma pow_bits_spec (n : nat) :
  forall (bit e a b : Z) (R Y : bignum) (rt : runtime),
    0 <= e < 2 ^ Z.of_nat n -> bit + Z.of_nat n = 8 -> 0 <= bit ->
    0 <= a -> 1 <= b ->
    power_of m neg a R -> power_of m neg b Y ->
    8 * (Z.of_nat s * (a + b * e) + 2) <= Z.of_nat (maxbignum Settings) ->
    exists R' Y' : bignum,
      pow_bits Settings product_type n 1 0 bit e (Some R) (Some Y) rt
      = ((Some R', Some Y'), rt)
      /\ power_of m neg (a + b * e) R'.
Proof.
  induction n as [|n IH]; intros bit e a b R Y rt He Hbit Hb0 Ha Hb HR HY
    Hmax.
  - change (2 ^ Z.of_nat 0) with 1 in He. assert (e = 0) by lia. subst e.
    exists R, Y. split; [reflexivity|].
    replace (a + b * 0) with a by ring. exact HR.
  - cbn [pow_bits].
    destruct (e =? 0) eqn:E0.
    + apply Z.eqb_eq in E0. subst e. cbn [negb andb].
      exists R, Y. split; [reflexivity|].
      replace (a + b * 0) with a by ring. exact HR.
    + apply Z.eqb_neq in E0. cbn [negb].
      assert (Eb : (bit <? 8) = true) by (apply Z.ltb_lt; lia).
      rewrite Eb. cbn [andb].
      assert (Eland : Z.land e 1 = e mod 2)
        by (change 1 with (Z.ones 1); apply Z.land_ones; lia).
      rewrite Eland, Z.shiftr_div_pow2 by lia. change (2 ^ 1) with 2.
      change (0 <? 1 - 1)%nat with false. rewrite orb_false_r.
      pose proof (Z.div_mod e 2 ltac:(lia)) as Hdm.
      pose proof (Z.mod_pos_bound e 2 ltac:(lia)) as Hmod.
      assert (Hq : 0 <= e / 2) by (apply Z.div_pos; lia).
      assert (Hlt : e / 2 < 2 ^ Z.of_nat n).
      { apply Z.div_lt_upper_bound; [lia|].
        rewrite Nat2Z.inj_succ, Z.pow_succ_r in He by lia. lia. }
      (* r = r * y, for a bit that is set *)
      assert (Hstep1 :
        exists R1 : bignum,
          (if negb (e mod 2 =? 0)
           then operator_mul Settings product_type (Some R) (Some Y)
           else ret (Some R)) rt = (Some R1, rt)
          /\ power_of m neg (a + b * (e mod 2)) R1).
      { destruct (e mod 2 =? 0) eqn:Em.
        - apply Z.eqb_eq in Em. rewrite Em. cbn [negb].
          exists R. split; [reflexivity|].
          replace (a + b * 0) with a by ring. exact HR.
        - apply Z.eqb_neq in Em. cbn [negb].
          assert (E1 : e mod 2 = 1) by lia. rewrite E1.
          replace (a + b * 1) with (a + b) by ring.
          apply power_mul; try assumption; try lia; nia. }
      destruct Hstep1 as (R1 & ER1 & HR1).
      unfold bind at 1. rewrite ER1.
      (* y = y * y, when bits are left *)
      assert (Hstep2 :
        exists (Y1 : bignum) (b1 : Z),
          (if negb (e / 2 =? 0)
           then operator_mul Settings product_type (Some Y) (Some Y)
           else ret (Some Y)) rt = (Some Y1, rt)
          /\ power_of m neg b1 Y1 /\ 1 <= b1
          /\ b1 * (e / 2) = 2 * b * (e / 2)).
      { destruct (e / 2 =? 0) eqn:Eq.
        - apply Z.eqb_eq in Eq. rewrite Eq. cbn [negb].
          exists Y, b. split; [reflexivity|]. split; [exact HY|].
          split; [lia|ring].
        - apply Z.eqb_neq in Eq. cbn [negb].
          destruct (power_mul b b Y Y rt ltac:(lia) ltac:(lia) HY HY)
            as (Y1 & EY1 & HY1); [nia|].
          exists Y1, (b + b). split; [exact EY1|]. split; [exact HY1|].
          split; [lia|ring]. }
      destruct Hstep2 as (Y1 & b1 & EY1 & HY1 & Hb1 & Eb1).
      unfold bind at 1. rewrite EY1.
      destruct (IH (bit + 1) (e / 2) (a + b * (e mod 2)) b1 R1 Y1 rt)
        as (R' & Y' & Erun & HR'); try assumption; try lia; try nia.
      exists R', Y'. split; [exact Erun|].
      replace (a + b * e) with (a + b * (e mod 2) + b1 * (e / 2)) by nia.
      exact HR'.
Qed.

End PowByte.



(* ========================================================================= *)
(** * [renderer::put] and the bounds of the buffer                           *)
(* ========================================================================= *)

(** X13.  Once a renderer has written [length] bytes or more, [put]
    returns false and writes nothing: the buffer, the file, the scratchpad
    and [written] are as they were. *)
Theorem put_on_full_buffer (c : Z) (r : Renderer.renderer) :
  (Renderer.length r <= Renderer.written r)%nat ->
  fst (Renderer.put c r) = false
  /\ Renderer.target (snd (Renderer.put c r)) = Renderer.target r
  /\ Renderer.saving (snd (Renderer.put c r)) = Renderer.saving r
  /\ Renderer.scratch (snd (Renderer.put c r)) = Renderer.scratch r
  /\ Renderer.written (snd (Renderer.put c r)) = Renderer.written r
  /\ Renderer.sign (snd (Renderer.put c r)) = false.
Proof.
  intros H. rewrite (put_full c r H). destruct r. cbn.
  repeat split; reflexivity.
Qed.

Lemma put_on_full_buffer_witness :
  fst (Renderer.put 97 (snd (Renderer.put 98 one_byte_buffer))) = false
  /\ Renderer.target (snd (Renderer.put 97
                             (snd (Renderer.put 98 one_byte_buffer))))
     = Renderer.target (snd (Renderer.put 98 one_byte_buffer))
  /\ Renderer.saving (snd (Renderer.put 97
                             (snd (Renderer.put 98 one_byte_buffer))))
     = Renderer.saving (snd (Renderer.put 98 one_byte_buffer))
  /\ Renderer.scratch (snd (Renderer.put 97
                              (snd (Renderer.put 98 one_byte_buffer))))
     = Renderer.scratch (snd (Renderer.put 98 one_byte_buffer))
  /\ Renderer.written (snd (Renderer.put 97
                              (snd (Renderer.put 98 one_byte_buffer))))
     = Renderer.written (snd (Renderer.put 98 one_byte_buffer))
  /\ Renderer.sign (snd (Renderer.put 97
                           (snd (Renderer.put 98 one_byte_buffer))))
     = false.
Proof.
  apply (put_on_full_buffer 97 (snd (Renderer.put 98 one_byte_buffer))).
  apply Nat.leb_le. vm_compute. reflexivity.
Defined.

(** X14.  With no newline pending, [put] on a fixed buffer stays within
    it: [written] grows, by the character and the tabs and the sign that go
    with it, but not beyond [length], the memory after the buffer is left as
    it was, and no newline is pending afterwards. *)
Theorem put_stays_within_buffer
  (c : Z) (r : Renderer.renderer) (memory : list Z) :
  Renderer.nl r = false ->
  (Renderer.written r <= Renderer.length r)%nat ->
  Renderer.target r = Some memory ->
  exists memory' : list Z,
    Renderer.target (snd (Renderer.put c r)) = Some memory'
    /\ skipn (Renderer.length r) memory' = skipn (Renderer.length r) memory
    /\ Renderer.length (snd (Renderer.put c r)) = Renderer.length r
    /\ (Renderer.written r <= Renderer.written (snd (Renderer.put c r))
        <= Renderer.length r)%nat
    /\ Renderer.nl (snd (Renderer.put c r)) = false
    /\ Renderer.sign (snd (Renderer.put c r)) = false.
Proof.
  intros Hn Hw Ht.
  destruct (put_within_length c r Hn Hw) as (Hl & Hs & Hn' & Hw' & Hm).
  rewrite Ht in Hm.
  destruct (Renderer.target (snd (Renderer.put c r))) as [memory'|];
    [|discriminate Hm].
  cbn [option_map] in Hm. injection Hm as Hm.
  exists memory'. split; [reflexivity|]. split; [exact Hm|].
  split; [exact Hl|]. split; [exact Hw'|]. split; assumption.
Qed.

Lemma put_stays_within_buffer_witness :
  exists memory' : list Z,
    Renderer.target
      (snd (Renderer.put 10
              (Renderer.mk_renderer (Some [1; 2; 3; 4; 5]) None [] 3 0 7
                 false false false false true false false false false)))
    = Some memory'
    /\ skipn 3 memory' = skipn 3 [1; 2; 3; 4; 5]
    /\ Renderer.length
         (snd (Renderer.put 10
                 (Renderer.mk_renderer (Some [1; 2; 3; 4; 5]) None [] 3 0 7
                    false false false false true false false false false)))
       = 3%nat
    /\ (0 <= Renderer.written
               (snd (Renderer.put 10
                       (Renderer.mk_renderer (Some [1; 2; 3; 4; 5]%Z) None
                          [] 3 0 7 false false false false true false
                          false false false)))
        <= 3)%nat
    /\ Renderer.nl
         (snd (Renderer.put 10
                 (Renderer.mk_renderer (Some [1; 2; 3; 4; 5]) None [] 3 0 7
                    false false false false true false false false false)))
       = false
    /\ Renderer.sign
         (snd (Renderer.put 10
                 (Renderer.mk_renderer (Some [1; 2; 3; 4; 5]) None [] 3 0 7
                    false false false false true false false false false)))
       = false.
Proof.
  apply (put_stays_within_buffer 10
           (Renderer.mk_renderer (Some [1; 2; 3; 4; 5]) None [] 3 0 7
              false false false false true false false false false)
           [1; 2; 3; 4; 5]).
  - reflexivity.
  - cbn. lia.
  - reflexivity.
Defined.

Lemma pow_zero_witness :
  pow example_settings example_product_type
      (Some (big ID_neg_bignum 7)) (Some (big ID_bignum 0)) no_error
  = (bignum_make 1, no_error)
  /\ option_map magnitude (bignum_make 1) = Some 1.
Proof.
  apply (pow_zero example_settings example_product_type
           (big ID_neg_bignum 7) (big ID_bignum 0) no_error).
  reflexivity.
Defined.
